(** * memory-storage: the append-log store and the TTL index

    A shallow embedding of the two in-memory indexed stores of the
    repository:

    - [Storage]: [BTreeIndexedStorage], an append-only value log indexed
      by a B-tree of [entry{k,pos}], with tombstones and
      [CompactIncremental];
    - [TtlBTree]: [ByteKeyBTree], a B-tree of record pointers
      ([*FilterNodeItem] / [*ValueNodeItem]) with expiry listing and
      purge.

    Both sit on [github.com/google/btree], which is modelled in [BTree]
    at the level of its interface: a strictly key-sorted sequence of
    items.  The stores serialise their methods with a lock; the model
    takes one call at a time and the statements are about runs in which
    the calls follow one another.  How goroutines interleave is outside
    it. *)

From Stdlib Require Import ZArith Lia Floats Uint63.
From Stdlib.Strings Require Import Byte.
From stdpp Require Import list sorting.

Open Scope Z_scope.

(** ** Runtime panics

    Go code that indexes a slice out of range or calls a method on a nil
    interface panics; such code returns a [result]. *)

Inductive panic : Type :=
  | IndexOutOfRange
  | NilPointerDereference.

Inductive result (A : Type) : Type :=
  | Ok (a : A)
  | Panic (p : panic).
Arguments Ok {A} a.
Arguments Panic {A} p.

Definition bind {A B : Type} (r : result A) (f : A -> result B) : result B :=
  match r with
  | Ok a => f a
  | Panic p => Panic p
  end.

Notation "'let!' x ':=' r 'in' k" := (bind r (fun x => k))
  (at level 10, x name, r at level 100, k at level 200).

(** Two's complement wrap-around of [int64] arithmetic. *)
Definition wrap64 (z : Z) : Z := (z + 2 ^ 63) mod 2 ^ 64 - 2 ^ 63.

(** [float64(n)] for an integer [n] with [|n| < 2^63]. *)
Definition float64_of_int (z : Z) : float :=
  if z <? 0 then PrimFloat.opp (PrimFloat.of_uint63 (Uint63.of_Z (- z)))
  else PrimFloat.of_uint63 (Uint63.of_Z z).

(** ** [bytes.Compare] *)

Module Bytes.

(** Lexicographic comparison of two byte strings. *)
Fixpoint compare (a b : list byte) : comparison :=
  match a, b with
  | [], [] => Eq
  | [], _ :: _ => Lt
  | _ :: _, [] => Gt
  | x :: a', y :: b' =>
      match (Byte.to_N x ?= Byte.to_N y)%N with
      | Eq => compare a' b'
      | Lt => Lt
      | Gt => Gt
      end
  end.

(** [bytes.Compare(a, b)]: -1, 0 or +1. *)
Definition Compare (a b : list byte) : Z :=
  match compare a b with
  | Lt => -1
  | Eq => 0
  | Gt => 1
  end.

Definition lt (a b : list byte) : bool := Compare a b <? 0.
Definition eqb (a b : list byte) : bool := Compare a b =? 0.

End Bytes.

(** ** The ordered index ([github.com/google/btree])

    The B-tree library is an external dependency, used only through
    [ReplaceOrInsert], [Get], [Delete], [Ascend], [Len] and [Clear].  A
    tree is the ascending sequence of its items; every operation walks
    it with the items' own [Less], as the library does. *)

Module BTree.
Section Ops.
Context {A : Type}.
(** The key an item is ordered by: [Less] of every item type of the
    repository is [bytes.Compare(key, other.key) < 0]. *)
Variable key : A -> list byte.

Definition Less (x y : A) : bool := Bytes.Compare (key x) (key y) <? 0.

(** Modelled from the spec: [Get(key) -> record or none] of the ordered
    index, whose source is the B-tree library; the stored item that is
    neither less nor greater than [x]. *)
Fixpoint Get (x : A) (t : list A) : option A :=
  match t with
  | [] => None
  | y :: r =>
      if Less y x then Get x r
      else if Less x y then None
      else Some y
  end.

(** Modelled from the spec: [ReplaceOrInsert(record) -> previous record
    or none] of the ordered index, whose source is the B-tree library;
    the new tree and the replaced item. *)
Fixpoint ReplaceOrInsert (x : A) (t : list A) : list A * option A :=
  match t with
  | [] => ([x], None)
  | y :: r =>
      if Less y x then
        let '(r', prev) := ReplaceOrInsert x r in (y :: r', prev)
      else if Less x y then (x :: y :: r, None)
      else (x :: r, Some y)
  end.

(** Modelled from the spec: [Delete(key) -> removed record or none] of
    the ordered index, whose source is the B-tree library; the new tree
    and the removed item. *)
Fixpoint Delete (x : A) (t : list A) : list A * option A :=
  match t with
  | [] => ([], None)
  | y :: r =>
      if Less y x then
        let '(r', d) := Delete x r in (y :: r', d)
      else if Less x y then (y :: r, None)
      else (r, Some y)
  end.

(** Modelled from the spec: [Ascend(visit(record) -> continue)] of the
    ordered index, whose source is the B-tree library; in-order
    traversal, where [visit] updates the variables it captured (the state
    [S]), may panic, and stops the traversal by returning [false]. *)
Fixpoint Ascend {S : Type} (visit : A -> S -> result (S * bool))
    (t : list A) (s : S) : result S :=
  match t with
  | [] => Ok s
  | y :: r =>
      let! sc := visit y s in
      let '(s', continue) := sc in
      if continue then Ascend visit r s' else Ok s'
  end.

(** Modelled from the spec: [Len() -> count] of the ordered index. *)
Definition Len (t : list A) : Z := Z.of_nat (length t).

(** Strictly ascending keys, the invariant of the tree. *)
Definition sorted (t : list A) : Prop :=
  StronglySorted (fun x y => Less x y = true) t.

Fixpoint sortedb (t : list A) : bool :=
  match t with
  | [] => true
  | x :: r =>
      match r with
      | [] => true
      | y :: _ => Less x y && sortedb r
      end
  end.

Definition keyeq (x y : A) : bool := Bytes.eqb (key x) (key y).

End Ops.
End BTree.

(** ** The append-log store ([BTreeIndexedStorage]) *)

Module Storage.

(** [type key [8]byte]: eight bytes, compared with [bytes.Compare].  The
    statements below hold for byte strings of any length, the eight-byte
    ones among them. *)
Abbreviation key := (list byte).

(** A stored value is a [[]byte]; [None] is the nil slice, which the
    store also uses as its tombstone mark. *)
Abbreviation value := (option (list byte)).

(** [entry] ties a key to its position in [storage].  [pos] is always a
    former [len(s.storage)], so it is kept as a natural number. *)
Record entry : Type := mkEntry { k : key; pos : nat }.

Record BTreeIndexedStorage : Type := mkStorage {
  tree : list entry;
  storage : list value;
  tombstones : Z;
  threshold : float;
  degree : Z;
  batchSize : Z
}.

(** [capacity] only sizes the first allocation of [storage]. *)
Definition NewBTreeIndexedStorage (degree capacity : Z) (threshold : float)
    (batchSize : Z) : BTreeIndexedStorage :=
  {| tree := []; storage := []; tombstones := 0;
     threshold := threshold; degree := degree; batchSize := batchSize |}.

(** [&entry{k: index}], the probe handed to the tree. *)
Definition probe (index : key) : entry := {| k := index; pos := 0 |}.

Definition Add (s : BTreeIndexedStorage) (index : key) (val : value)
    : BTreeIndexedStorage :=
  match BTree.Get k (probe index) (tree s) with
  | Some _ => s
  | None =>
      let pos := length (storage s) in
      {| tree := fst (BTree.ReplaceOrInsert k {| k := index; pos := pos |} (tree s));
         storage := storage s ++ [val];
         tombstones := tombstones s;
         threshold := threshold s; degree := degree s;
         batchSize := batchSize s |}
  end.

Definition Get (s : BTreeIndexedStorage) (index : key)
    : result (value * bool) :=
  match BTree.Get k (probe index) (tree s) with
  | None => Ok (None, false)
  | Some item =>
      match storage s !! pos item with
      | Some val => Ok (val, true)
      | None => Panic IndexOutOfRange
      end
  end.

(** [Delete] returns the new store and whether it launched
    [go s.CompactIncremental()]. *)
Definition Delete (s : BTreeIndexedStorage) (index : key)
    : result (BTreeIndexedStorage * bool) :=
  let '(tree', item) := BTree.Delete k (probe index) (tree s) in
  match item with
  | None =>
      Ok ({| tree := tree'; storage := storage s;
             tombstones := tombstones s;
             threshold := threshold s; degree := degree s;
             batchSize := batchSize s |}, false)
  | Some e =>
      if (pos e <? length (storage s))%nat then
        let storage' := <[pos e := None]> (storage s) in
        let tombstones' := wrap64 (tombstones s + 1) in
        Ok ({| tree := tree'; storage := storage';
               tombstones := tombstones';
               threshold := threshold s; degree := degree s;
               batchSize := batchSize s |},
            PrimFloat.ltb (threshold s)
              (PrimFloat.div (float64_of_int tombstones')
                 (float64_of_int (Z.of_nat (length storage')))))
      else Panic IndexOutOfRange
  end.

Definition Len (s : BTreeIndexedStorage) : Z := BTree.Len (tree s).

(** The closure passed to [Ascend] by [CompactIncremental]; its captured
    variables are [newStorage], [newTree] and [count]. *)
Definition compactVisit (s : BTreeIndexedStorage) (e : entry)
    (st : list value * list entry * Z)
    : result (list value * list entry * Z * bool) :=
  let '(newStorage, newTree, count) := st in
  match storage s !! pos e with
  | None => Panic IndexOutOfRange
  | Some val =>
      let '(newStorage, newTree) :=
        match val with
        | Some _ =>
            let newPos := length newStorage in
            (newStorage ++ [val],
             fst (BTree.ReplaceOrInsert k {| k := k e; pos := newPos |} newTree))
        | None => (newStorage, newTree)
        end in
      let count := count + 1 in
      if (0 <? batchSize s) && (batchSize s <=? count)
      then Ok (newStorage, newTree, count, false)
      else Ok (newStorage, newTree, count, true)
  end.

Definition CompactIncremental (s : BTreeIndexedStorage)
    : result BTreeIndexedStorage :=
  let! r := BTree.Ascend (compactVisit s) (tree s) ([], [], 0) in
  let '(newStorage, newTree, count) := r in
  if (count <? batchSize s) || (batchSize s =? 0) then
    Ok {| tree := newTree; storage := newStorage; tombstones := 0;
          threshold := threshold s; degree := degree s;
          batchSize := batchSize s |}
  else
    Ok {| tree := newTree; storage := newStorage; tombstones := 0;
          threshold := threshold s; degree := degree s;
          batchSize := batchSize s |}.

(** *** Invariant and vocabulary of the statements *)

(** Every reachable store indexes strictly ascending keys and positions
    inside the backing sequence. *)
Definition wfb (s : BTreeIndexedStorage) : bool :=
  BTree.sortedb k (tree s)
  && forallb (fun e => (pos e <? length (storage s))%nat) (tree s).
Definition wf (s : BTreeIndexedStorage) : Prop := wfb s = true.

(** The slot an entry points at. *)
Definition slot (st : list value) (e : entry) : value :=
  default None (st !! pos e).

(** An entry whose slot still holds a value. *)
Definition live (st : list value) (e : entry) : bool :=
  match slot st e with
  | Some _ => true
  | None => false
  end.

(** The same keys with fresh dense positions [n], [n+1], ... *)
Fixpoint renumber (n : nat) (es : list entry) : list entry :=
  match es with
  | [] => []
  | e :: r => {| k := k e; pos := n |} :: renumber (S n) r
  end.

(** The store a compaction builds from the entries [es] it has visited:
    their live values in order, and the same keys numbered densely. *)
Definition rebuild (st : list value) (es : list entry)
    : list value * list entry :=
  let ls := List.filter (live st) es in
  (map (slot st) ls, renumber 0 ls).

(** The entries one invocation of [CompactIncremental] inspects: all of
    them, or the first [batchSize] when that is positive. *)
Definition scanned (batch : Z) (es : list entry) : list entry :=
  if 0 <? batch then take (Z.to_nat batch) es else es.

(** A run of public operations, as a client or the background
    goroutine would issue them. *)
Inductive op : Type :=
  | OpAdd (index : key) (val : value)
  | OpDelete (index : key)
  | OpCompact.

Definition step (s : BTreeIndexedStorage) (o : op)
    : result BTreeIndexedStorage :=
  match o with
  | OpAdd index val => Ok (Add s index val)
  | OpDelete index => let! r := Delete s index in Ok (fst r)
  | OpCompact => CompactIncremental s
  end.

Fixpoint run (s : BTreeIndexedStorage) (os : list op)
    : result BTreeIndexedStorage :=
  match os with
  | [] => Ok s
  | o :: os' => let! s' := step s o in run s' os'
  end.

(** An operation that neither deletes the key nor compacts. *)
Definition keeps (index : key) (o : op) : bool :=
  match o with
  | OpAdd _ _ => true
  | OpDelete i => negb (Bytes.eqb i index)
  | OpCompact => false
  end.

(** Every indexed entry holds a value, at a position of its own. *)
Definition dense (s : BTreeIndexedStorage) : Prop :=
  (forall e, e ∈ tree s -> live (storage s) e = true)
  /\ (forall e1 e2, e1 ∈ tree s -> e2 ∈ tree s -> pos e1 = pos e2 -> e1 = e2).

(** [Add] for every pair of a list, [Delete] for every key of a list, one
    call after the other: a compaction that one of these [Delete]s launches
    does not run before the last of them has returned (a [run] with
    [OpCompact] in between covers the other schedules). *)
Definition AddAll (s : BTreeIndexedStorage) (kvs : list (key * value))
    : BTreeIndexedStorage :=
  fold_left (fun s kv => Add s (fst kv) (snd kv)) kvs s.

Fixpoint DeleteAll (s : BTreeIndexedStorage) (ks : list key)
    : result BTreeIndexedStorage :=
  match ks with
  | [] => Ok s
  | index :: rest => let! r := Delete s index in DeleteAll (fst r) rest
  end.

(** The key is in the index. *)
Definition indexed (s : BTreeIndexedStorage) (index : key) : Prop :=
  BTree.Get k (probe index) (tree s) <> None.

End Storage.

(** ** The scenario of the store's test *)

Module StorageTest.
Import Storage.

(** [key{1}], [key{2}], [key{3}] and the values of the store's test. *)
Definition k1 : key := [x01; x00; x00; x00; x00; x00; x00; x00].
Definition k2 : key := [x02; x00; x00; x00; x00; x00; x00; x00].
Definition k3 : key := [x03; x00; x00; x00; x00; x00; x00; x00].
(** The test's 0.3, as the [float64] nearest to it. *)
Definition threshold30 : float := 0x1.3333333333333p-2%float.
Definition foo : value := Some [x66; x6f; x6f].
Definition bar : value := Some [x62; x61; x72].
Definition baz : value := Some [x62; x61; x7a].

(** The store of the test after its three [Add]s, for a batch size. *)
Definition three (batch : Z) : BTreeIndexedStorage :=
  Add (Add (Add (NewBTreeIndexedStorage 16 10 threshold30 batch) k1 foo) k2 bar) k3 baz.

(** The same three [Add]s under a threshold of one half, which a single
    deletion out of three does not cross: no background compaction. *)
Definition quiet (batch : Z) : BTreeIndexedStorage :=
  Add (Add (Add (NewBTreeIndexedStorage 16 10 0.5 batch) k1 foo) k2 bar) k3 baz.

(** A store holding [k1], to which [k2] is then added with a nil value,
    and what happens next: [k3] is added and [k1] deleted. *)
Definition holdingK1 : BTreeIndexedStorage :=
  Add (NewBTreeIndexedStorage 16 10 threshold30 100) k1 foo.
Definition afterNil : list op := [OpAdd k3 baz; OpDelete k1].
(** The store holding [k1] after [k2] and [k3] were both added with a nil
    value; no key is ever deleted. *)
Definition twoNil : BTreeIndexedStorage :=
  Add (Add holdingK1 k2 None) k3 None.
End StorageTest.

(** ** The TTL index ([ByteKeyBTree] over [Item] records) *)

Module TtlBTree.

(** *** Memory

    Records are handed to the index by pointer and their keys are byte
    slices, so the model keeps a heap: backing arrays of bytes and
    record objects, both addressed by their allocation number. *)

Abbreviation addr := nat.
Abbreviation loc := nat.

(** A [[]byte]: nil, or a window of a backing array. *)
Inductive slice : Type :=
  | NilSlice
  | Slice (a : addr) (off len : nat).

Inductive NodeItem : Type :=
  | ValueNodeItem (valueBytes keyBytes : slice) (timestampUnixSeconds : Z)
  | FilterNodeItem (keyBytes : slice) (timestampUnixSeconds : Z).

Record heap : Type := mkHeap {
  arrays : list (list byte);
  items : list NodeItem
}.

(** An [Item] interface value: nil, or a pointer to a record. *)
Abbreviation Item := (option loc).

Definition slice_len (s : slice) : nat :=
  match s with
  | NilSlice => 0
  | Slice _ _ n => n
  end.

(** The bytes seen through a slice (a slice lies within its array). *)
Definition slice_bytes (arrs : list (list byte)) (s : slice) : list byte :=
  match s with
  | NilSlice => []
  | Slice a off n => take n (drop off (default [] (arrs !! a)))
  end.

(** [s[i] = b] *)
Definition slice_store (arrs : list (list byte)) (s : slice) (i : nat)
    (b : byte) : result (list (list byte)) :=
  match s with
  | NilSlice => Panic IndexOutOfRange
  | Slice a off n =>
      if (i <? n)%nat then
        Ok (alter (fun arr => <[(off + i)%nat := b]> arr) a arrs)
      else Panic IndexOutOfRange
  end.

(** *** [time.Time] and [time.Duration]

    A [time.Time] holds an [int64] count of seconds since January 1 of
    year 1 and the nanoseconds within the second (a wall clock reading
    packed with a monotonic one denotes a time in the same way).  A time
    is modelled by the instant it denotes, as the count of nanoseconds
    since the Unix epoch; a duration is an [int64] count of nanoseconds.
    The seconds are computed as the [time] package computes them, in
    [int64]: [Unix] wraps around and [Add] saturates. *)

Abbreviation Time := Z.
Abbreviation Duration := Z.
Definition Second : Duration := 1000000000.

(** [unixToInternal]: the seconds from January 1 of year 1 to the Unix
    epoch. *)
Definition unixToInternal : Z := 62135596800.

(** The seconds field of a time, its nanoseconds, and the time with
    given fields. *)
Definition internalSec (t : Time) : Z := t / 1000000000 + unixToInternal.
Definition nsecOf (t : Time) : Z := t mod 1000000000.
Definition mkTime (sec nsec : Z) : Time :=
  (sec - unixToInternal) * 1000000000 + nsec.

(** [t.Unix()]: [t.sec() + internalToUnix]. *)
Definition Unix (t : Time) : Z := wrap64 (internalSec t - unixToInternal).

(** [t.addSec(d)]: the sum of the seconds, or the largest or smallest
    count when the sum overflows. *)
Definition addSec (sec d : Z) : Z :=
  let sum := wrap64 (sec + d) in
  if Bool.eqb (sec <? sum) (0 <? d) then sum
  else if 0 <? d then 2 ^ 63 - 1
  else - (2 ^ 63 - 1).

(** [t.Add(d)] *)
Definition TimeAdd (t : Time) (d : Duration) : Time :=
  let dsec := Z.quot d 1000000000 in
  let nsec := nsecOf t + Z.rem d 1000000000 in
  if 1000000000 <=? nsec then
    mkTime (addSec (internalSec t) (dsec + 1)) (nsec - 1000000000)
  else if nsec <? 0 then
    mkTime (addSec (internalSec t) (dsec - 1)) (nsec + 1000000000)
  else mkTime (addSec (internalSec t) dsec) nsec.

(** [time.Unix(sec, nsec)] *)
Definition UnixTime (sec nsec : Z) : Time :=
  if (nsec <? 0) || (1000000000 <=? nsec) then
    let n := Z.quot nsec 1000000000 in
    let sec := wrap64 (sec + n) in
    let nsec := nsec - n * 1000000000 in
    if nsec <? 0 then
      mkTime (wrap64 (wrap64 (sec - 1) + unixToInternal)) (nsec + 1000000000)
    else mkTime (wrap64 (sec + unixToInternal)) nsec
  else mkTime (wrap64 (sec + unixToInternal)) nsec.

(** *** Methods of the record types *)

Definition Key (it : NodeItem) : slice :=
  match it with
  | ValueNodeItem _ keyBytes _ => keyBytes
  | FilterNodeItem keyBytes _ => keyBytes
  end.

Definition Value (it : NodeItem) : slice :=
  match it with
  | ValueNodeItem valueBytes _ _ => valueBytes
  | FilterNodeItem _ _ => NilSlice
  end.

Definition GetExpirationTime (it : NodeItem) : Z :=
  match it with
  | ValueNodeItem _ _ ts => ts
  | FilterNodeItem _ ts => ts
  end.

Definition SetExpirationTime (it : NodeItem) (expiration : Time) : NodeItem :=
  match it with
  | ValueNodeItem v key _ => ValueNodeItem v key (Unix expiration)
  | FilterNodeItem key _ => FilterNodeItem key (Unix expiration)
  end.

(** Following the pointer of a non-nil interface value; a pointer with
    no record behind it (a nil pointer in the interface) panics. *)
Definition deref (h : heap) (l : loc) : result NodeItem :=
  match items h !! l with
  | Some it => Ok it
  | None => Panic NilPointerDereference
  end.

(** The key bytes and the timestamp of a record the tree holds; the
    tree only ever holds records that were dereferenced on the way in. *)
Definition keyOf (h : heap) (l : loc) : list byte :=
  match items h !! l with
  | Some it => slice_bytes (arrays h) (Key it)
  | None => []
  end.

Definition tsOf (h : heap) (l : loc) : Z :=
  match items h !! l with
  | Some it => GetExpirationTime it
  | None => 0
  end.

(** [item.SetExpirationTime(ts)] through the pointer [l]. *)
Definition setExpiration (h : heap) (l : loc) (ts : Time) : heap :=
  {| arrays := arrays h;
     items := alter (fun it => SetExpirationTime it ts) l (items h) |}.

(** *** The index *)

Record ByteKeyBTree : Type := mkTree { tree : list loc }.

Definition NewByteKeyBTree : ByteKeyBTree := {| tree := [] |}.

(** [cloneBytes]: nil for an empty slice, a fresh array otherwise. *)
Definition cloneBytes (h : heap) (src : slice) : heap * slice :=
  if (slice_len src =? 0)%nat then (h, NilSlice)
  else
    ({| arrays := arrays h ++ [slice_bytes (arrays h) src];
        items := items h |},
     Slice (length (arrays h)) 0 (slice_len src)).

Definition UpsertAt (b : ByteKeyBTree) (h : heap) (item : Item) (ts : Time)
    : result (ByteKeyBTree * heap * bool) :=
  match item with
  | None => Ok (b, h, false)
  | Some l =>
      let! it := deref h l in
      if (slice_len (Key it) =? 0)%nat then Ok (b, h, false)
      else
        let h' := setExpiration h l ts in
        let '(tree', prev) := BTree.ReplaceOrInsert (keyOf h') l (tree b) in
        Ok ({| tree := tree' |}, h',
            match prev with None => true | Some _ => false end)
  end.

(** The loop body of [UpsertManyAt]; there is no nil check before
    [item.Key()]. *)
Fixpoint upsertLoop (t : list loc) (h : heap) (items : list Item)
    (at_ : Time) (added : Z) : result (list loc * heap * Z) :=
  match items with
  | [] => Ok (t, h, added)
  | item :: rest =>
      match item with
      | None => Panic NilPointerDereference
      | Some l =>
          let! it := deref h l in
          if (slice_len (Key it) =? 0)%nat then
            upsertLoop t h rest at_ added
          else
            let h' := setExpiration h l at_ in
            let '(t', prev) := BTree.ReplaceOrInsert (keyOf h') l t in
            upsertLoop t' h' rest at_
              (match prev with None => added + 1 | Some _ => added end)
      end
  end.

Definition UpsertManyAt (b : ByteKeyBTree) (h : heap) (items : list Item)
    (at_ : Time) : result (ByteKeyBTree * heap * Z) :=
  match items with
  | [] => Ok (b, h, 0)
  | _ =>
      let! r := upsertLoop (tree b) h items at_ 0 in
      let '(t', h', added) := r in
      Ok ({| tree := t' |}, h', added)
  end.

Definition Delete (b : ByteKeyBTree) (h : heap) (item : Item)
    : result (ByteKeyBTree * bool) :=
  match item with
  | None => Ok (b, false)
  | Some l =>
      let! it := deref h l in
      if (slice_len (Key it) =? 0)%nat then Ok (b, false)
      else
        let '(tree', d) := BTree.Delete (keyOf h) l (tree b) in
        Ok ({| tree := tree' |},
            match d with Some _ => true | None => false end)
  end.

(** The loop body of [DeleteMany]; no nil check here either. *)
Fixpoint deleteLoop (t : list loc) (h : heap) (items : list Item)
    (deleted : Z) : result (list loc * Z) :=
  match items with
  | [] => Ok (t, deleted)
  | item :: rest =>
      match item with
      | None => Panic NilPointerDereference
      | Some l =>
          let! it := deref h l in
          if (slice_len (Key it) =? 0)%nat then deleteLoop t h rest deleted
          else
            let '(t', d) := BTree.Delete (keyOf h) l t in
            deleteLoop t' h rest
              (match d with Some _ => deleted + 1 | None => deleted end)
      end
  end.

Definition DeleteMany (b : ByteKeyBTree) (h : heap) (items : list Item)
    : result (ByteKeyBTree * Z) :=
  match items with
  | [] => Ok (b, 0)
  | _ =>
      let! r := deleteLoop (tree b) h items 0 in
      Ok ({| tree := fst r |}, snd r)
  end.

Definition Has (b : ByteKeyBTree) (h : heap) (item : Item) : result bool :=
  match item with
  | None => Ok false
  | Some l =>
      let! it := deref h l in
      if (slice_len (Key it) =? 0)%nat then Ok false
      else
        Ok (match BTree.Get (keyOf h) l (tree b) with
            | Some _ => true
            | None => false
            end)
  end.

Definition GetNodeItem (b : ByteKeyBTree) (h : heap) (item : Item)
    : result (Item * bool) :=
  match item with
  | None => Ok (None, false)
  | Some l =>
      let! it := deref h l in
      if (slice_len (Key it) =? 0)%nat then Ok (None, false)
      else
        Ok (match BTree.Get (keyOf h) l (tree b) with
            | Some res => (Some res, true)
            | None => (None, false)
            end)
  end.

(** [GetLastWriteUnix] has no key check of its own: the record is first
    dereferenced by the tree's comparisons, which an empty tree does not
    make. *)
Definition GetLastWriteUnix (b : ByteKeyBTree) (h : heap) (item : Item)
    : result (Z * bool) :=
  match item with
  | None => Ok (0, false)
  | Some l =>
      match tree b with
      | [] => Ok (0, false)
      | _ :: _ =>
          let! it := deref h l in
          Ok (match BTree.Get (keyOf h) l (tree b) with
              | Some res => (tsOf h res, true)
              | None => (0, false)
              end)
      end
  end.

Definition Size (b : ByteKeyBTree) : Z := BTree.Len (tree b).

Definition Reset (b : ByteKeyBTree) : ByteKeyBTree := {| tree := [] |}.

(** *** [ForEach] and its callback

    The callback is client code.  What it can do to the key slices it
    is given is write bytes through them, now or in a later call if it
    kept them: a [write] names the call whose slice it goes through. *)

Record write : Type := mkWrite {
  w_call : nat;
  w_index : nat;
  w_byte : byte
}.

(** A callback sees its own state, the key slice with the bytes it
    holds, and the timestamp; it answers with its new state, the writes
    it performs and whether to go on. *)
Definition callback (S : Type) : Type :=
  S -> slice -> list byte -> Z -> S * list write * bool.

Inductive error : Type := NilCallback.

(** [seen[w_call][w_index] = w_byte], [seen] being the slices received. *)
Definition doWrite (seen : list slice) (arrs : list (list byte)) (w : write)
    : result (list (list byte)) :=
  match seen !! w_call w with
  | None => Panic IndexOutOfRange
  | Some s => slice_store arrs s (w_index w) (w_byte w)
  end.

Fixpoint doWrites (seen : list slice) (arrs : list (list byte))
    (ws : list write) : result (list (list byte)) :=
  match ws with
  | [] => Ok arrs
  | w :: ws' =>
      let! arrs' := doWrite seen arrs w in
      doWrites seen arrs' ws'
  end.

Definition forEachVisit {S : Type} (cb : callback S) (x : loc)
    (st : heap * S * list slice) : result (heap * S * list slice * bool) :=
  let '(h, sigma, seen) := st in
  let! it := deref h x in
  let '(h1, keyCopy) := cloneBytes h (Key it) in
  let '(sigma', ws, keepGoing) :=
    cb sigma keyCopy (slice_bytes (arrays h1) keyCopy) (GetExpirationTime it) in
  let seen' := seen ++ [keyCopy] in
  let! arrs' := doWrites seen' (arrays h1) ws in
  Ok ({| arrays := arrs'; items := items h1 |}, sigma', seen', keepGoing).

(** [ForEach] leaves the tree alone; it returns the heap after the
    callback's writes, the callback's state and the error. *)
Definition ForEach {S : Type} (b : ByteKeyBTree) (h : heap)
    (cb : option (callback S)) (sigma : S)
    : result (heap * S * option error) :=
  match cb with
  | None => Ok (h, sigma, Some NilCallback)
  | Some cb =>
      let! r := BTree.Ascend (forEachVisit cb) (tree b) (h, sigma, []) in
      let '(h', sigma', _) := r in
      Ok (h', sigma', None)
  end.

(** *** Expiry *)

(** [now.Add(-ttl).Unix()] *)
Definition cutoffUnix (now : Time) (ttl : Duration) : Z :=
  Unix (TimeAdd now (wrap64 (- ttl))).

(** The closure both scans pass to [Ascend]; [out] is the captured
    result slice and [max] the limit argument. *)
Definition expiredVisit (h : heap) (cutoff : Z) (max : Z) (x : loc)
    (out : list loc) : result (list loc * bool) :=
  if tsOf h x <=? cutoff then
    let out' := out ++ [x] in
    if (0 <? max) && (max <=? Z.of_nat (length out'))
    then Ok (out', false)
    else Ok (out', true)
  else Ok (out, true).

(** The deletion loop of [PurgeExpiredAt].  The scan and this loop take
    the lock separately; here the loop follows the scan directly. *)
Fixpoint purgeLoop (t : list loc) (h : heap) (itemsToDelete : list loc)
    (deleted : Z) : list loc * Z :=
  match itemsToDelete with
  | [] => (t, deleted)
  | item :: rest =>
      let '(t', d) := BTree.Delete (keyOf h) item t in
      purgeLoop t' h rest
        (match d with Some _ => deleted + 1 | None => deleted end)
  end.

Definition PurgeExpiredAt (b : ByteKeyBTree) (h : heap) (now : Time)
    (ttl : Duration) (maxToDelete : Z) : result (ByteKeyBTree * Z) :=
  if ttl <=? 0 then Ok (b, 0)
  else
    let cutoff := cutoffUnix now ttl in
    let! itemsToDelete :=
      BTree.Ascend (expiredVisit h cutoff maxToDelete) (tree b) [] in
    match itemsToDelete with
    | [] => Ok (b, 0)
    | _ =>
        let '(t', deleted) := purgeLoop (tree b) h itemsToDelete 0 in
        Ok ({| tree := t' |}, deleted)
    end.

(** [ListExpiredAt] returns [None] for the nil slice. *)
Definition ListExpiredAt (b : ByteKeyBTree) (h : heap) (now : Time)
    (ttl : Duration) (maxCount : Z) : result (option (list loc)) :=
  if ttl <=? 0 then Ok None
  else
    let cutoff := cutoffUnix now ttl in
    let! out := BTree.Ascend (expiredVisit h cutoff maxCount) (tree b) [] in
    Ok (Some out).

(** *** Invariant and vocabulary of the statements *)

Definition allocated (h : heap) (l : loc) : bool :=
  (l <? length (items h))%nat.

(** The tree holds allocated records in strictly ascending key order. *)
Definition wfb (b : ByteKeyBTree) (h : heap) : bool :=
  BTree.sortedb (keyOf h) (tree b) && forallb (allocated h) (tree b).
Definition wf (b : ByteKeyBTree) (h : heap) : Prop := wfb b h = true.

(** A record is eligible at [now] under [ttl]: the TTL is positive and
    the record's expiration is at or before the cutoff. *)
Definition eligible (h : heap) (now : Time) (ttl : Duration) (l : loc)
    : bool :=
  (0 <? ttl) && (tsOf h l <=? cutoffUnix now ttl).

(** A record that may be offered for insertion: allocated, non-empty key. *)
Definition insertable (h : heap) (l : loc) : bool :=
  match items h !! l with
  | Some it => negb (slice_len (Key it) =? 0)%nat
  | None => false
  end.

(** A slice lies within an allocated backing array. *)
Definition slice_ok (arrs : list (list byte)) (s : slice) : bool :=
  match s with
  | NilSlice => true
  | Slice a off n =>
      match arrs !! a with
      | Some arr => (off + n <=? length arr)%nat
      | None => false
      end
  end.

(** Memory safety of the heap: every record's key slice is valid. *)
Definition heap_ok (h : heap) : bool :=
  forallb (fun it => slice_ok (arrays h) (Key it)) (items h).

(** What a full traversal presents, in order: key bytes and timestamp. *)
Definition presented (b : ByteKeyBTree) (h : heap) : list (list byte * Z) :=
  map (fun l => (keyOf h l, tsOf h l)) (tree b).

(** A callback that records what it is shown and writes nothing. *)
Definition collect : callback (list (list byte * Z)) :=
  fun sigma _ bytes ts => (sigma ++ [(bytes, ts)], [], true).

(** A result list cut at a limit; zero or negative means no limit. *)
Definition limited (max : Z) (l : list loc) : list loc :=
  if 0 <? max then take (Z.to_nat max) l else l.

(** The tree without its first [n] records that satisfy [p]. *)
Fixpoint dropFirst (p : loc -> bool) (n : nat) (t : list loc) : list loc :=
  match t with
  | [] => []
  | x :: r =>
      if p x then
        match n with
        | O => x :: r
        | S n' => dropFirst p n' r
        end
      else x :: dropFirst p n r
  end.

(** Membership of a record pointer in a list of them. *)
Definition memb (x : loc) (l : list loc) : bool := existsb (Nat.eqb x) l.

(** A record's timestamp is at or before a cutoff. *)
Definition expiredb (h : heap) (cutoff : Z) (x : loc) : bool :=
  tsOf h x <=? cutoff.

(** The tree a purge leaves: without the first [m] expired records, or
    without any expired record when there is no limit. *)
Definition purged (h : heap) (cutoff m : Z) (t : list loc) : list loc :=
  if 0 <? m then dropFirst (expiredb h cutoff) (Z.to_nat m) t
  else List.filter (fun y => negb (expiredb h cutoff y)) t.

(** The part of the state [ForEach] cannot change: the records, and the
    backing arrays that existed when it was called. *)
Definition frame (h0 h : heap) : Prop :=
  items h = items h0
  /\ (length (arrays h0) <= length (arrays h))%nat
  /\ forall a, (a < length (arrays h0))%nat -> arrays h !! a = arrays h0 !! a.

(** A slice handed to the callback: nil or in an array allocated later. *)
Definition freshSlice (h0 : heap) (s : slice) : Prop :=
  match s with
  | NilSlice => True
  | Slice a _ _ => (length (arrays h0) <= a)%nat
  end.

End TtlBTree.

(** ** Scenarios of the index's tests *)

Module TtlTest.
Import TtlBTree.
(** Three filter records with keys "a", "b", "c", as the boundary test
    builds them: base = Unix(20000), ttl = 30s, and timestamps one second
    before the cutoff, at the cutoff and one second after it. *)
Definition base : Time := UnixTime 20000 0.
Definition ttl30 : Duration := 30 * Second.
(** A later moment, when all three records have expired. *)
Definition later : Time := UnixTime 20010 0.
Definition h3 : heap :=
  {| arrays := [[x61]; [x62]; [x63]];
     items := [FilterNodeItem (Slice 0 0 1) 19969;
               FilterNodeItem (Slice 1 0 1) 19970;
               FilterNodeItem (Slice 2 0 1) 19971] |}.
Definition recA : loc := 0%nat.
Definition recB : loc := 1%nat.
Definition recC : loc := 2%nat.
Definition b3 : ByteKeyBTree := {| tree := [recA; recB; recC] |}.
(** The same records before any of them was inserted. *)
Definition h0 : heap :=
  {| arrays := [[x61]; [x62]; [x63]];
     items := [FilterNodeItem (Slice 0 0 1) 0;
               FilterNodeItem (Slice 1 0 1) 0;
               FilterNodeItem (Slice 2 0 1) 0] |}.
(** Three distinct record objects with the same key "k1": two to be
    upserted and one to look the key up with. *)
Definition hk : heap :=
  {| arrays := [[x6b; x31]; [x6b; x31]; [x6b; x31]];
     items := [FilterNodeItem (Slice 0 0 2) 0;
               FilterNodeItem (Slice 1 0 2) 0;
               FilterNodeItem (Slice 2 0 2) 0] |}.
(** A callback that overwrites the first byte of every key it is shown
    with "z", remembers what it saw and goes on. *)
Definition scribble : callback (list (list byte)) :=
  fun sigma _ bytes _ =>
    (sigma ++ [bytes],
     [{| w_call := length sigma; w_index := 0; w_byte := x7a |}],
     true).
Definition first : loc := 0%nat.
Definition second : loc := 1%nat.
Definition lookup : loc := 2%nat.
End TtlTest.

(** ** Invariants of the append-log store *)

Module StorageInv.
Import Storage.

(** No two indexed entries share a slot of the backing sequence. *)
Definition separate (s : BTreeIndexedStorage) : Prop :=
  forall e1 e2, e1 ∈ tree s -> e2 ∈ tree s -> pos e1 = pos e2 -> e1 = e2.

(** A store the constructor and a run of operations have produced. *)
Definition reachable (s : BTreeIndexedStorage) : Prop :=
  exists degree capacity threshold batch os,
    run (NewBTreeIndexedStorage degree capacity threshold batch) os = Ok s.

(** The operations of the client in a run; the compactions are the
    store's own, started by [Delete] and run when the scheduler lets them. *)
Definition clientOps (os : list op) : list op :=
  List.filter (fun o => match o with OpCompact => false | _ => true end) os.

(** [Get] finds exactly the pairs of [m]. *)
Definition holds (s : BTreeIndexedStorage) (m : list (key * value)) : Prop :=
  (forall kv, kv ∈ m -> Get s (fst kv) = Ok (snd kv, true))
  /\ (forall idx, idx ∉ map fst m -> Get s idx = Ok (None, false)).

(** The counter of tombstones agrees with the slots no entry points at. *)
Definition counted (s : BTreeIndexedStorage) : Prop :=
  Len s <= Z.of_nat (length (storage s))
  /\ tombstones s = wrap64 (Z.of_nat (length (storage s)) - Len s).

End StorageInv.

(** ** Read-only callbacks of [ForEach] *)

Module TtlObservers.
Import TtlBTree.

(** A callback that only reads what it is shown: it answers with its new
    state and whether to go on, and writes nothing. *)
Definition reader {S : Type} (f : S -> list byte -> Z -> S * bool)
    : callback S :=
  fun sigma _ bytes ts =>
    let '(sigma', keepGoing) := f sigma bytes ts in (sigma', [], keepGoing).

(** The state such a callback ends in when it is shown a sequence of keys
    and timestamps in order, up to the first one it answers [false] to. *)
Fixpoint shown {S : Type} (f : S -> list byte -> Z -> S * bool) (sigma : S)
    (l : list (list byte * Z)) : S :=
  match l with
  | [] => sigma
  | (bytes, ts) :: r =>
      let '(sigma', keepGoing) := f sigma bytes ts in
      if keepGoing then shown f sigma' r else sigma'
  end.

End TtlObservers.

(** ** The TTL index over plain keys

    The first [ByteKeyBTree] of the package takes keys as byte slices and
    stores [nodeItem] values that hold a private copy of the key. *)

Module TtlKeys.

(** Keys are byte slices over the backing arrays of the program; this
    index has no record objects, so its memory is the arrays alone. *)
Abbreviation slice := TtlBTree.slice.
Abbreviation NilSlice := TtlBTree.NilSlice.
Abbreviation Slice := TtlBTree.Slice.
Abbreviation slice_len := TtlBTree.slice_len.
Abbreviation slice_bytes := TtlBTree.slice_bytes.
Abbreviation slice_ok := TtlBTree.slice_ok.
Abbreviation Time := Z.
Abbreviation Duration := Z.
Abbreviation memory := (list (list byte)).

(** [nodeItem] is stored in the tree by value. *)
Record nodeItem : Type := mkNodeItem {
  keyBytes : slice;
  timestampUnixSeconds : Z
}.

(** The bytes [Less] compares. *)
Definition keyOf (m : memory) (it : nodeItem) : list byte :=
  slice_bytes m (keyBytes it).

Record ByteKeyBTree : Type := mkIndex { tree : list nodeItem }.

Definition NewByteKeyBTree : ByteKeyBTree := {| tree := [] |}.

(** [cloneBytes]: nil for an empty slice, a fresh array otherwise. *)
Definition cloneBytes (m : memory) (src : slice) : memory * slice :=
  if (slice_len src =? 0)%nat then (m, NilSlice)
  else (m ++ [slice_bytes m src], Slice (length m) 0 (slice_len src)).

(** [nodeItem{keyBytes: key}], the probe of the lookups. *)
Definition probe (key : slice) : nodeItem :=
  {| keyBytes := key; timestampUnixSeconds := 0 |}.

Definition UpsertAt (b : ByteKeyBTree) (m : memory) (key : slice) (ts : Time)
    : ByteKeyBTree * memory * bool :=
  if (slice_len key =? 0)%nat then (b, m, false)
  else
    let '(m', keyCopy) := cloneBytes m key in
    let item := {| keyBytes := keyCopy;
                   timestampUnixSeconds := TtlBTree.Unix ts |} in
    let '(tree', prev) := BTree.ReplaceOrInsert (keyOf m') item (tree b) in
    ({| tree := tree' |}, m',
     match prev with None => true | Some _ => false end).

Fixpoint upsertLoop (t : list nodeItem) (m : memory) (keys : list slice)
    (sec : Z) (added : Z) : list nodeItem * memory * Z :=
  match keys with
  | [] => (t, m, added)
  | key :: rest =>
      if (slice_len key =? 0)%nat then upsertLoop t m rest sec added
      else
        let '(m', keyCopy) := cloneBytes m key in
        let item := {| keyBytes := keyCopy; timestampUnixSeconds := sec |} in
        let '(t', prev) := BTree.ReplaceOrInsert (keyOf m') item t in
        upsertLoop t' m' rest sec
          (match prev with None => added + 1 | Some _ => added end)
  end.

Definition UpsertManyAt (b : ByteKeyBTree) (m : memory) (keys : list slice)
    (at_ : Time) : ByteKeyBTree * memory * Z :=
  match keys with
  | [] => (b, m, 0)
  | _ =>
      let '(t', m', added) :=
        upsertLoop (tree b) m keys (TtlBTree.Unix at_) 0 in
      ({| tree := t' |}, m', added)
  end.

Definition Delete (b : ByteKeyBTree) (m : memory) (key : slice)
    : ByteKeyBTree * bool :=
  if (slice_len key =? 0)%nat then (b, false)
  else
    let '(tree', d) := BTree.Delete (keyOf m) (probe key) (tree b) in
    ({| tree := tree' |}, match d with Some _ => true | None => false end).

Fixpoint deleteLoop (t : list nodeItem) (m : memory) (keys : list slice)
    (deleted : Z) : list nodeItem * Z :=
  match keys with
  | [] => (t, deleted)
  | key :: rest =>
      if (slice_len key =? 0)%nat then deleteLoop t m rest deleted
      else
        let '(t', d) := BTree.Delete (keyOf m) (probe key) t in
        deleteLoop t' m rest
          (match d with Some _ => deleted + 1 | None => deleted end)
  end.

Definition DeleteMany (b : ByteKeyBTree) (m : memory) (keys : list slice)
    : ByteKeyBTree * Z :=
  match keys with
  | [] => (b, 0)
  | _ =>
      let '(t', deleted) := deleteLoop (tree b) m keys 0 in
      ({| tree := t' |}, deleted)
  end.

Definition Has (b : ByteKeyBTree) (m : memory) (key : slice) : bool :=
  if (slice_len key =? 0)%nat then false
  else
    match BTree.Get (keyOf m) (probe key) (tree b) with
    | Some _ => true
    | None => false
    end.

Definition GetLastWriteUnix (b : ByteKeyBTree) (m : memory) (key : slice)
    : Z * bool :=
  match BTree.Get (keyOf m) (probe key) (tree b) with
  | None => (0, false)
  | Some res => (timestampUnixSeconds res, true)
  end.

(** The closure [ForEach] passes to [Ascend]; the callback and its writes
    are those of the other index. *)
Definition forEachVisit {S : Type} (cb : TtlBTree.callback S) (x : nodeItem)
    (st : memory * S * list slice) : result (memory * S * list slice * bool) :=
  let '(m, sigma, seen) := st in
  let '(m1, keyCopy) := cloneBytes m (keyBytes x) in
  let '(sigma', ws, keepGoing) :=
    cb sigma keyCopy (slice_bytes m1 keyCopy) (timestampUnixSeconds x) in
  let seen' := seen ++ [keyCopy] in
  let! m' := TtlBTree.doWrites seen' m1 ws in
  Ok (m', sigma', seen', keepGoing).

Definition ForEach {S : Type} (b : ByteKeyBTree) (m : memory)
    (cb : option (TtlBTree.callback S)) (sigma : S)
    : result (memory * S * option TtlBTree.error) :=
  match cb with
  | None => Ok (m, sigma, Some TtlBTree.NilCallback)
  | Some cb =>
      let! r := BTree.Ascend (forEachVisit cb) (tree b) (m, sigma, []) in
      let '(m', sigma', _) := r in
      Ok (m', sigma', None)
  end.

Definition Size (b : ByteKeyBTree) : Z := BTree.Len (tree b).

Definition Reset (b : ByteKeyBTree) : ByteKeyBTree := {| tree := [] |}.

(** The closure both scans pass to [Ascend]: it appends a copy of the key
    of every item at or before the cutoff and stops at the limit. *)
Definition expiredVisit (cutoff : Z) (max : Z) (x : nodeItem)
    (st : memory * list slice) : result (memory * list slice * bool) :=
  let '(m, out) := st in
  if timestampUnixSeconds x <=? cutoff then
    let '(m', k) := cloneBytes m (keyBytes x) in
    let out' := out ++ [k] in
    if (0 <? max) && (max <=? Z.of_nat (length out'))
    then Ok (m', out', false)
    else Ok (m', out', true)
  else Ok (m, out, true).

Fixpoint purgeLoop (t : list nodeItem) (m : memory) (keysToDelete : list slice)
    (deleted : Z) : list nodeItem * Z :=
  match keysToDelete with
  | [] => (t, deleted)
  | key :: rest =>
      let '(t', d) := BTree.Delete (keyOf m) (probe key) t in
      purgeLoop t' m rest
        (match d with Some _ => deleted + 1 | None => deleted end)
  end.

Definition PurgeExpiredAt (b : ByteKeyBTree) (m : memory) (now : Time)
    (ttl : Duration) (maxToDelete : Z) : result (ByteKeyBTree * memory * Z) :=
  if ttl <=? 0 then Ok (b, m, 0)
  else
    let cutoff := TtlBTree.cutoffUnix now ttl in
    let! r := BTree.Ascend (expiredVisit cutoff maxToDelete) (tree b) (m, []) in
    let '(m', keysToDelete) := r in
    match keysToDelete with
    | [] => Ok (b, m', 0)
    | _ =>
        let '(t', deleted) := purgeLoop (tree b) m' keysToDelete 0 in
        Ok ({| tree := t' |}, m', deleted)
    end.

(** [ListExpiredAt] starts from [var out [][]byte]: the result is the nil
    slice, [None], unless a key was appended. *)
Definition ListExpiredAt (b : ByteKeyBTree) (m : memory) (now : Time)
    (ttl : Duration) (maxCount : Z) : result (memory * option (list slice)) :=
  if ttl <=? 0 then Ok (m, None)
  else
    let cutoff := TtlBTree.cutoffUnix now ttl in
    let! r := BTree.Ascend (expiredVisit cutoff maxCount) (tree b) (m, []) in
    let '(m', out) := r in
    match out with
    | [] => Ok (m', None)
    | _ => Ok (m', Some out)
    end.

(** *** Invariant and vocabulary of the statements *)

(** A stored key is a non-empty slice inside an allocated array. *)
Definition item_ok (m : memory) (it : nodeItem) : bool :=
  slice_ok m (keyBytes it) && negb (slice_len (keyBytes it) =? 0)%nat.

Definition wfb (b : ByteKeyBTree) (m : memory) : bool :=
  BTree.sortedb (keyOf m) (tree b) && forallb (item_ok m) (tree b).
Definition wf (b : ByteKeyBTree) (m : memory) : Prop := wfb b m = true.

(** No stored key lies in the array [a]: the array belongs to the client. *)
Definition foreign (b : ByteKeyBTree) (a : nat) : bool :=
  forallb (fun it =>
             match keyBytes it with
             | TtlBTree.Slice a' _ _ => negb (a' =? a)%nat
             | TtlBTree.NilSlice => true
             end) (tree b).

(** A slice in an array allocated after the memory [m] was taken. *)
Definition fresh (m : memory) (s : slice) : bool :=
  match s with
  | TtlBTree.Slice a _ _ => (length m <=? a)%nat
  | TtlBTree.NilSlice => false
  end.

(** What a full traversal presents, in order: key bytes and timestamp. *)
Definition presented (b : ByteKeyBTree) (m : memory) : list (list byte * Z) :=
  map (fun it => (keyOf m it, timestampUnixSeconds it)) (tree b).

Definition expired (cutoff : Z) (it : nodeItem) : bool :=
  timestampUnixSeconds it <=? cutoff.

(** The items a scan selects: those at or before the cutoff in key order,
    the first [max] of them when [max] is positive. *)
Definition firstExpired (cutoff max : Z) (t : list nodeItem) : list nodeItem :=
  if 0 <? max then take (Z.to_nat max) (List.filter (expired cutoff) t)
  else List.filter (expired cutoff) t.

End TtlKeys.

(** ** Scenarios of the plain-key index *)

Module TtlKeysTest.
Import TtlKeys.
(** The index holding "a" and "b" with timestamps 19969 and 19971, the
    client's key buffer "b" in array 2. *)
Definition m2 : memory := [[x61]; [x62]; [x62]].
Definition b2 : ByteKeyBTree :=
  {| tree := [ {| keyBytes := Slice 0 0 1; timestampUnixSeconds := 19969 |};
               {| keyBytes := Slice 1 0 1; timestampUnixSeconds := 19971 |} ] |}.
Definition buffer : slice := Slice 2 0 1.
End TtlKeysTest.

(** * Properties *)

(** ** Lists *)

Module ListFacts.

Lemma filter_ext_elem {X : Type} (p q : X -> bool) (l : list X) :
  (forall x, x ∈ l -> p x = q x) -> List.filter p l = List.filter q l.
Proof.
  induction l as [|x l IH]; [done|]. intros H. simpl.
  rewrite (H x) by (by left). rewrite IH; [done|]. intros y Hy. apply H. by right.
Qed.

Lemma length_filter_split {X : Type} (p : X -> bool) (l : list X) :
  (length (List.filter p l) + length (List.filter (fun x => negb (p x)) l)
   = length l)%nat.
Proof.
  induction l as [|x l IH]; [done|]. simpl. destruct (p x); simpl; lia.
Qed.

Lemma filter_filter_absorb {X : Type} (p q : X -> bool) (l : list X) :
  (forall x, x ∈ l -> p x = true -> q x = true) ->
  List.filter p (List.filter q l) = List.filter p l.
Proof.
  induction l as [|x l IH]; [done|]. intros H. simpl.
  assert (forall y, y ∈ l -> p y = true -> q y = true) as H'
    by (intros y Hy; apply H; by right).
  destruct (q x) eqn:Eq; simpl.
  - rewrite IH by done. done.
  - destruct (p x) eqn:Ep; [|by apply IH].
    rewrite (H x) in Eq; [done|by left|done].
Qed.

Lemma filter_filter_and {X : Type} (p q : X -> bool) (l : list X) :
  List.filter p (List.filter q l) = List.filter (fun x => q x && p x) l.
Proof.
  induction l as [|x l IH]; [done|]. simpl.
  destruct (q x); simpl; [|done]. destruct (p x); by rewrite IH.
Qed.

End ListFacts.

(** ** Byte-string order *)

Module BytesFacts.
Import Bytes.

Lemma to_N_inj (x y : byte) : Byte.to_N x = Byte.to_N y -> x = y.
Proof.
  intros E. pose proof (Byte.of_to_N x) as Hx.
  rewrite E, Byte.of_to_N in Hx. congruence.
Qed.

Lemma compare_refl a : compare a a = Eq.
Proof. induction a as [|x a IH]; simpl; [done|]. by rewrite N.compare_refl. Qed.

Lemma compare_eq a b : compare a b = Eq -> a = b.
Proof.
  revert b. induction a as [|x a IH]; intros [|y b]; simpl; try done.
  destruct (N.compare_spec (Byte.to_N x) (Byte.to_N y)) as [E| |]; try done.
  intros H. f_equal; [by apply to_N_inj | by apply IH].
Qed.

Lemma compare_antisym a b : compare b a = CompOpp (compare a b).
Proof.
  revert b. induction a as [|x a IH]; intros [|y b]; simpl; try done.
  rewrite (N.compare_antisym (Byte.to_N x) (Byte.to_N y)).
  destruct (Byte.to_N x ?= Byte.to_N y)%N; simpl; auto.
Qed.

Lemma compare_lt_trans a b c :
  compare a b = Lt -> compare b c = Lt -> compare a c = Lt.
Proof.
  revert b c. induction a as [|x a IH]; intros [|y b] [|z c]; simpl; try done.
  destruct (N.compare_spec (Byte.to_N x) (Byte.to_N y)) as [E|L|G]; try done;
  destruct (N.compare_spec (Byte.to_N y) (Byte.to_N z)) as [E'|L'|G']; try done;
  intros H1 H2.
  - rewrite E, E', N.compare_refl. eauto.
  - rewrite E. by apply N.compare_lt_iff in L' as ->.
  - rewrite <- E'. by apply N.compare_lt_iff in L as ->.
  - assert (Byte.to_N x < Byte.to_N z)%N as L2 by lia.
    by apply N.compare_lt_iff in L2 as ->.
Qed.

Lemma lt_spec a b : lt a b = true <-> compare a b = Lt.
Proof. unfold lt, Compare. destruct (compare a b); simpl; split; done. Qed.

Lemma eqb_spec a b : eqb a b = true <-> a = b.
Proof.
  unfold eqb, Compare. split.
  - destruct (compare a b) eqn:E; simpl; try done. intros _. by apply compare_eq.
  - intros ->. by rewrite compare_refl.
Qed.

Lemma lt_irrefl a : lt a a = false.
Proof. unfold lt, Compare. by rewrite compare_refl. Qed.

Lemma lt_trans a b c : lt a b = true -> lt b c = true -> lt a c = true.
Proof. rewrite !lt_spec. apply compare_lt_trans. Qed.

Lemma lt_asym a b : lt a b = true -> lt b a = false.
Proof.
  intros H. destruct (lt b a) eqn:E; [|done].
  pose proof (lt_trans _ _ _ H E) as C. by rewrite lt_irrefl in C.
Qed.

Lemma lt_total a b : lt a b = false -> lt b a = false -> a = b.
Proof.
  unfold lt, Compare. rewrite (compare_antisym a b).
  destruct (compare a b) eqn:E; simpl; try done.
  intros _ _. by apply compare_eq.
Qed.

Lemma lt_neq a b : lt a b = true -> a <> b.
Proof. intros H ->. by rewrite lt_irrefl in H. Qed.

End BytesFacts.

(** ** The ordered index *)

Module BTreeFacts.
Section Facts.
Context {A : Type}.
Variable key : A -> list byte.

Local Abbreviation Less := (BTree.Less key).
Local Abbreviation Get := (BTree.Get key).
Local Abbreviation ReplaceOrInsert := (BTree.ReplaceOrInsert key).
Local Abbreviation Delete := (BTree.Delete key).
Local Abbreviation sorted := (BTree.sorted key).
Local Abbreviation sortedb := (BTree.sortedb key).
Local Abbreviation keyeq := (BTree.keyeq key).

Lemma Less_lt x y : Less x y = Bytes.lt (key x) (key y).
Proof. reflexivity. Qed.

Lemma Less_irrefl x : Less x x = false.
Proof. apply BytesFacts.lt_irrefl. Qed.

Lemma Less_trans x y z : Less x y = true -> Less y z = true -> Less x z = true.
Proof. apply BytesFacts.lt_trans. Qed.

Lemma Less_asym x y : Less x y = true -> Less y x = false.
Proof. apply BytesFacts.lt_asym. Qed.

Lemma Less_total x y : Less x y = false -> Less y x = false -> key x = key y.
Proof. apply BytesFacts.lt_total. Qed.

Lemma Less_neq x y : Less x y = true -> key x <> key y.
Proof. apply BytesFacts.lt_neq. Qed.

Lemma Less_key_l x x' y : key x = key x' -> Less x y = Less x' y.
Proof. unfold BTree.Less. by intros ->. Qed.

Lemma Less_key_r x y y' : key y = key y' -> Less x y = Less x y'.
Proof. unfold BTree.Less. by intros ->. Qed.

Lemma keyeq_spec x y : keyeq x y = true <-> key x = key y.
Proof. apply BytesFacts.eqb_spec. Qed.

Lemma keyeq_false x y : keyeq x y = false <-> key x <> key y.
Proof.
  rewrite <- keyeq_spec. destruct (keyeq x y); split; congruence.
Qed.

(** *** Sortedness *)

Lemma sorted_nil : sorted [].
Proof. constructor. Qed.

Lemma sorted_cons_inv x t :
  sorted (x :: t) -> sorted t /\ Forall (fun y => Less x y = true) t.
Proof. apply StronglySorted_inv. Qed.

Lemma sorted_cons x t :
  sorted t -> Forall (fun y => Less x y = true) t -> sorted (x :: t).
Proof. intros. by constructor. Qed.

Lemma sortedb_sorted t : sortedb t = true -> sorted t.
Proof.
  induction t as [|x t IH]; [constructor|].
  destruct t as [|y t]; [intros _; repeat constructor|].
  change (Less x y && sortedb (y :: t) = true -> sorted (x :: y :: t)).
  rewrite andb_true_iff. intros [Hxy Hs].
  specialize (IH Hs). apply sorted_cons; [done|].
  apply sorted_cons_inv in IH as [_ Hall].
  constructor; [done|].
  eapply Forall_impl; [exact Hall|]. intros z Hz. by eapply Less_trans.
Qed.

Lemma sorted_sortedb t : sorted t -> sortedb t = true.
Proof.
  induction t as [|x t IH]; [done|]. intros Hs.
  apply sorted_cons_inv in Hs as [Hs Hall]. specialize (IH Hs).
  destruct t as [|y t]; [done|].
  change (Less x y && sortedb (y :: t) = true).
  apply Forall_cons in Hall as [-> _]. done.
Qed.

Lemma sorted_filter (p : A -> bool) t : sorted t -> sorted (List.filter p t).
Proof.
  induction t as [|x t IH]; [done|]. intros Hs.
  apply sorted_cons_inv in Hs as [Hs Hall]. simpl.
  destruct (p x); [|by apply IH].
  apply sorted_cons; [by apply IH|].
  rewrite Forall_forall in Hall |- *. intros y Hy.
  apply Hall. apply list_elem_of_In in Hy. apply filter_In in Hy as [Hy _].
  by apply list_elem_of_In.
Qed.

Lemma sorted_take n t : sorted t -> sorted (take n t).
Proof.
  revert n. induction t as [|x t IH]; intros [|n] Hs; simpl;
    try apply sorted_nil.
  apply sorted_cons_inv in Hs as [Hs Hall]. apply sorted_cons; [by apply IH|].
  rewrite Forall_forall in Hall |- *. intros y Hy. apply Hall.
  by apply (subseteq_take n t).
Qed.

Lemma sorted_app_inv t1 t2 :
  sorted (t1 ++ t2) ->
  sorted t1 /\ sorted t2 /\
  forall x y, x ∈ t1 -> y ∈ t2 -> Less x y = true.
Proof.
  induction t1 as [|a t1 IH]; simpl; intros Hs.
  - split; [constructor|]. split; [done|]. intros x y Hx. by apply elem_of_nil in Hx.
  - apply sorted_cons_inv in Hs as [Hs Hall].
    destruct (IH Hs) as (H1 & H2 & H3).
    rewrite Forall_app in Hall. destruct Hall as [Ha1 Ha2].
    split; [by apply sorted_cons|]. split; [done|].
    intros x y Hx Hy. apply elem_of_cons in Hx as [->|Hx].
    + rewrite Forall_forall in Ha2. by apply Ha2.
    + by apply H3.
Qed.

Lemma sorted_snoc t x :
  sorted t -> (forall y, y ∈ t -> Less y x = true) -> sorted (t ++ [x]).
Proof.
  induction t as [|a t IH]; simpl; intros Hs Hlt.
  - repeat constructor.
  - apply sorted_cons_inv in Hs as [Hs Hall]. apply sorted_cons.
    + apply IH; [done|]. intros y Hy. apply Hlt. by right.
    + rewrite Forall_app. split; [done|].
      constructor; [|constructor]. apply Hlt. by left.
Qed.

(** Distinct positions of a sorted tree hold distinct keys. *)
Lemma sorted_key_inj t x y :
  sorted t -> x ∈ t -> y ∈ t -> key x = key y -> x = y.
Proof.
  induction t as [|a t IH]; intros Hs Hx Hy E.
  - by apply elem_of_nil in Hx.
  - apply sorted_cons_inv in Hs as [Hs Hall]. rewrite Forall_forall in Hall.
    apply elem_of_cons in Hx as [->|Hx]; apply elem_of_cons in Hy as [->|Hy].
    + done.
    + exfalso. by apply (Less_neq _ _ (Hall _ Hy)).
    + exfalso. by apply (Less_neq _ _ (Hall _ Hx)).
    + by apply IH.
Qed.

Lemma sorted_NoDup t : sorted t -> NoDup t.
Proof.
  induction t as [|a t IH]; intros Hs; [constructor|].
  apply sorted_cons_inv in Hs as [Hs Hall]. rewrite Forall_forall in Hall.
  constructor; [|by apply IH].
  intros Ha. specialize (Hall _ Ha). by rewrite Less_irrefl in Hall.
Qed.

(** *** Lookup *)

Lemma Get_key x x' t : key x = key x' -> Get x t = Get x' t.
Proof.
  intros E. induction t as [|y t IH]; [done|]. simpl.
  rewrite (Less_key_r y x x' E), (Less_key_l x x' y E), IH. done.
Qed.

Lemma Get_Some x t y : Get x t = Some y -> y ∈ t /\ key y = key x.
Proof.
  induction t as [|a t IH]; [done|]. simpl.
  destruct (Less a x) eqn:E1.
  - intros H. destruct (IH H). split; [by right|done].
  - destruct (Less x a) eqn:E2; [done|]. intros [= ->].
    split; [by left|]. by apply Less_total.
Qed.

Lemma Get_elem x t y :
  sorted t -> y ∈ t -> key y = key x -> Get x t = Some y.
Proof.
  induction t as [|a t IH]; intros Hs Hy E.
  - by apply elem_of_nil in Hy.
  - apply sorted_cons_inv in Hs as [Hs Hall]. rewrite Forall_forall in Hall.
    simpl. apply elem_of_cons in Hy as [->|Hy].
    + rewrite (Less_key_r a x a), Less_irrefl by done.
      rewrite (Less_key_l x a a), Less_irrefl by done. done.
    + pose proof (Hall _ Hy) as Hlt.
      rewrite (Less_key_r a x y) by done. rewrite Hlt. by apply IH.
Qed.

Lemma Get_None x t : sorted t -> Get x t = None -> forall y, y ∈ t -> key y <> key x.
Proof.
  intros Hs HN y Hy E. by rewrite (Get_elem x t y Hs Hy E) in HN.
Qed.

Lemma Get_None_intro x t : (forall y, y ∈ t -> key y <> key x) -> Get x t = None.
Proof.
  intros H. destruct (Get x t) as [y|] eqn:E; [|done].
  apply Get_Some in E as [Hy E]. by destruct (H y Hy).
Qed.

Lemma Get_self x t : sorted t -> x ∈ t -> Get x t = Some x.
Proof. intros. by apply Get_elem. Qed.

(** *** Deletion *)

Lemma Delete_snd x t : snd (Delete x t) = Get x t.
Proof.
  induction t as [|a t IH]; [done|]. simpl.
  destruct (Less a x); [|by destruct (Less x a)].
  destruct (Delete x t). simpl in *. done.
Qed.

Lemma Delete_fst x t :
  sorted t -> fst (Delete x t) = List.filter (fun y => negb (keyeq y x)) t.
Proof.
  induction t as [|a t IH]; [done|]. intros Hs.
  apply sorted_cons_inv in Hs as [Hs Hall]. simpl.
  destruct (Less a x) eqn:E1.
  - assert (keyeq a x = false) as -> by (by apply keyeq_false, Less_neq).
    simpl. specialize (IH Hs). destruct (Delete x t). simpl in *. by f_equal.
  - assert (forall y, y ∈ t -> keyeq y x = false) as Hne.
    { intros y Hy. apply keyeq_false. rewrite Forall_forall in Hall.
      pose proof (Hall _ Hy) as Hay. intros E.
      rewrite (Less_key_r a y x E) in Hay. congruence. }
    assert (List.filter (fun y => negb (keyeq y x)) t = t) as Hid.
    { clear -Hne. induction t as [|b t IH]; [done|]. simpl.
      rewrite (Hne b) by (by left). simpl. f_equal. apply IH.
      intros y Hy. apply Hne. by right. }
    destruct (Less x a) eqn:E2; simpl.
    + assert (keyeq a x = false) as ->.
      { apply keyeq_false. intros E. by apply (Less_neq _ _ E2). }
      simpl. by rewrite Hid.
    + assert (keyeq a x = true) as -> by (by apply keyeq_spec, Less_total).
      simpl. by rewrite Hid.
Qed.

Lemma Delete_absent x t : Get x t = None -> fst (Delete x t) = t.
Proof.
  induction t as [|a t IH]; [done|]. simpl.
  destruct (Less a x).
  - intros H. specialize (IH H). destruct (Delete x t). simpl in *. by f_equal.
  - by destruct (Less x a).
Qed.

Lemma Delete_sorted x t : sorted t -> sorted (fst (Delete x t)).
Proof. intros Hs. rewrite Delete_fst by done. by apply sorted_filter. Qed.

Lemma elem_of_Delete x t y :
  sorted t -> y ∈ fst (Delete x t) <-> y ∈ t /\ key y <> key x.
Proof.
  intros Hs. rewrite Delete_fst by done.
  rewrite list_elem_of_In, filter_In, <- list_elem_of_In.
  rewrite negb_true_iff, keyeq_false. done.
Qed.

Lemma Get_Delete_eq x t : sorted t -> Get x (fst (Delete x t)) = None.
Proof.
  intros Hs. apply Get_None_intro. intros y Hy.
  by apply elem_of_Delete in Hy as [_ ?].
Qed.

Lemma Get_Delete_ne x z t :
  sorted t -> key z <> key x -> Get z (fst (Delete x t)) = Get z t.
Proof.
  intros Hs Hne. destruct (Get z t) as [y|] eqn:E.
  - apply Get_Some in E as [Hy E]. apply Get_elem; [by apply Delete_sorted| |done].
    apply elem_of_Delete; [done|]. split; [done|congruence].
  - apply Get_None_intro. intros y Hy.
    apply elem_of_Delete in Hy as [Hy _]; [|done]. by eapply Get_None.
Qed.

Lemma length_Delete_Some x t y :
  Get x t = Some y -> length t = S (length (fst (Delete x t))).
Proof.
  induction t as [|a t IH]; [done|]. simpl.
  destruct (Less a x).
  - intros H. specialize (IH H). destruct (Delete x t). simpl in *. by f_equal.
  - destruct (Less x a); [done|]. done.
Qed.

(** *** Insertion *)

Lemma ReplaceOrInsert_snd x t : snd (ReplaceOrInsert x t) = Get x t.
Proof.
  induction t as [|a t IH]; [done|]. simpl.
  destruct (Less a x); [|by destruct (Less x a)].
  destruct (ReplaceOrInsert x t). simpl in *. done.
Qed.

Lemma Get_ReplaceOrInsert_eq x t : Get x (fst (ReplaceOrInsert x t)) = Some x.
Proof.
  induction t as [|a t IH]; simpl.
  - by rewrite Less_irrefl.
  - destruct (Less a x) eqn:E1.
    + destruct (ReplaceOrInsert x t). simpl in *. by rewrite E1.
    + destruct (Less x a); simpl; by rewrite Less_irrefl.
Qed.

Lemma elem_of_ReplaceOrInsert x t y :
  sorted t ->
  y ∈ fst (ReplaceOrInsert x t) <-> y = x \/ (y ∈ t /\ key y <> key x).
Proof.
  induction t as [|a t IH]; intros Hs.
  - simpl. rewrite list_elem_of_singleton. split; [by left|].
    intros [->|[H _]]; [done|]. by apply elem_of_nil in H.
  - apply sorted_cons_inv in Hs as [Hs Hall]. rewrite Forall_forall in Hall.
    specialize (IH Hs). simpl.
    destruct (Less a x) eqn:E1.
    + destruct (ReplaceOrInsert x t) as [r prev]. simpl in *.
      rewrite !elem_of_cons, IH. split.
      * intros [->|[->|[Hy Hne]]]; [right|by left|right].
        -- split; [by left|]. by apply Less_neq.
        -- split; [by right|done].
      * intros [->|[[->|Hy] Hne]]; [right; by left|by left|].
        right; right. done.
    + assert (forall z, z ∈ t -> key z <> key x) as Hgt.
      { intros z Hz E. pose proof (Hall _ Hz) as Haz.
        rewrite (Less_key_r a z x E) in Haz. congruence. }
      destruct (Less x a) eqn:E2; simpl; rewrite !elem_of_cons.
      * split.
        -- intros [->|[->|Hy]]; [by left|right|right].
           ++ split; [by left|]. intros E. by apply (Less_neq _ _ E2).
           ++ split; [by right|]. by apply Hgt.
        -- intros [->|[[->|Hy] _]]; [by left|right; by left|right; by right].
      * split.
        -- intros [->|Hy]; [by left|right]. split; [by right|by apply Hgt].
        -- intros [->|[[->|Hy] Hne]]; [by left| |by right].
           destruct Hne. symmetry. by apply Less_total.
Qed.

Lemma ReplaceOrInsert_sorted x t : sorted t -> sorted (fst (ReplaceOrInsert x t)).
Proof.
  induction t as [|a t IH]; intros Hs.
  - simpl. apply sorted_cons; [apply sorted_nil|constructor].
  - pose proof Hs as Hs0.
    apply sorted_cons_inv in Hs as [Hs Hall]. specialize (IH Hs). simpl.
    destruct (Less a x) eqn:E1.
    + pose proof (elem_of_ReplaceOrInsert x t) as Hel.
      destruct (ReplaceOrInsert x t) as [r prev]. simpl in *.
      apply sorted_cons; [done|]. rewrite Forall_forall in Hall |- *.
      intros y Hy. apply Hel in Hy as [->|[Hy _]]; [done| |done]. by apply Hall.
    + destruct (Less x a) eqn:E2; simpl.
      * apply sorted_cons; [done|]. constructor; [done|].
        eapply Forall_impl; [exact Hall|]. intros z Hz. by eapply Less_trans.
      * apply sorted_cons; [done|].
        eapply Forall_impl; [exact Hall|]. intros z Hz.
        rewrite (Less_key_l x a z); [done|]. by apply Less_total.
Qed.

Lemma Get_ReplaceOrInsert_ne x z t :
  sorted t -> key z <> key x -> Get z (fst (ReplaceOrInsert x t)) = Get z t.
Proof.
  intros Hs Hne. destruct (Get z t) as [y|] eqn:E.
  - apply Get_Some in E as [Hy E].
    apply Get_elem; [by apply ReplaceOrInsert_sorted| |done].
    apply elem_of_ReplaceOrInsert; [done|]. right. split; [done|congruence].
  - apply Get_None_intro. intros y Hy.
    apply elem_of_ReplaceOrInsert in Hy; [|done].
    destruct Hy as [->|[Hy _]].
    + congruence.
    + by eapply Get_None.
Qed.

Lemma length_ReplaceOrInsert x t :
  length (fst (ReplaceOrInsert x t)) =
  match Get x t with
  | Some _ => length t
  | None => S (length t)
  end.
Proof.
  induction t as [|a t IH]; [done|]. simpl.
  destruct (Less a x).
  - destruct (ReplaceOrInsert x t). simpl in *. rewrite IH.
    by destruct (Get x t).
  - by destruct (Less x a).
Qed.

(** Inserting a key above all the others appends it. *)
Lemma ReplaceOrInsert_snoc x t :
  (forall y, y ∈ t -> Less y x = true) ->
  ReplaceOrInsert x t = (t ++ [x], None).
Proof.
  induction t as [|a t IH]; [done|]. intros H. simpl.
  rewrite (H a) by (by left). rewrite IH; [done|].
  intros y Hy. apply H. by right.
Qed.

(** Re-inserting the very item the tree holds changes nothing. *)
Lemma ReplaceOrInsert_same x t :
  sorted t -> x ∈ t -> ReplaceOrInsert x t = (t, Some x).
Proof.
  induction t as [|a t IH]; intros Hs Hx.
  - by apply elem_of_nil in Hx.
  - apply sorted_cons_inv in Hs as [Hs Hall]. rewrite Forall_forall in Hall.
    simpl. apply elem_of_cons in Hx as [->|Hx].
    + by rewrite Less_irrefl.
    + rewrite (Hall _ Hx). by rewrite IH.
Qed.

(** *** Operations only look at keys *)

Lemma Forall_sorted_key_ext (key' : A -> list byte) t :
  (forall y, y ∈ t -> key' y = key y) ->
  BTree.sortedb key' t = sortedb t.
Proof.
  induction t as [|a t IH]; [done|]. intros H.
  destruct t as [|b t]; [done|].
  change (BTree.Less key' a b && BTree.sortedb key' (b :: t)
          = Less a b && sortedb (b :: t)).
  rewrite IH by (intros y Hy; apply H; by right).
  unfold BTree.Less. rewrite (H a), (H b); [done| |].
  - right. by left.
  - by left.
Qed.

End Facts.

Section KeyExt.
Context {A : Type}.
Variables key key' : A -> list byte.

Lemma Get_key_ext x t :
  key' x = key x -> (forall y, y ∈ t -> key' y = key y) ->
  BTree.Get key' x t = BTree.Get key x t.
Proof.
  intros Hx. induction t as [|a t IH]; [done|]. intros H. simpl.
  unfold BTree.Less. rewrite Hx, (H a) by (by left).
  rewrite IH; [done|]. intros y Hy. apply H. by right.
Qed.

Lemma Delete_key_ext x t :
  key' x = key x -> (forall y, y ∈ t -> key' y = key y) ->
  BTree.Delete key' x t = BTree.Delete key x t.
Proof.
  intros Hx. induction t as [|a t IH]; [done|]. intros H. simpl.
  unfold BTree.Less. rewrite Hx, (H a) by (by left).
  rewrite IH; [done|]. intros y Hy. apply H. by right.
Qed.

Lemma ReplaceOrInsert_key_ext x t :
  key' x = key x -> (forall y, y ∈ t -> key' y = key y) ->
  BTree.ReplaceOrInsert key' x t = BTree.ReplaceOrInsert key x t.
Proof.
  intros Hx. induction t as [|a t IH]; [done|]. intros H. simpl.
  unfold BTree.Less. rewrite Hx, (H a) by (by left).
  rewrite IH; [done|]. intros y Hy. apply H. by right.
Qed.

End KeyExt.

Lemma Ascend_cons {A S : Type} (visit : A -> S -> result (S * bool)) y r s :
  BTree.Ascend visit (y :: r) s =
  bind (visit y s) (fun sc =>
    let '(s', continue) := sc in
    if continue then BTree.Ascend visit r s' else Ok s').
Proof. reflexivity. Qed.

End BTreeFacts.

(** ** The append-log store *)

Module StorageFacts.
Import Storage.

Local Abbreviation sorted := (BTree.sorted k).

Lemma wf_sorted s : wf s -> sorted (tree s).
Proof.
  unfold wf, wfb. rewrite andb_true_iff. intros [H _].
  by apply BTreeFacts.sortedb_sorted.
Qed.

Lemma wf_pos s e : wf s -> e ∈ tree s -> (pos e < length (storage s))%nat.
Proof.
  unfold wf, wfb. rewrite andb_true_iff, forallb_forall. intros [_ H] He.
  apply list_elem_of_In in He. specialize (H _ He). by apply Nat.ltb_lt in H.
Qed.

Lemma wf_intro s :
  sorted (tree s) ->
  (forall e, e ∈ tree s -> (pos e < length (storage s))%nat) ->
  wf s.
Proof.
  intros Hs Hp. unfold wf, wfb. rewrite andb_true_iff, forallb_forall.
  split; [by apply BTreeFacts.sorted_sortedb|].
  intros e He. apply Nat.ltb_lt, Hp. by apply list_elem_of_In.
Qed.

Lemma wf_New d c th b : wf (NewBTreeIndexedStorage d c th b).
Proof. reflexivity. Qed.

(** *** [Add] and [Get] *)

Lemma Get_found s index v :
  Get s index = Ok (v, true) ->
  exists e, BTree.Get k (probe index) (tree s) = Some e
            /\ storage s !! pos e = Some v.
Proof.
  unfold Get. destruct (BTree.Get k (probe index) (tree s)) as [e|]; [|done].
  destruct (storage s !! pos e) as [w|] eqn:E; [|done].
  intros [= ->]. eauto.
Qed.

Lemma Get_absent s index v :
  Get s index = Ok (v, false) ->
  BTree.Get k (probe index) (tree s) = None /\ v = None.
Proof.
  unfold Get. destruct (BTree.Get k (probe index) (tree s)) as [e|].
  - by destruct (storage s !! pos e).
  - by intros [= <-].
Qed.

Lemma Add_present s index v e :
  BTree.Get k (probe index) (tree s) = Some e -> Add s index v = s.
Proof. unfold Add. by intros ->. Qed.

Lemma Get_Add_fresh s index v :
  BTree.Get k (probe index) (tree s) = None ->
  Get (Add s index v) index = Ok (v, true).
Proof.
  intros HN. unfold Add, Get. rewrite HN. simpl.
  rewrite (BTreeFacts.Get_key k (probe index) {| k := index; pos := length (storage s) |})
    by done.
  rewrite BTreeFacts.Get_ReplaceOrInsert_eq. simpl.
  by rewrite list_lookup_middle.
Qed.

Lemma wf_Add s index v : wf s -> wf (Add s index v).
Proof.
  intros Hwf. unfold Add.
  destruct (BTree.Get k (probe index) (tree s)) eqn:E; [done|].
  apply wf_intro; simpl.
  - apply BTreeFacts.ReplaceOrInsert_sorted. by apply wf_sorted.
  - intros e He. rewrite length_app. simpl.
    apply BTreeFacts.elem_of_ReplaceOrInsert in He; [|by apply wf_sorted].
    destruct He as [->|[He _]]; simpl; [lia|].
    pose proof (wf_pos _ _ Hwf He). lia.
Qed.

Lemma Len_Add_fresh s index v :
  BTree.Get k (probe index) (tree s) = None ->
  Len (Add s index v) = Len s + 1.
Proof.
  intros HN. unfold Add, Len, BTree.Len. rewrite HN. simpl.
  rewrite BTreeFacts.length_ReplaceOrInsert.
  rewrite (BTreeFacts.Get_key k _ (probe index)) by done.
  rewrite HN. lia.
Qed.

(** *** [CompactIncremental] *)

Lemma slot_lookup (st : list value) e v : st !! pos e = Some v -> slot st e = v.
Proof. unfold slot. by intros ->. Qed.

Lemma renumber_keys n es : map k (renumber n es) = map k es.
Proof. revert n. induction es as [|e es IH]; intros n; simpl; [done|]. by rewrite IH. Qed.

Lemma renumber_app n es1 es2 :
  renumber n (es1 ++ es2) = renumber n es1 ++ renumber (n + length es1) es2.
Proof.
  revert n. induction es1 as [|e es1 IH]; intros n; simpl.
  - by rewrite Nat.add_0_r.
  - rewrite IH. do 3 f_equal. lia.
Qed.

Lemma length_renumber n es : length (renumber n es) = length es.
Proof. revert n. induction es as [|e es IH]; intros n; simpl; [done|]. by rewrite IH. Qed.

Lemma elem_of_renumber n es e' :
  e' ∈ renumber n es ->
  (exists e, e ∈ es /\ k e' = k e) /\ (n <= pos e' < n + length es)%nat.
Proof.
  revert n. induction es as [|e es IH]; intros n; simpl.
  - intros H. by apply elem_of_nil in H.
  - intros H. apply elem_of_cons in H as [->|H]; simpl.
    + split; [|lia]. exists e. split; [by left|done].
    + apply IH in H as [(e0 & He0 & Hk) Hp]. split; [|lia].
      exists e0. split; [by right|done].
Qed.

(** One visit of the compaction closure. *)
Lemma compactVisit_step s e ns nt c :
  (pos e < length (storage s))%nat ->
  (forall x, x ∈ nt -> BTree.Less k x e = true) ->
  compactVisit s e (ns, nt, c) =
  Ok (ns ++ map (slot (storage s)) (List.filter (live (storage s)) [e]),
      nt ++ renumber (length ns) (List.filter (live (storage s)) [e]),
      c + 1,
      negb ((0 <? batchSize s) && (batchSize s <=? c + 1))).
Proof.
  intros Hpos Hlt. unfold compactVisit.
  destruct (lookup_lt_is_Some_2 _ _ Hpos) as [val Hval]. rewrite Hval.
  simpl. unfold live. rewrite (slot_lookup _ _ _ Hval).
  destruct val as [v|]; simpl.
  - rewrite BTreeFacts.ReplaceOrInsert_snoc by done. simpl.
    rewrite (slot_lookup _ _ _ Hval).
    by destruct ((0 <? batchSize s) && (batchSize s <=? c + 1)).
  - rewrite !app_nil_r.
    by destruct ((0 <? batchSize s) && (batchSize s <=? c + 1)).
Qed.

Lemma Ascend_compactVisit s l : forall ns nt c,
  (batchSize s <= 0 \/ c < batchSize s) ->
  (forall e, e ∈ l -> (pos e < length (storage s))%nat) ->
  sorted l ->
  (forall x e, x ∈ nt -> e ∈ l -> BTree.Less k x e = true) ->
  let vis := if 0 <? batchSize s then take (Z.to_nat (batchSize s - c)) l else l in
  let ls := List.filter (live (storage s)) vis in
  BTree.Ascend (compactVisit s) l (ns, nt, c) =
  Ok (ns ++ map (slot (storage s)) ls, nt ++ renumber (length ns) ls,
      c + Z.of_nat (length vis)).
Proof.
  induction l as [|e l IH]; intros ns nt c Hc Hpos Hs Hlt vis ls.
  - subst ls vis. rewrite take_nil. simpl.
    destruct (0 <? batchSize s); simpl; rewrite !app_nil_r; do 3 f_equal; lia.
  - rewrite BTreeFacts.Ascend_cons, compactVisit_step; [| apply Hpos; by left | intros x Hx; apply Hlt; [done|by left]].
    cbn [bind]. apply BTreeFacts.sorted_cons_inv in Hs as [Hs Hall].
    rewrite Forall_forall in Hall.
    set (ls1 := List.filter (live (storage s)) [e]).
    assert (Hnext : forall x e2, x ∈ nt ++ renumber (length ns) ls1 -> e2 ∈ l ->
               BTree.Less k x e2 = true).
    { intros x e2 Hx He2. apply elem_of_app in Hx as [Hx|Hx].
      - apply Hlt; [done|by right].
      - apply elem_of_renumber in Hx as [(e0 & He0 & Hk) _].
        subst ls1. apply list_elem_of_In, filter_In in He0 as [He0 _].
        destruct He0 as [<-|[]].
        rewrite (BTreeFacts.Less_key_l k x e e2 Hk). by apply Hall. }
    destruct (0 <? batchSize s) eqn:Hb; cbn zeta in *.
    + apply Z.ltb_lt in Hb. destruct Hc as [Hc|Hc]; [lia|].
      destruct (batchSize s <=? c + 1) eqn:Hstop; cbn [andb negb].
      * apply Z.leb_le in Hstop. assert (batchSize s = c + 1) as Heq by lia.
        subst vis ls. replace (Z.to_nat (batchSize s - c)) with 1%nat by lia.
        change (take 1 (e :: l)) with [e]. reflexivity.
      * apply Z.leb_gt in Hstop.
        rewrite IH; [| right; lia | intros; apply Hpos; by right | done | done].
        subst vis ls.
        replace (Z.to_nat (batchSize s - c))
          with (S (Z.to_nat (batchSize s - (c + 1)))) by lia.
        rewrite firstn_cons.
        change (e :: ?t) with ([e] ++ t). rewrite List.filter_app. fold ls1.
        rewrite map_app, <- !app_assoc, !length_app, length_map.
        f_equal. f_equal; [f_equal|].
        -- by rewrite renumber_app.
        -- simpl. lia.
    + cbn [andb negb].
      rewrite IH; [| left; lia | intros; apply Hpos; by right | done | done].
        subst vis ls.
        change (e :: ?t) with ([e] ++ t). rewrite List.filter_app. fold ls1.
        rewrite map_app, <- !app_assoc, !length_app, length_map.
        f_equal. f_equal; [f_equal|].
        -- by rewrite renumber_app.
        -- simpl. lia.
Qed.

Lemma scanned_sub b (l : list entry) e : e ∈ scanned b l -> e ∈ l.
Proof.
  unfold scanned. destruct (0 <? b); [|done]. apply subseteq_take.
Qed.

Lemma scanned_all b (l : list entry) :
  b <= 0 \/ BTree.Len l <= b -> scanned b l = l.
Proof.
  unfold scanned, BTree.Len. intros H.
  destruct (0 <? b) eqn:E; [|done]. apply Z.ltb_lt in E.
  apply take_ge. lia.
Qed.

Lemma CompactIncremental_spec s :
  wf s ->
  CompactIncremental s =
  Ok {| tree := snd (rebuild (storage s) (scanned (batchSize s) (tree s)));
        storage := fst (rebuild (storage s) (scanned (batchSize s) (tree s)));
        tombstones := 0;
        threshold := threshold s; degree := degree s;
        batchSize := batchSize s |}.
Proof.
  intros Hwf. unfold CompactIncremental.
  rewrite Ascend_compactVisit.
  - cbn [bind]. rewrite Z.sub_0_r. unfold rebuild, scanned. simpl.
    by destruct ((_ <? batchSize s) || (batchSize s =? 0)).
  - lia.
  - intros e He. by apply wf_pos.
  - by apply wf_sorted.
  - intros x e Hx. by apply elem_of_nil in Hx.
Qed.

Lemma sorted_renumber n es : sorted es -> sorted (renumber n es).
Proof.
  revert n. induction es as [|e es IH]; intros n Hs; [apply BTreeFacts.sorted_nil|].
  apply BTreeFacts.sorted_cons_inv in Hs as [Hs Hall].
  rewrite Forall_forall in Hall. simpl.
  apply BTreeFacts.sorted_cons; [by apply IH|].
  rewrite Forall_forall. intros x Hx.
  apply elem_of_renumber in Hx as [(e0 & He0 & Hk) _].
  rewrite (BTreeFacts.Less_key_r k _ x e0 Hk). by apply Hall.
Qed.

Lemma elem_of_rebuild (st : list value) es e' :
  e' ∈ snd (rebuild st es) ->
  (exists e, e ∈ es /\ live st e = true /\ k e' = k e)
  /\ (pos e' < length (fst (rebuild st es)))%nat.
Proof.
  unfold rebuild. simpl. intros H.
  apply elem_of_renumber in H as [(e & He & Hk) Hp].
  apply list_elem_of_In, filter_In in He as [He Hl].
  split.
  - exists e. by rewrite list_elem_of_In.
  - rewrite length_map. lia.
Qed.

Lemma wf_CompactIncremental s s' :
  wf s -> CompactIncremental s = Ok s' -> wf s'.
Proof.
  intros Hwf. rewrite CompactIncremental_spec by done. intros [= <-].
  apply wf_intro; simpl.
  - apply sorted_renumber, BTreeFacts.sorted_filter.
    unfold scanned. destruct (0 <? batchSize s).
    + apply BTreeFacts.sorted_take. by apply wf_sorted.
    + by apply wf_sorted.
  - intros e He.
    by apply (elem_of_rebuild (storage s) (scanned (batchSize s) (tree s))) in He as [_ ?].
Qed.

(** A key none of the visited live entries carries is absent afterwards. *)
Lemma Get_rebuild_absent s s' index :
  wf s -> CompactIncremental s = Ok s' ->
  (forall e, e ∈ scanned (batchSize s) (tree s) -> live (storage s) e = true ->
             k e <> index) ->
  Get s' index = Ok (None, false).
Proof.
  intros Hwf. rewrite CompactIncremental_spec by done. intros [= <-] Habs.
  unfold Get. simpl. rewrite BTreeFacts.Get_None_intro; [done|].
  intros y Hy.
  apply (elem_of_renumber 0) in Hy as [(e & He & Hk) _].
  apply list_elem_of_In, filter_In in He as [He Hl].
  rewrite Hk. simpl. apply Habs; [by apply list_elem_of_In|done].
Qed.

Lemma Len_CompactIncremental s s' :
  wf s -> CompactIncremental s = Ok s' ->
  Len s' = Z.of_nat (length (List.filter (live (storage s))
                               (scanned (batchSize s) (tree s)))).
Proof.
  intros Hwf. rewrite CompactIncremental_spec by done. intros [= <-].
  unfold Len, BTree.Len. simpl. by rewrite length_renumber.
Qed.

(** *** [Delete] *)

Lemma Delete_present s index e :
  wf s -> BTree.Get k (probe index) (tree s) = Some e ->
  exists fl,
    Delete s index =
    Ok ({| tree := fst (BTree.Delete k (probe index) (tree s));
           storage := <[pos e := None]> (storage s);
           tombstones := wrap64 (tombstones s + 1);
           threshold := threshold s; degree := degree s;
           batchSize := batchSize s |}, fl).
Proof.
  intros Hwf HG. unfold Delete.
  pose proof (BTreeFacts.Delete_snd k (probe index) (tree s)) as Hsnd.
  destruct (BTree.Delete k (probe index) (tree s)) as [t' d]. simpl in *.
  rewrite Hsnd, HG.
  apply BTreeFacts.Get_Some in HG as [He _].
  pose proof (wf_pos _ _ Hwf He) as Hp. apply Nat.ltb_lt in Hp. rewrite Hp.
  eauto.
Qed.

Lemma Delete_missing_key s index :
  BTree.Get k (probe index) (tree s) = None -> Delete s index = Ok (s, false).
Proof.
  intros HG. unfold Delete.
  pose proof (BTreeFacts.Delete_snd k (probe index) (tree s)) as Hsnd.
  pose proof (BTreeFacts.Delete_absent k (probe index) (tree s) HG) as Hfst.
  destruct (BTree.Delete k (probe index) (tree s)) as [t' d]. simpl in *.
  rewrite Hsnd, HG, Hfst. by destruct s.
Qed.

Lemma wf_Delete s index s' fl :
  wf s -> Delete s index = Ok (s', fl) -> wf s'.
Proof.
  intros Hwf. destruct (BTree.Get k (probe index) (tree s)) as [e|] eqn:HG.
  - destruct (Delete_present s index e Hwf HG) as [fl' ->]. intros [= <- _].
    apply wf_intro; simpl.
    + apply BTreeFacts.Delete_sorted. by apply wf_sorted.
    + intros x Hx. rewrite length_insert.
      apply BTreeFacts.elem_of_Delete in Hx as [Hx _]; [|by apply wf_sorted].
      by apply wf_pos.
  - rewrite Delete_missing_key by done. by intros [= <- _].
Qed.

Lemma Get_Delete s index s' fl :
  wf s -> Delete s index = Ok (s', fl) -> Get s' index = Ok (None, false).
Proof.
  intros Hwf. destruct (BTree.Get k (probe index) (tree s)) as [e|] eqn:HG.
  - destruct (Delete_present s index e Hwf HG) as [fl' ->]. intros [= <- _].
    unfold Get. simpl. rewrite BTreeFacts.Get_Delete_eq; [done|by apply wf_sorted].
  - rewrite Delete_missing_key by done. intros [= <- _]. unfold Get. by rewrite HG.
Qed.

Lemma Len_Delete_present s index e s' fl :
  wf s -> BTree.Get k (probe index) (tree s) = Some e ->
  Delete s index = Ok (s', fl) -> Len s' = Len s - 1.
Proof.
  intros Hwf HG. destruct (Delete_present s index e Hwf HG) as [fl' ->].
  intros [= <- _]. unfold Len, BTree.Len. simpl.
  rewrite (BTreeFacts.length_Delete_Some k _ _ _ HG). lia.
Qed.

(** Clearing a slot that is already nil changes no entry's slot. *)
Lemma slot_insert_nil (st : list value) p e :
  st !! p = Some None -> slot (<[p := None]> st) e = slot st e.
Proof.
  intros Hp. unfold slot. destruct (decide (pos e = p)) as [->|Hne].
  - rewrite list_lookup_insert_eq by (by eapply lookup_lt_Some). by rewrite Hp.
  - by rewrite list_lookup_insert_ne.
Qed.

(** C7: for a key already present, a second [Add] is a no-op: the store
    (backing sequence, index, hence [Len]) is unchanged and [Get] still
    returns the value it returned before, which is the value of the [Add]
    that created the entry (first-writer-wins). *)
Theorem Add_first_writer_wins s index v v2 :
  Get s index = Ok (v, true) ->
  Add s index v2 = s
  /\ storage (Add s index v2) = storage s
  /\ tree (Add s index v2) = tree s
  /\ Len (Add s index v2) = Len s
  /\ Get (Add s index v2) index = Ok (v, true)
  /\ (forall s0 v1,
        Get s0 index = Ok (None, false) -> s = Add s0 index v1 -> v = v1).
Proof.
  intros HG. destruct (Get_found _ _ _ HG) as (e & He & _).
  rewrite (Add_present s index v2 e He).
  split; [done|]. split; [done|]. split; [done|]. split; [done|].
  split; [done|].
  intros s0 v1 Habs ->. destruct (Get_absent _ _ _ Habs) as [HN _].
  rewrite (Get_Add_fresh s0 index v1 HN) in HG. congruence.
Qed.

(** The scenario of the spec: [Add(k1,"foo")], [Add(k1,"bar")] leaves
    [Get(k1) == "foo"]. *)
Lemma Add_first_writer_wins_witness :
  let s1 := Add (NewBTreeIndexedStorage 16 10 StorageTest.threshold30 100)
              StorageTest.k1 StorageTest.foo in
  Get s1 StorageTest.k1 = Ok (StorageTest.foo, true)
  /\ Add s1 StorageTest.k1 StorageTest.bar = s1
  /\ Get (Add s1 StorageTest.k1 StorageTest.bar) StorageTest.k1
     = Ok (StorageTest.foo, true).
Proof.
  intros s1.
  assert (H : Get s1 StorageTest.k1 = Ok (StorageTest.foo, true)) by reflexivity.
  split; [exact H|].
  destruct (Add_first_writer_wins s1 StorageTest.k1 StorageTest.foo
              StorageTest.bar H) as (Hsame & _ & _ & _ & HGet & _).
  split; [exact Hsame|exact HGet].
Defined.

(** C1: with [0 < batchSize < Len], [CompactIncremental] replaces the
    backing sequence and the index by what it built from the first
    [batchSize] entries in ascending key order, resets the tombstone
    counter, and every entry beyond them, found before, is not found
    afterwards. *)
Theorem CompactIncremental_keeps_first_batch_only s :
  wf s -> 0 < batchSize s -> batchSize s < Len s ->
  exists s',
    CompactIncremental s = Ok s'
    /\ (storage s', tree s')
       = rebuild (storage s) (take (Z.to_nat (batchSize s)) (tree s))
    /\ tombstones s' = 0
    /\ drop (Z.to_nat (batchSize s)) (tree s) <> []
    /\ (forall e, e ∈ drop (Z.to_nat (batchSize s)) (tree s) ->
          Get s (k e) = Ok (slot (storage s) e, true)
          /\ Get s' (k e) = Ok (None, false))
    /\ Len s' <= batchSize s.
Proof.
  intros Hwf Hb HLen. pose proof (CompactIncremental_spec s Hwf) as Hspec.
  eexists. split; [exact Hspec|].
  assert (Hsc : scanned (batchSize s) (tree s)
                = take (Z.to_nat (batchSize s)) (tree s)).
  { unfold scanned. by apply Z.ltb_lt in Hb as ->. }
  pose proof (wf_sorted s Hwf) as Hs.
  rewrite <- (take_drop (Z.to_nat (batchSize s)) (tree s)) in Hs.
  apply BTreeFacts.sorted_app_inv in Hs as (_ & _ & Hlt).
  unfold Len, BTree.Len in HLen.
  split; [|split; [done|split; [|split]]].
  - simpl. rewrite Hsc. by destruct (rebuild _ _).
  - intros Hnil. apply (f_equal length) in Hnil.
    rewrite length_drop in Hnil. simpl in Hnil. lia.
  - intros e He.
    assert (e ∈ tree s) as Hin.
    { rewrite <- (take_drop (Z.to_nat (batchSize s)) (tree s)).
      apply elem_of_app. by right. }
    split.
    + unfold Get.
      rewrite (BTreeFacts.Get_elem k (probe (k e)) (tree s) e);
        [|by apply wf_sorted|done|done].
      destruct (lookup_lt_is_Some_2 _ _ (wf_pos s e Hwf Hin)) as [v Hv].
      rewrite Hv. by rewrite (slot_lookup _ _ _ Hv).
    + apply (Get_rebuild_absent s _ (k e) Hwf Hspec).
      intros x Hx _ E. rewrite Hsc in Hx.
      by apply (BTreeFacts.Less_neq k x e (Hlt x e Hx He)).
  - rewrite (Len_CompactIncremental s _ Hwf Hspec), Hsc.
    pose proof (ListFacts.length_filter_split (live (storage s))
                  (take (Z.to_nat (batchSize s)) (tree s))) as Hf.
    rewrite length_take in Hf. lia.
Qed.

Lemma CompactIncremental_keeps_first_batch_only_witness :
  exists s',
    CompactIncremental (StorageTest.three 1) = Ok s'
    /\ (storage s', tree s')
       = rebuild (storage (StorageTest.three 1))
           (take (Z.to_nat (batchSize (StorageTest.three 1)))
              (tree (StorageTest.three 1)))
    /\ tombstones s' = 0
    /\ drop (Z.to_nat (batchSize (StorageTest.three 1)))
         (tree (StorageTest.three 1)) <> []
    /\ (forall e, e ∈ drop (Z.to_nat (batchSize (StorageTest.three 1)))
                      (tree (StorageTest.three 1)) ->
          Get (StorageTest.three 1) (k e)
          = Ok (slot (storage (StorageTest.three 1)) e, true)
          /\ Get s' (k e) = Ok (None, false))
    /\ Len s' <= batchSize (StorageTest.three 1).
Proof.
  apply (CompactIncremental_keeps_first_batch_only (StorageTest.three 1));
    reflexivity.
Defined.

(** A key whose entry points at a nil value is found by [Get] with a nil
    value; a compaction that covers all entries drops it exactly as it
    drops a tombstone. *)
Lemma nil_slot_dropped_by_complete_scan s index :
  wf s ->
  batchSize s <= 0 \/ Len s <= batchSize s ->
  Get s index = Ok (None, true) ->
  exists s',
    CompactIncremental s = Ok s'
    /\ Get s' index = Ok (None, false)
    /\ Len s' = Len s - Z.of_nat (length (List.filter
                   (fun e => negb (live (storage s) e)) (tree s)))
    /\ Len s' <= Len s - 1
    /\ ((forall e, e ∈ tree s -> k e <> index -> live (storage s) e = true) ->
        Len s' = Len s - 1)
    /\ exists sd fl, Delete s index = Ok (sd, fl)
                     /\ CompactIncremental sd = Ok s'.
Proof.
  intros Hwf Hb HG. pose proof (CompactIncremental_spec s Hwf) as Hspec.
  destruct (Get_found _ _ _ HG) as (e & He & Hslot).
  pose proof (wf_sorted s Hwf) as Hs.
  destruct (BTreeFacts.Get_Some k _ _ _ He) as [Hin Hk]. simpl in Hk.
  assert (Hdead : live (storage s) e = false).
  { unfold live. by rewrite (slot_lookup _ _ _ Hslot). }
  assert (Huniq : forall x, x ∈ tree s -> k x = index -> x = e).
  { intros x Hx E. apply (BTreeFacts.sorted_key_inj k (tree s)); congruence. }
  assert (Hsc : scanned (batchSize s) (tree s) = tree s)
    by (by apply scanned_all).
  pose proof (ListFacts.length_filter_split (live (storage s)) (tree s)) as Hsplit.
  pose proof (Len_CompactIncremental s _ Hwf Hspec) as HLen.
  pose proof (Get_rebuild_absent s _ index Hwf Hspec) as Habs.
  rewrite Hsc in Hspec, HLen, Habs.
  eexists. split; [exact Hspec|]. split; [|split; [|split; [|split]]].
  - apply Habs. intros x Hx Hlive E.
    rewrite (Huniq x Hx E) in Hlive. congruence.
  - rewrite HLen. unfold Len, BTree.Len. lia.
  - rewrite HLen. unfold Len, BTree.Len.
    assert (e ∈ List.filter (fun e => negb (live (storage s) e)) (tree s)) as Hd.
    { apply list_elem_of_In, filter_In. rewrite Hdead.
      split; [by apply list_elem_of_In|done]. }
    destruct (List.filter (fun e => negb (live (storage s) e)) (tree s));
      [by apply elem_of_nil in Hd|]. simpl in Hsplit. lia.
  - intros Hothers. rewrite HLen.
    pose proof (BTreeFacts.Delete_fst k (probe index) (tree s) Hs) as Hdel.
    pose proof (BTreeFacts.length_Delete_Some k _ _ _ He) as HlenD.
    rewrite Hdel in HlenD.
    assert (List.filter (live (storage s)) (tree s)
            = List.filter (fun y => negb (BTree.keyeq k y (probe index))) (tree s))
      as ->.
    { apply ListFacts.filter_ext_elem. intros x Hx.
      destruct (BTree.keyeq k x (probe index)) eqn:E; simpl.
      - apply BTreeFacts.keyeq_spec in E. simpl in E.
        by rewrite (Huniq x Hx E).
      - apply BTreeFacts.keyeq_false in E. by apply Hothers. }
    unfold Len, BTree.Len. lia.
  - destruct (Delete_present s index e Hwf He) as [fl HD].
    eexists _, fl. split; [exact HD|].
    rewrite CompactIncremental_spec by (by eapply wf_Delete).
    cbn [tree storage tombstones threshold degree batchSize].
    assert (Hsc' : scanned (batchSize s)
                     (fst (BTree.Delete k (probe index) (tree s)))
                   = fst (BTree.Delete k (probe index) (tree s))).
    { apply scanned_all. destruct Hb as [Hb|Hb]; [by left|right].
      unfold Len, BTree.Len in *.
      pose proof (BTreeFacts.length_Delete_Some k _ _ _ He). lia. }
    rewrite Hsc'.
    assert (Hfilter :
      List.filter (live (<[pos e := None]> (storage s)))
        (fst (BTree.Delete k (probe index) (tree s)))
      = List.filter (live (storage s)) (tree s)).
    { rewrite BTreeFacts.Delete_fst by done.
      rewrite (ListFacts.filter_ext_elem (live (<[pos e:=None]> (storage s)))
                 (live (storage s)))
        by (intros; unfold live; by rewrite slot_insert_nil).
      apply ListFacts.filter_filter_absorb. intros x Hx Hlive.
      apply negb_true_iff, BTreeFacts.keyeq_false. simpl. intros E.
      rewrite (Huniq x Hx E) in Hlive. congruence. }
    unfold rebuild. cbn [fst snd]. rewrite Hfilter.
    rewrite (map_ext_in (slot (<[pos e:=None]> (storage s))) (slot (storage s)))
      by (intros x _; by apply slot_insert_nil).
    reflexivity.
Qed.

Lemma step_wf s o s' : wf s -> step s o = Ok s' -> wf s'.
Proof.
  intros Hwf. destruct o as [index v|index|]; simpl.
  - intros [= <-]. by apply wf_Add.
  - destruct (Delete s index) as [[sd fl]|] eqn:HD; [|done]. simpl.
    intros [= <-]. by eapply wf_Delete.
  - by apply wf_CompactIncremental.
Qed.

(** A nil-valued entry stays as it is while its key is not deleted and
    no compaction runs. *)
Lemma nil_entry_step s index o s' :
  wf s -> Get s index = Ok (None, true) -> keeps index o = true ->
  step s o = Ok s' -> Get s' index = Ok (None, true).
Proof.
  intros Hwf HG Hk Hstep. destruct (Get_found _ _ _ HG) as (e & He & Hslot).
  pose proof (wf_sorted s Hwf) as Hs.
  destruct (BTreeFacts.Get_Some k _ _ _ He) as [Hin Hke]. simpl in Hke.
  destruct o as [i v|i|]; simpl in Hk, Hstep; [| |done].
  - injection Hstep as <-. unfold Add.
    destruct (BTree.Get k (probe i) (tree s)) eqn:Hi; [done|].
    assert (index <> i) as Hne by (intros ->; congruence).
    unfold Get. cbn [tree storage].
    rewrite BTreeFacts.Get_ReplaceOrInsert_ne by done. rewrite He.
    rewrite lookup_app_l by (by apply wf_pos). by rewrite Hslot.
  - apply negb_true_iff in Hk.
    assert (i <> index) as Hne.
    { intros ->. unfold Bytes.eqb, Bytes.Compare in Hk.
      by rewrite BytesFacts.compare_refl in Hk. }
    destruct (BTree.Get k (probe i) (tree s)) as [e'|] eqn:Hi.
    + destruct (Delete_present s i e' Hwf Hi) as [fl HD].
      rewrite HD in Hstep. simpl in Hstep. injection Hstep as <-.
      unfold Get. cbn [tree storage].
      rewrite BTreeFacts.Get_Delete_ne by (done || (simpl; congruence)).
      rewrite He. destruct (decide (pos e' = pos e)) as [Hp|Hp].
      * rewrite Hp, list_lookup_insert_eq by (by apply wf_pos). done.
      * rewrite list_lookup_insert_ne by done. by rewrite Hslot.
    + rewrite Delete_missing_key in Hstep by done. simpl in Hstep.
      by injection Hstep as <-.
Qed.

Lemma nil_entry_run os : forall s s' index,
  wf s -> Get s index = Ok (None, true) -> forallb (keeps index) os = true ->
  run s os = Ok s' -> wf s' /\ Get s' index = Ok (None, true).
Proof.
  induction os as [|o os IH]; intros s s' index Hwf HG Hk Hrun.
  - simpl in Hrun. by injection Hrun as <-.
  - cbn [forallb] in Hk. apply andb_true_iff in Hk as [Hk Hks].
    cbn [run] in Hrun. destruct (step s o) as [s1|] eqn:Hstep; [|done].
    cbn [bind] in Hrun. apply (IH s1 s' index); try done.
    + by eapply step_wf.
    + by eapply nil_entry_step.
Qed.

(** C10: a key added with a nil value and not deleted since (whatever
    other keys were added or deleted meanwhile) is found by [Get] with a
    nil value; a compaction that covers all entries then drops it exactly
    as it drops a tombstone: the key is not found afterwards, [Len] loses
    one for every such entry (exactly one when it is the only one), and
    the result is the store that deleting the key first would have
    given. *)
Theorem CompactIncremental_drops_nil_valued_entry s0 index os s :
  wf s0 -> Get s0 index = Ok (None, false) ->
  forallb (keeps index) os = true ->
  run (Add s0 index None) os = Ok s ->
  batchSize s <= 0 \/ Len s <= batchSize s ->
  Get (Add s0 index None) index = Ok (None, true)
  /\ Get s index = Ok (None, true)
  /\ exists s',
      CompactIncremental s = Ok s'
      /\ Get s' index = Ok (None, false)
      /\ Len s' = Len s - Z.of_nat (length (List.filter
                     (fun e => negb (live (storage s) e)) (tree s)))
      /\ Len s' <= Len s - 1
      /\ ((forall e, e ∈ tree s -> k e <> index -> live (storage s) e = true) ->
          Len s' = Len s - 1)
      /\ exists sd fl, Delete s index = Ok (sd, fl)
                       /\ CompactIncremental sd = Ok s'.
Proof.
  intros Hwf0 Habs Hk Hrun Hb.
  destruct (Get_absent _ _ _ Habs) as [HN _].
  pose proof (Get_Add_fresh s0 index None HN) as HG0.
  destruct (nil_entry_run os _ s index (wf_Add s0 index None Hwf0) HG0 Hk Hrun)
    as [Hwf HG].
  split; [done|]. split; [done|].
  by apply nil_slot_dropped_by_complete_scan.
Qed.

Lemma CompactIncremental_drops_nil_valued_entry_witness :
  exists s s',
    run (Add StorageTest.holdingK1 StorageTest.k2 None) StorageTest.afterNil
    = Ok s
    /\ Get s StorageTest.k2 = Ok (None, true)
    /\ Len s = 2
    /\ CompactIncremental s = Ok s'
    /\ Get s' StorageTest.k2 = Ok (None, false)
    /\ Len s' = 1.
Proof.
  eexists.
  edestruct (CompactIncremental_drops_nil_valued_entry StorageTest.holdingK1
               StorageTest.k2 StorageTest.afterNil _
               eq_refl eq_refl eq_refl eq_refl)
    as (_ & HG & s' & Hc & Hg & _ & _ & Hone & _).
  - right. vm_compute. discriminate.
  - exists s'. split; [reflexivity|]. split; [exact HG|].
    split; [reflexivity|]. split; [exact Hc|]. split; [exact Hg|].
    rewrite Hone; [reflexivity|].
    intros e He Hne. vm_compute in He.
    repeat (apply elem_of_cons in He as [->|He];
            [try reflexivity; by destruct Hne|]).
    by apply elem_of_nil in He.
Defined.

(** C10, as stated, fails when a second indexed entry has a nil value:
    with [k2] and [k3] both added with nil and never deleted, a compaction
    that covers all three entries drops both of them, so [Len] goes from 3
    to 1 and not to 2. *)
Lemma CompactIncremental_drops_every_nil_valued_entry :
  exists s',
    Get StorageTest.twoNil StorageTest.k2 = Ok (None, true)
    /\ Len StorageTest.twoNil = 3
    /\ Len StorageTest.twoNil <= batchSize StorageTest.twoNil
    /\ CompactIncremental StorageTest.twoNil = Ok s'
    /\ Get s' StorageTest.k2 = Ok (None, false)
    /\ Len s' = 1
    /\ Len s' <> Len StorageTest.twoNil - 1.
Proof.
  eexists. split; [reflexivity|]. split; [reflexivity|].
  split; [vm_compute; discriminate|]. split; [reflexivity|].
  split; [reflexivity|]. split; [reflexivity|]. vm_compute. discriminate.
Qed.

(** C2, on the three keys of the store's test with a batch size of 1 and
    a threshold no deletion here crosses: three keys added, one deleted,
    so two remain and no compaction is launched; [CompactIncremental]
    then leaves a single entry, and the never-deleted [k3] is not found. *)
Theorem CompactIncremental_loses_live_entries :
  exists sd sc,
    Delete (StorageTest.quiet 1) StorageTest.k2 = Ok (sd, false)
    /\ Len (StorageTest.quiet 1) = 3
    /\ Len sd = 3 - 1
    /\ Get sd StorageTest.k2 = Ok (None, false)
    /\ Get sd StorageTest.k3 = Ok (StorageTest.baz, true)
    /\ CompactIncremental sd = Ok sc
    /\ Len sc = 1
    /\ Get sc StorageTest.k3 = Ok (None, false).
Proof. eexists _, _. repeat split. Qed.

(** *** Stores without nil values: a complete scan is invisible *)

Lemma renumber_lookup n es i :
  renumber n es !! i = (fun e => {| k := k e; pos := (n + i)%nat |}) <$> es !! i.
Proof.
  revert n i. induction es as [|e es IH]; intros n [|i]; simpl; try done.
  - by rewrite Nat.add_0_r.
  - rewrite IH. destruct (es !! i); simpl; [|done]. do 2 f_equal. lia.
Qed.

Lemma Get_wf s index e :
  wf s -> BTree.Get k (probe index) (tree s) = Some e ->
  Get s index = Ok (slot (storage s) e, true).
Proof.
  intros Hwf HG. unfold Get. rewrite HG.
  apply BTreeFacts.Get_Some in HG as [Hin _].
  destruct (lookup_lt_is_Some_2 _ _ (wf_pos s e Hwf Hin)) as [v Hv].
  rewrite Hv. by rewrite (slot_lookup _ _ _ Hv).
Qed.

(** A visited live entry is found afterwards, with its value. *)
Lemma Get_rebuild_present s s' e :
  wf s -> CompactIncremental s = Ok s' ->
  e ∈ scanned (batchSize s) (tree s) -> live (storage s) e = true ->
  Get s' (k e) = Ok (slot (storage s) e, true).
Proof.
  intros Hwf Hc He Hlive.
  pose proof (wf_CompactIncremental s s' Hwf Hc) as Hwf'.
  rewrite CompactIncremental_spec in Hc by done. injection Hc as <-.
  unfold rebuild in Hwf' |- *. cbn [fst snd] in Hwf' |- *.
  set (ls := List.filter (live (storage s)) (scanned (batchSize s) (tree s))) in *.
  assert (e ∈ ls) as Hin
    by (apply list_elem_of_In, filter_In; by rewrite <- list_elem_of_In).
  apply list_elem_of_lookup in Hin as [i Hi].
  set (e' := {| k := k e; pos := i |}).
  assert (renumber 0 ls !! i = Some e') as Hi'
    by (rewrite renumber_lookup, Hi; done).
  rewrite (Get_wf _ (k e) e' Hwf').
  - unfold slot at 1. cbn [storage pos e'].
    by rewrite list_lookup_fmap, Hi.
  - cbn [tree]. apply BTreeFacts.Get_elem; [|by eapply list_elem_of_lookup_2|done].
    apply (wf_sorted _ Hwf').
Qed.

Lemma CompactIncremental_complete_scan_is_invisible s :
  wf s -> (forall e, e ∈ tree s -> live (storage s) e = true) ->
  batchSize s <= 0 \/ Len s <= batchSize s ->
  exists s',
    CompactIncremental s = Ok s'
    /\ Len s' = Len s
    /\ (forall index, Get s' index = Get s index)
    /\ tombstones s' = 0.
Proof.
  intros Hwf Hlive Hb. pose proof (CompactIncremental_spec s Hwf) as Hspec.
  assert (Hsc : scanned (batchSize s) (tree s) = tree s) by (by apply scanned_all).
  eexists. split; [exact Hspec|]. split; [|split; [|done]].
  - rewrite (Len_CompactIncremental s _ Hwf Hspec), Hsc.
    pose proof (ListFacts.length_filter_split (live (storage s)) (tree s)) as Hsplit.
    assert (List.filter (fun x => negb (live (storage s) x)) (tree s) = []) as Hnil.
    { clear -Hlive. induction (tree s) as [|e t IH]; [done|]. simpl.
      rewrite (Hlive e) by (by left). simpl. apply IH. intros x Hx. apply Hlive. by right. }
    rewrite Hnil in Hsplit. simpl in Hsplit. unfold Len, BTree.Len. lia.
  - intros index. destruct (BTree.Get k (probe index) (tree s)) as [e|] eqn:HG.
    + rewrite (Get_wf s index e Hwf HG).
      destruct (BTreeFacts.Get_Some k _ _ _ HG) as [Hin Hk]. simpl in Hk. subst index.
      apply (Get_rebuild_present s _ e Hwf Hspec); [by rewrite Hsc|by apply Hlive].
    + unfold Get at 2. rewrite HG.
      apply (Get_rebuild_absent s _ index Hwf Hspec).
      intros x Hx _ E. apply scanned_sub in Hx.
      by apply (BTreeFacts.Get_None k _ _ (wf_sorted s Hwf) HG x Hx).
Qed.

Lemma dense_New d c th b : dense (NewBTreeIndexedStorage d c th b).
Proof. split; [intros e H|intros e1 e2 H]; by apply elem_of_nil in H. Qed.

Lemma slot_app_old (st : list value) v e :
  (pos e < length st)%nat -> slot (st ++ [v]) e = slot st e.
Proof. intros H. unfold slot. by rewrite lookup_app_l. Qed.

Lemma dense_Add s index v :
  wf s -> dense s -> v <> None -> dense (Add s index v).
Proof.
  intros Hwf [Hlive Hinj] Hv. unfold Add.
  destruct (BTree.Get k (probe index) (tree s)) eqn:HG; [done|].
  pose proof (wf_sorted s Hwf) as Hs.
  assert (Hel : forall e, e ∈ fst (BTree.ReplaceOrInsert k
                         {| k := index; pos := length (storage s) |} (tree s)) ->
            e = {| k := index; pos := length (storage s) |} \/ e ∈ tree s).
  { intros e He. apply BTreeFacts.elem_of_ReplaceOrInsert in He; [|done].
    destruct He as [->|[He _]]; eauto. }
  split; cbn [tree storage].
  - intros e He. destruct (Hel e He) as [->|Hin].
    + unfold live, slot. simpl. rewrite list_lookup_middle by done. simpl.
      by destruct v.
    + unfold live. rewrite slot_app_old by (by apply wf_pos). by apply Hlive.
  - intros e1 e2 H1 H2 Hp.
    destruct (Hel e1 H1) as [->|Hin1]; destruct (Hel e2 H2) as [->|Hin2].
    + done.
    + pose proof (wf_pos s e2 Hwf Hin2). simpl in Hp. lia.
    + pose proof (wf_pos s e1 Hwf Hin1). simpl in Hp. lia.
    + by apply Hinj.
Qed.

Lemma dense_Delete s index s' fl :
  wf s -> dense s -> Delete s index = Ok (s', fl) -> dense s'.
Proof.
  intros Hwf [Hlive Hinj].
  destruct (BTree.Get k (probe index) (tree s)) as [e|] eqn:HG.
  - destruct (Delete_present s index e Hwf HG) as [fl' ->]. intros [= <- _].
    pose proof (wf_sorted s Hwf) as Hs.
    destruct (BTreeFacts.Get_Some k _ _ _ HG) as [Hin Hk].
    split; cbn [tree storage].
    + intros x Hx. apply BTreeFacts.elem_of_Delete in Hx as [Hx Hne]; [|done].
      unfold live, slot. rewrite list_lookup_insert_ne.
      * by apply Hlive.
      * intros Hp. apply Hne. by rewrite <- (Hinj e x Hin Hx Hp).
    + intros e1 e2 H1 H2.
      apply BTreeFacts.elem_of_Delete in H1 as [H1 _]; [|done].
      apply BTreeFacts.elem_of_Delete in H2 as [H2 _]; [|done].
      by apply Hinj.
  - rewrite Delete_missing_key by done. by intros [= <- _].
Qed.

(** Every run of operations returns, and keeps the invariant. *)
Lemma run_wf os : forall s, wf s -> exists s', run s os = Ok s' /\ wf s'.
Proof.
  induction os as [|o os IH]; intros s Hwf; [by exists s|].
  assert (exists s1, step s o = Ok s1 /\ wf s1) as (s1 & Hs1 & Hwf1).
  { destruct o as [index v|index|]; simpl.
    - eexists. split; [done|]. by apply wf_Add.
    - destruct (BTree.Get k (probe index) (tree s)) as [e|] eqn:HG.
      + destruct (Delete_present s index e Hwf HG) as [fl HD].
        rewrite HD. simpl. eexists. split; [done|]. by eapply wf_Delete.
      + rewrite Delete_missing_key by done. simpl. eauto.
    - rewrite CompactIncremental_spec by done. eexists. split; [done|].
      eapply wf_CompactIncremental; [done|]. by apply CompactIncremental_spec. }
  cbn [run]. rewrite Hs1. cbn [bind]. by apply IH.
Qed.

(** *** The round trip, for scans that complete *)

Lemma indexed_Add s index v idx :
  wf s -> indexed (Add s index v) idx <-> idx = index \/ indexed s idx.
Proof.
  intros Hwf. unfold indexed, Add.
  destruct (BTree.Get k (probe index) (tree s)) as [e|] eqn:HG.
  - split; [by right|]. intros [->|H]; [|done]. by rewrite HG.
  - cbn [tree]. destruct (List.list_eq_dec Byte.byte_eq_dec idx index) as [->|Hne].
    + rewrite (BTreeFacts.Get_key k (probe index)
                 {| k := index; pos := length (storage s) |}) by done.
      rewrite BTreeFacts.Get_ReplaceOrInsert_eq. split; [by left|done].
    + rewrite BTreeFacts.Get_ReplaceOrInsert_ne by (by apply wf_sorted || done).
      split; [by right|]. by intros [?|?].
Qed.

Lemma batchSize_Add s index v : batchSize (Add s index v) = batchSize s.
Proof. unfold Add. by destruct (BTree.Get _ _ _). Qed.

Lemma AddAll_spec kvs : forall s,
  wf s -> dense s ->
  NoDup (map fst kvs) ->
  (forall kv, kv ∈ kvs -> snd kv <> None /\ ~ indexed s (fst kv)) ->
  wf (AddAll s kvs) /\ dense (AddAll s kvs)
  /\ Len (AddAll s kvs) = Len s + Z.of_nat (length kvs)
  /\ batchSize (AddAll s kvs) = batchSize s
  /\ forall idx, indexed (AddAll s kvs) idx <-> idx ∈ map fst kvs \/ indexed s idx.
Proof.
  induction kvs as [|[index v] kvs IH]; intros s Hwf Hd Hnd Hall.
  - simpl. split; [done|]. split; [done|]. split; [lia|]. split; [done|].
    intros idx. split; [by right|].
    intros [H|H]; [by apply elem_of_nil in H|done].
  - cbn [map fst] in Hnd. apply NoDup_cons in Hnd as [Hfresh Hnd].
    destruct (Hall (index, v)) as [Hv Hni]; [by left|]. simpl in Hv, Hni.
    assert (BTree.Get k (probe index) (tree s) = None) as HG.
    { unfold indexed in Hni.
      destruct (BTree.Get k (probe index) (tree s)); [by destruct Hni|done]. }
    cbn [AddAll fold_left fst snd].
    destruct (IH (Add s index v)) as (Hwf' & Hd' & HLen & Hb & Hidx).
    + by apply wf_Add.
    + by apply dense_Add.
    + done.
    + intros kv Hkv. destruct (Hall kv) as [Hkv1 Hkv2]; [by right|].
      split; [done|]. rewrite indexed_Add by done. intros [E|H]; [|done].
      apply Hfresh. rewrite <- E. apply list_elem_of_fmap. by exists kv.
    + fold (AddAll (Add s index v) kvs).
      split; [done|]. split; [done|]. split; [|split].
      * rewrite HLen, Len_Add_fresh by done. cbn [length]. lia.
      * by rewrite Hb, batchSize_Add.
      * intros idx. rewrite Hidx, indexed_Add by done. cbn [map fst].
        rewrite elem_of_cons. tauto.
Qed.

(** A key that is absent stays absent through deletions. *)
Lemma DeleteAll_keeps_absent dels : forall s s' index,
  wf s -> Get s index = Ok (None, false) -> DeleteAll s dels = Ok s' ->
  Get s' index = Ok (None, false).
Proof.
  induction dels as [|d dels IH]; intros s s' index Hwf HGet HDs.
  - simpl in HDs. by injection HDs as <-.
  - cbn [DeleteAll] in HDs.
    destruct (Delete s d) as [[s2 fl2]|] eqn:HD2; [|done].
    cbn [bind fst] in HDs. apply (IH s2 s' index); [by eapply wf_Delete| |done].
    destruct (Get_absent _ _ _ HGet) as [HN _].
    destruct (BTree.Get k (probe d) (tree s)) as [e2|] eqn:HG2.
    + destruct (Delete_present s d e2 Hwf HG2) as [fl3 HD3].
      rewrite HD3 in HD2. injection HD2 as <- _.
      unfold Get. cbn [tree].
      destruct (List.list_eq_dec Byte.byte_eq_dec index d) as [->|Hne].
      * rewrite BTreeFacts.Get_Delete_eq; [done|by apply wf_sorted].
      * rewrite BTreeFacts.Get_Delete_ne; [by rewrite HN|by apply wf_sorted|].
        simpl. done.
    + rewrite Delete_missing_key in HD2 by done. by injection HD2 as <- _.
Qed.

Lemma DeleteAll_spec dels : forall s,
  wf s -> dense s -> NoDup dels -> (forall idx, idx ∈ dels -> indexed s idx) ->
  exists s',
    DeleteAll s dels = Ok s' /\ wf s' /\ dense s'
    /\ Len s' = Len s - Z.of_nat (length dels)
    /\ batchSize s' = batchSize s
    /\ forall idx, idx ∈ dels -> Get s' idx = Ok (None, false).
Proof.
  induction dels as [|index dels IH]; intros s Hwf Hd Hnd Hall.
  - exists s. simpl. split; [done|]. split; [done|]. split; [done|].
    split; [lia|]. split; [done|].
    intros idx H. by apply elem_of_nil in H.
  - apply NoDup_cons in Hnd as [Hfresh Hnd].
    destruct (BTree.Get k (probe index) (tree s)) as [e|] eqn:HG;
      [|by destruct (Hall index); [left|]].
    destruct (Delete_present s index e Hwf HG) as [fl HD].
    pose proof (wf_Delete _ _ _ _ Hwf HD) as Hwf1.
    pose proof (dense_Delete _ _ _ _ Hwf Hd HD) as Hd1.
    pose proof (Len_Delete_present _ _ _ _ _ Hwf HG HD) as HLen1.
    pose proof (Get_Delete _ _ _ _ Hwf HD) as HGet1.
    cbn [DeleteAll]. rewrite HD. cbn [bind fst].
    set (s1 := {| tree := fst (BTree.Delete k (probe index) (tree s));
                  storage := <[pos e:=None]> (storage s);
                  tombstones := wrap64 (tombstones s + 1);
                  threshold := threshold s; degree := degree s;
                  batchSize := batchSize s |}) in *.
    destruct (IH s1 Hwf1 Hd1 Hnd) as (s' & HDs & Hwf' & Hd' & HLen & Hb & Hgone).
    + intros idx Hkey. unfold indexed. subst s1. cbn [tree].
      rewrite BTreeFacts.Get_Delete_ne; [by apply Hall; right|by apply wf_sorted|].
      simpl. intros ->. done.
    + exists s'. split; [done|]. split; [done|]. split; [done|].
      split; [cbn [length]; lia|]. split; [done|].
      intros idx Hkey. apply elem_of_cons in Hkey as [->|Hkey]; [|by apply Hgone].
      by apply (DeleteAll_keeps_absent dels s1 s' index).
Qed.

(** With non-nil values and a scan that reaches the end, the round trip
    of the store's test holds for every batch of keys: [N] distinct keys
    added, [M] of them deleted, [Len] is [N - M] before and after the
    compaction and the deleted keys are not found. *)
Lemma round_trip_when_scan_completes d c th b kvs dels :
  NoDup (map fst kvs) -> (forall kv, kv ∈ kvs -> snd kv <> None) ->
  NoDup dels -> (forall idx, idx ∈ dels -> idx ∈ map fst kvs) ->
  b <= 0 \/ Z.of_nat (length kvs) - Z.of_nat (length dels) <= b ->
  exists s2 s3,
    DeleteAll (AddAll (NewBTreeIndexedStorage d c th b) kvs) dels = Ok s2
    /\ Len s2 = Z.of_nat (length kvs) - Z.of_nat (length dels)
    /\ CompactIncremental s2 = Ok s3
    /\ Len s3 = Z.of_nat (length kvs) - Z.of_nat (length dels)
    /\ forall idx, idx ∈ dels -> Get s3 idx = Ok (None, false).
Proof.
  intros Hnd Hvals Hndd Hsub Hb.
  destruct (AddAll_spec kvs (NewBTreeIndexedStorage d c th b))
    as (Hwf1 & Hd1 & HLen1 & Hb1 & Hidx1);
    [apply wf_New|apply dense_New|done| |].
  { intros kv Hkv. split; [by apply Hvals|]. unfold indexed. simpl. tauto. }
  destruct (DeleteAll_spec dels _ Hwf1 Hd1 Hndd)
    as (s2 & HD & Hwf2 & Hd2 & HLen2 & Hb2 & Hgone).
  { intros idx Hkey. apply Hidx1. left. by apply Hsub. }
  assert (HLen : Len s2 = Z.of_nat (length kvs) - Z.of_nat (length dels)).
  { rewrite HLen2, HLen1. unfold Len, BTree.Len. simpl. lia. }
  destruct (CompactIncremental_complete_scan_is_invisible s2 Hwf2 (proj1 Hd2))
    as (s3 & Hc & HLen3 & HGet3 & _).
  { rewrite Hb2, Hb1, HLen. simpl. done. }
  exists s2, s3. split; [done|]. split; [done|]. split; [done|].
  split; [by rewrite HLen3|]. intros idx Hkey. rewrite HGet3. by apply Hgone.
Qed.

(** Every store built by the constructor and a run of operations is
    well formed, and the run does not panic. *)
Lemma reachable_wf d c th b os :
  exists s, run (NewBTreeIndexedStorage d c th b) os = Ok s /\ wf s.
Proof. apply run_wf, wf_New. Qed.

End StorageFacts.

(** ** The TTL index *)

Module TtlFacts.
Import TtlBTree.

Lemma ttl_wf_sorted b h : wf b h -> BTree.sorted (keyOf h) (tree b).
Proof.
  unfold wf, wfb. rewrite andb_true_iff. intros [H _].
  by apply BTreeFacts.sortedb_sorted.
Qed.

Lemma ttl_wf_allocated b h l : wf b h -> l ∈ tree b -> allocated h l = true.
Proof.
  unfold wf, wfb. rewrite andb_true_iff, forallb_forall. intros [_ H] Hl.
  apply H. by apply list_elem_of_In.
Qed.

Lemma ttl_wf_intro b h :
  BTree.sorted (keyOf h) (tree b) ->
  (forall l, l ∈ tree b -> allocated h l = true) ->
  wf b h.
Proof.
  intros Hs Ha. unfold wf, wfb. rewrite andb_true_iff, forallb_forall.
  split; [by apply BTreeFacts.sorted_sortedb|].
  intros l Hl. apply Ha. by apply list_elem_of_In.
Qed.

(** *** Setting an expiration touches one record's timestamp only *)

Lemma Key_SetExpirationTime it ts : Key (SetExpirationTime it ts) = Key it.
Proof. by destruct it. Qed.

Lemma Value_SetExpirationTime it ts : Value (SetExpirationTime it ts) = Value it.
Proof. by destruct it. Qed.

Lemma GetExpirationTime_SetExpirationTime it ts :
  GetExpirationTime (SetExpirationTime it ts) = Unix ts.
Proof. by destruct it. Qed.

Lemma items_setExpiration_eq h l ts it :
  items h !! l = Some it ->
  items (setExpiration h l ts) !! l = Some (SetExpirationTime it ts).
Proof.
  intros H. unfold setExpiration. simpl.
  rewrite list_lookup_alter_eq. by rewrite H.
Qed.

Lemma items_setExpiration_ne h l l0 ts :
  l0 <> l -> items (setExpiration h l ts) !! l0 = items h !! l0.
Proof.
  intros H. unfold setExpiration. simpl. by rewrite list_lookup_alter_ne.
Qed.

Lemma keyOf_setExpiration h l ts l0 :
  keyOf (setExpiration h l ts) l0 = keyOf h l0.
Proof.
  unfold keyOf. destruct (decide (l0 = l)) as [->|Hne].
  - destruct (items h !! l) as [it|] eqn:E.
    + rewrite (items_setExpiration_eq _ _ _ _ E). simpl.
      by rewrite Key_SetExpirationTime.
    + unfold setExpiration. simpl. rewrite list_lookup_alter_eq. by rewrite E.
  - by rewrite items_setExpiration_ne.
Qed.

Lemma tsOf_setExpiration_eq h l ts :
  allocated h l = true -> tsOf (setExpiration h l ts) l = Unix ts.
Proof.
  unfold allocated. rewrite Nat.ltb_lt. intros Hl.
  destruct (lookup_lt_is_Some_2 _ _ Hl) as [it E].
  unfold tsOf. rewrite (items_setExpiration_eq _ _ _ _ E).
  apply GetExpirationTime_SetExpirationTime.
Qed.

Lemma tsOf_setExpiration_ne h l l0 ts :
  l0 <> l -> tsOf (setExpiration h l ts) l0 = tsOf h l0.
Proof. intros H. unfold tsOf. by rewrite items_setExpiration_ne. Qed.

Lemma allocated_setExpiration h l ts l0 :
  allocated (setExpiration h l ts) l0 = allocated h l0.
Proof. unfold allocated, setExpiration. simpl. by rewrite length_alter. Qed.

Lemma insertable_allocated h l : insertable h l = true -> allocated h l = true.
Proof.
  unfold insertable, allocated. destruct (items h !! l) eqn:E; [|done].
  intros _. apply Nat.ltb_lt. by eapply lookup_lt_Some.
Qed.

(** *** The expiry scan *)

Lemma Ascend_expiredVisit h cutoff max t : forall out,
  (max <= 0 \/ Z.of_nat (length out) < max) ->
  BTree.Ascend (expiredVisit h cutoff max) t out =
  Ok (out ++ (if 0 <? max
              then take (Z.to_nat max - length out)
                     (List.filter (expiredb h cutoff) t)
              else List.filter (expiredb h cutoff) t)).
Proof.
  induction t as [|x t IH]; intros out Hout.
  - cbn [BTree.Ascend List.filter]. rewrite take_nil.
    destruct (0 <? max); by rewrite app_nil_r.
  - rewrite BTreeFacts.Ascend_cons. unfold expiredVisit at 1.
    cbn [List.filter].
    assert (Hx : expiredb h cutoff x = (tsOf h x <=? cutoff)) by done.
    rewrite Hx. clear Hx.
    destruct (tsOf h x <=? cutoff) eqn:E.
    + rewrite length_app. cbn [length].
      destruct (0 <? max) eqn:Hm.
      * pose proof Hm as Hm'. apply Z.ltb_lt in Hm'.
        destruct Hout as [?|Hout]; [lia|].
        destruct (max <=? Z.of_nat (length out + 1)) eqn:Hstop; cbn [andb bind].
        -- apply Z.leb_le in Hstop.
           replace (Z.to_nat max - length out)%nat with 1%nat by lia.
           simpl. by rewrite take_0.
        -- apply Z.leb_gt in Hstop. rewrite IH by (right; rewrite length_app; simpl; lia).
           rewrite length_app. cbn [length].
           replace (Z.to_nat max - length out)%nat
             with (S (Z.to_nat max - (length out + 1)))%nat by lia.
           rewrite firstn_cons, <- app_assoc. done.
      * cbn [andb bind]. rewrite IH by (left; apply Z.ltb_ge in Hm; lia).
        rewrite <- app_assoc. done.
    + cbn [bind]. by rewrite IH.
Qed.

Lemma scan_spec h cutoff max t :
  BTree.Ascend (expiredVisit h cutoff max) t [] =
  Ok (limited max (List.filter (expiredb h cutoff) t)).
Proof.
  rewrite Ascend_expiredVisit by (simpl; lia). simpl.
  unfold limited. by rewrite Nat.sub_0_r.
Qed.

(** *** Removing a batch of records *)

Lemma memb_spec x l : memb x l = true <-> x ∈ l.
Proof.
  unfold memb. rewrite existsb_exists, list_elem_of_In. split.
  - intros (y & Hy & E). apply Nat.eqb_eq in E. by subst.
  - intros H. exists x. by rewrite Nat.eqb_refl.
Qed.

Lemma memb_false x l : memb x l = false <-> x ∉ l.
Proof.
  rewrite <- memb_spec. destruct (memb x l); split; congruence.
Qed.

(** On a sorted tree, deleting a record it holds removes that record. *)
Lemma Delete_member h x t :
  BTree.sorted (keyOf h) t -> x ∈ t ->
  BTree.Delete (keyOf h) x t
  = (List.filter (fun y => negb (Nat.eqb y x)) t, Some x).
Proof.
  intros Hs Hx.
  rewrite (surjective_pairing (BTree.Delete (keyOf h) x t)).
  rewrite BTreeFacts.Delete_fst, BTreeFacts.Delete_snd by done.
  rewrite BTreeFacts.Get_self by done. f_equal.
  apply ListFacts.filter_ext_elem. intros y Hy. f_equal.
  destruct (Nat.eqb_spec y x) as [->|Hne].
  - by apply BTreeFacts.keyeq_spec.
  - apply BTreeFacts.keyeq_false. intros E. apply Hne.
    by apply (BTreeFacts.sorted_key_inj (keyOf h) t).
Qed.

Lemma purgeLoop_spec h its : forall t deleted,
  BTree.sorted (keyOf h) t -> NoDup its -> (forall x, x ∈ its -> x ∈ t) ->
  purgeLoop t h its deleted
  = (List.filter (fun y => negb (memb y its)) t,
     deleted + Z.of_nat (length its)).
Proof.
  induction its as [|x its IH]; intros t deleted Hs Hnd Hsub.
  - simpl. f_equal; [|lia]. clear. induction t as [|y t IH]; [done|].
    simpl. by rewrite <- IH.
  - cbn [purgeLoop]. rewrite Delete_member; [|done|apply Hsub; by left].
    apply NoDup_cons in Hnd as [Hx Hnd].
    rewrite IH; [|by apply BTreeFacts.sorted_filter|done|].
    + rewrite ListFacts.filter_filter_and. f_equal; [|cbn [length]; lia].
      apply ListFacts.filter_ext_elem. intros y Hy.
      unfold memb. simpl. by rewrite negb_orb.
    + intros y Hy. apply list_elem_of_In, filter_In. split.
      * apply list_elem_of_In, Hsub. by right.
      * apply negb_true_iff, Nat.eqb_neq. intros ->. done.
Qed.

Lemma minus_take_filter p n t :
  NoDup t ->
  List.filter (fun y => negb (memb y (take n (List.filter p t)))) t
  = dropFirst p n t.
Proof.
  revert n. induction t as [|x t IH]; intros n Hnd; [done|].
  apply NoDup_cons in Hnd as [Hx Hnd].
  assert (Hsubl : forall m y, y ∈ take m (List.filter p t) -> y ∈ t).
  { intros m y Hy. apply (subseteq_take m) in Hy.
    by apply list_elem_of_In, filter_In in Hy as [?%list_elem_of_In _]. }
  cbn [List.filter dropFirst]. destruct (p x) eqn:Ep.
  - destruct n as [|n].
    + rewrite take_0. simpl. f_equal. clear. induction t as [|y t IH]; [done|].
      simpl. by rewrite IH.
    + rewrite firstn_cons. cbn [List.filter].
      assert (memb x (x :: take n (List.filter p t)) = true) as ->
        by (apply memb_spec; by left).
      cbn [negb]. rewrite <- IH by done.
      apply ListFacts.filter_ext_elem. intros y Hy. f_equal.
      unfold memb. cbn [existsb].
      destruct (Nat.eqb_spec y x) as [->|Hne]; [done|done].
  - cbn [List.filter].
    assert (memb x (take n (List.filter p t)) = false) as ->.
    { apply memb_false. intros H. by apply Hsubl in H. }
    cbn [negb]. by rewrite IH.
Qed.

Lemma minus_filter p t :
  List.filter (fun y => negb (memb y (List.filter p t))) t
  = List.filter (fun y => negb (p y)) t.
Proof.
  apply ListFacts.filter_ext_elem. intros y Hy. f_equal.
  destruct (p y) eqn:E.
  - apply memb_spec, list_elem_of_In, filter_In. by rewrite <- list_elem_of_In.
  - apply memb_false. intros H.
    apply list_elem_of_In, filter_In in H as [_ H]. congruence.
Qed.

Lemma filter_dropFirst p n t :
  List.filter p (dropFirst p n t) = drop n (List.filter p t).
Proof.
  revert n. induction t as [|x t IH]; intros n; simpl.
  - by rewrite drop_nil.
  - destruct (p x) eqn:E.
    + destruct n as [|n]; simpl; [by rewrite E|]. apply IH.
    + simpl. rewrite E. apply IH.
Qed.

Lemma filter_neg_dropFirst p n t :
  List.filter (fun y => negb (p y)) (dropFirst p n t)
  = List.filter (fun y => negb (p y)) t.
Proof.
  revert n. induction t as [|x t IH]; intros n; simpl; [done|].
  destruct (p x) eqn:E; simpl.
  - destruct n as [|n]; simpl; [by rewrite E|]. apply IH.
  - rewrite E. simpl. by rewrite IH.
Qed.

Lemma elem_of_dropFirst p n t x : x ∈ dropFirst p n t -> x ∈ t.
Proof.
  revert n. induction t as [|y t IH]; intros n; simpl; [done|].
  destruct (p y).
  - destruct n as [|n]; [done|]. intros H. right. by eapply IH.
  - intros H. apply elem_of_cons in H as [->|H]; [by left|right]. by eapply IH.
Qed.

Lemma length_dropFirst p n t :
  (length (dropFirst p n t) + Nat.min n (length (List.filter p t))
   = length t)%nat.
Proof.
  revert n. induction t as [|y t IH]; intros n; simpl; [lia|].
  destruct (p y); simpl.
  - destruct n as [|n]; simpl; [lia|]. specialize (IH n). lia.
  - specialize (IH n). lia.
Qed.

(** *** [ListExpiredAt] and [PurgeExpiredAt] *)

Lemma NoDup_limited m (l : list loc) : NoDup l -> NoDup (limited m l).
Proof.
  unfold limited. destruct (0 <? m); [|done]. intros H.
  by apply (sublist_NoDup _ l H), sublist_take.
Qed.

Lemma limited_sub m (l : list loc) x : x ∈ limited m l -> x ∈ l.
Proof. unfold limited. destruct (0 <? m); [apply subseteq_take|done]. Qed.

Lemma length_limited m (l : list loc) :
  Z.of_nat (length (limited m l))
  = if 0 <? m then Z.min m (Z.of_nat (length l)) else Z.of_nat (length l).
Proof.
  unfold limited. destruct (0 <? m) eqn:E; [|done].
  apply Z.ltb_lt in E. rewrite length_take. lia.
Qed.

Lemma ListExpiredAt_spec b h now ttl m :
  0 < ttl ->
  ListExpiredAt b h now ttl m
  = Ok (Some (limited m (List.filter (expiredb h (cutoffUnix now ttl)) (tree b)))).
Proof.
  intros Httl. unfold ListExpiredAt.
  apply Z.leb_gt in Httl as ->. by rewrite scan_spec.
Qed.

Lemma PurgeExpiredAt_spec b h now ttl m :
  wf b h -> 0 < ttl ->
  PurgeExpiredAt b h now ttl m
  = Ok ({| tree := purged h (cutoffUnix now ttl) m (tree b) |},
        Z.of_nat (length (limited m
          (List.filter (expiredb h (cutoffUnix now ttl)) (tree b))))).
Proof.
  intros Hwf Httl. unfold PurgeExpiredAt.
  apply Z.leb_gt in Httl as ->. rewrite scan_spec. cbn [bind].
  pose proof (ttl_wf_sorted b h Hwf) as Hs.
  set (p := expiredb h (cutoffUnix now ttl)).
  assert (Hmin : List.filter (fun y => negb (memb y (limited m (List.filter p (tree b)))))
                   (tree b) = purged h (cutoffUnix now ttl) m (tree b)).
  { unfold limited, purged. fold p. destruct (0 <? m).
    - apply minus_take_filter. by eapply BTreeFacts.sorted_NoDup.
    - apply minus_filter. }
  pose proof (purgeLoop_spec h (limited m (List.filter p (tree b))) (tree b) 0 Hs)
    as Hloop.
  rewrite Hmin in Hloop.
  destruct (limited m (List.filter p (tree b))) as [|x its] eqn:E.
  - rewrite <- Hmin. simpl. f_equal. f_equal. destruct b as [t]. simpl. f_equal.
    clear. induction t as [|y t IH]; [done|]. simpl. by rewrite <- IH.
  - rewrite Hloop; [done| |].
    + rewrite <- E. apply NoDup_limited, NoDup_ListNoDup, List.NoDup_filter.
      by eapply NoDup_ListNoDup, BTreeFacts.sorted_NoDup.
    + intros y Hy. rewrite <- E in Hy. apply limited_sub in Hy.
      by apply list_elem_of_In, filter_In in Hy as [?%list_elem_of_In _].
Qed.

(** *** The seconds of a time *)

Lemma wrap64_range z : - 2 ^ 63 <= wrap64 z <= 2 ^ 63 - 1.
Proof.
  unfold wrap64. pose proof (Z.mod_pos_bound (z + 2 ^ 63) (2 ^ 64)). lia.
Qed.

Lemma wrap64_add_1 z : wrap64 z < 2 ^ 63 - 1 -> wrap64 (z + 1) = wrap64 z + 1.
Proof.
  unfold wrap64. intros H.
  pose proof (Z.mod_pos_bound (z + 2 ^ 63) (2 ^ 64)) as Hb.
  pose proof (Z.div_mod (z + 2 ^ 63) (2 ^ 64)) as Hd.
  replace (z + 1 + 2 ^ 63)
    with ((z + 2 ^ 63) mod 2 ^ 64 + 1 + (z + 2 ^ 63) / 2 ^ 64 * 2 ^ 64) by lia.
  rewrite Z.mod_add by lia. rewrite Z.mod_small; lia.
Qed.

Lemma internalSec_mkTime sec nsec :
  0 <= nsec < 1000000000 -> internalSec (mkTime sec nsec) = sec.
Proof.
  intros H. unfold internalSec, mkTime.
  replace ((sec - unixToInternal) * 1000000000 + nsec)
    with (nsec + (sec - unixToInternal) * 1000000000) by lia.
  rewrite Z.div_add by lia. rewrite Z.div_small by lia. lia.
Qed.

Lemma nsecOf_range t : 0 <= nsecOf t < 1000000000.
Proof. unfold nsecOf. apply Z.mod_pos_bound. lia. Qed.

Lemma addSec_range sec d : - 2 ^ 63 <= addSec sec d <= 2 ^ 63 - 1.
Proof.
  unfold addSec. pose proof (wrap64_range (sec + d)).
  destruct (Bool.eqb _ _); [done|]. destruct (0 <? d); lia.
Qed.

Lemma addSec_1 sec : - 2 ^ 63 <= sec < 2 ^ 63 - 1 -> addSec sec 1 = sec + 1.
Proof.
  intros H. unfold addSec.
  assert (wrap64 (sec + 1) = sec + 1) as ->
    by (unfold wrap64; rewrite Z.mod_small; lia).
  assert ((sec <? sec + 1) = true) as -> by (apply Z.ltb_lt; lia). done.
Qed.

(** The seconds of a sum of a time and a duration are an [int64]. *)
Lemma internalSec_TimeAdd t d :
  - 2 ^ 63 <= internalSec (TimeAdd t d) <= 2 ^ 63 - 1.
Proof.
  unfold TimeAdd. pose proof (nsecOf_range t) as Hn.
  assert (- 1000000000 < Z.rem d 1000000000 < 1000000000) as Hrem.
  { pose proof (Z.rem_bound_abs d 1000000000 ltac:(lia)) as Hr. lia. }
  destruct (1000000000 <=? nsecOf t + Z.rem d 1000000000) eqn:E1.
  - apply Z.leb_le in E1. rewrite internalSec_mkTime by lia. apply addSec_range.
  - apply Z.leb_gt in E1.
    destruct (nsecOf t + Z.rem d 1000000000 <? 0) eqn:E2.
    + apply Z.ltb_lt in E2. rewrite internalSec_mkTime by lia. apply addSec_range.
    + apply Z.ltb_ge in E2. rewrite internalSec_mkTime by lia. apply addSec_range.
Qed.

Lemma TimeAdd_Second t :
  TimeAdd t Second = mkTime (addSec (internalSec t) 1) (nsecOf t).
Proof.
  unfold TimeAdd, Second. pose proof (nsecOf_range t) as Hn.
  change (Z.quot 1000000000 1000000000) with 1.
  change (Z.rem 1000000000 1000000000) with 0.
  rewrite Z.add_0_r.
  assert ((1000000000 <=? nsecOf t) = false) as -> by (apply Z.leb_gt; lia).
  assert ((nsecOf t <? 0) = false) as -> by (apply Z.ltb_ge; lia). done.
Qed.

(** One second after a time that is not in the last second a [time.Time]
    holds, the Unix seconds are one more, unless they wrap around. *)
Lemma Unix_add_Second t :
  - 2 ^ 63 <= internalSec t < 2 ^ 63 - 1 -> Unix t < 2 ^ 63 - 1 ->
  Unix (TimeAdd t Second) = Unix t + 1.
Proof.
  intros Hs Hu. rewrite TimeAdd_Second. unfold Unix in *.
  rewrite internalSec_mkTime by apply nsecOf_range.
  rewrite addSec_1 by done.
  replace (internalSec t + 1 - unixToInternal)
    with (internalSec t - unixToInternal + 1) by lia.
  by apply wrap64_add_1.
Qed.

Lemma eligible_expiredb h now ttl x :
  0 < ttl -> eligible h now ttl x = expiredb h (cutoffUnix now ttl) x.
Proof. intros H. unfold eligible. by apply Z.ltb_lt in H as ->. Qed.

Lemma elem_of_purged_keep h cutoff m t x :
  x ∈ t -> expiredb h cutoff x = false -> x ∈ purged h cutoff m t.
Proof.
  intros Hx Hp.
  assert (x ∈ List.filter (fun y => negb (expiredb h cutoff y)) t) as Hf.
  { apply list_elem_of_In, filter_In. rewrite Hp. by rewrite <- list_elem_of_In. }
  unfold purged. destruct (0 <? m); [|done].
  rewrite <- (filter_neg_dropFirst _ (Z.to_nat m)) in Hf.
  by apply list_elem_of_In, filter_In in Hf as [?%list_elem_of_In _].
Qed.

(** C4: with a positive TTL and cutoff = [now.Add(-ttl).Unix()], an
    indexed record whose expiration is the cutoff is eligible: an unbounded
    [ListExpiredAt] returns it and an unbounded [PurgeExpiredAt] deletes
    it.  When the cutoff is not the largest [int64], a record whose
    expiration is the cutoff plus one second is not eligible: no
    [ListExpiredAt] returns it and no [PurgeExpiredAt] deletes it; and that
    is the expiration [now.Add(-ttl).Add(time.Second)] gives, unless the
    cutoff time lies in the last second a [time.Time] holds. *)
Theorem TTL_boundary_is_inclusive b h now ttl x :
  wf b h -> 0 < ttl -> x ∈ tree b ->
  (tsOf h x = cutoffUnix now ttl ->
     eligible h now ttl x = true
     /\ (forall m, m <= 0 ->
           exists out, ListExpiredAt b h now ttl m = Ok (Some out) /\ x ∈ out)
     /\ (forall m, m <= 0 ->
           exists b' d, PurgeExpiredAt b h now ttl m = Ok (b', d)
                        /\ x ∉ tree b'))
  /\ (cutoffUnix now ttl < 2 ^ 63 - 1 ->
      tsOf h x = cutoffUnix now ttl + 1 ->
     eligible h now ttl x = false
     /\ (forall m,
           exists out, ListExpiredAt b h now ttl m = Ok (Some out) /\ x ∉ out)
     /\ (forall m,
           exists b' d, PurgeExpiredAt b h now ttl m = Ok (b', d)
                        /\ x ∈ tree b'))
  /\ (cutoffUnix now ttl < 2 ^ 63 - 1 ->
      internalSec (TimeAdd now (wrap64 (- ttl))) < 2 ^ 63 - 1 ->
      Unix (TimeAdd (TimeAdd now (wrap64 (- ttl))) Second)
      = cutoffUnix now ttl + 1).
Proof.
  intros Hwf Hpos Hx.
  split; [|split].
  - intros Hts.
    assert (expiredb h (cutoffUnix now ttl) x = true) as He
      by (unfold expiredb; rewrite Hts; apply Z.leb_refl).
    split; [by rewrite eligible_expiredb|]. split; intros m Hm.
    + eexists. split; [by apply ListExpiredAt_spec|].
      unfold limited. assert ((0 <? m) = false) as -> by (apply Z.ltb_ge; lia).
      apply list_elem_of_In, filter_In. by rewrite <- list_elem_of_In.
    + eexists _, _. split; [by apply PurgeExpiredAt_spec|]. simpl.
      unfold purged. assert ((0 <? m) = false) as -> by (apply Z.ltb_ge; lia).
      intros H. apply list_elem_of_In, filter_In in H as [_ H].
      by rewrite He in H.
  - intros _ Hts.
    assert (expiredb h (cutoffUnix now ttl) x = false) as He.
    { unfold expiredb. rewrite Hts. apply Z.leb_gt. lia. }
    split; [by rewrite eligible_expiredb|]. split; intros m.
    + eexists. split; [by apply ListExpiredAt_spec|].
      intros H. apply limited_sub in H.
      apply list_elem_of_In, filter_In in H as [_ H]. congruence.
    + eexists _, _. split; [by apply PurgeExpiredAt_spec|]. simpl.
      by apply elem_of_purged_keep.
  - intros Hc Hs. unfold cutoffUnix in *. apply Unix_add_Second; [|done].
    split; [apply internalSec_TimeAdd|done].
Qed.

Lemma TTL_boundary_is_inclusive_witness :
  (exists out, ListExpiredAt TtlTest.b3 TtlTest.h3 TtlTest.base TtlTest.ttl30 0
               = Ok (Some out) /\ TtlTest.recB ∈ out)
  /\ (exists b' d, PurgeExpiredAt TtlTest.b3 TtlTest.h3 TtlTest.base TtlTest.ttl30 0
                   = Ok (b', d) /\ TtlTest.recB ∉ tree b')
  /\ (exists out, ListExpiredAt TtlTest.b3 TtlTest.h3 TtlTest.base TtlTest.ttl30 0
                  = Ok (Some out) /\ TtlTest.recC ∉ out)
  /\ (exists b' d, PurgeExpiredAt TtlTest.b3 TtlTest.h3 TtlTest.base TtlTest.ttl30 0
                   = Ok (b', d) /\ TtlTest.recC ∈ tree b')
  /\ Unix (TimeAdd (TimeAdd TtlTest.base (wrap64 (- TtlTest.ttl30))) Second)
     = cutoffUnix TtlTest.base TtlTest.ttl30 + 1.
Proof.
  assert (Hwf : wf TtlTest.b3 TtlTest.h3) by reflexivity.
  assert (Httl : 0 < TtlTest.ttl30) by reflexivity.
  assert (H1 : TtlTest.recB ∈ tree TtlTest.b3) by (right; left).
  assert (H2 : TtlTest.recC ∈ tree TtlTest.b3) by (right; right; left).
  destruct (TTL_boundary_is_inclusive TtlTest.b3 TtlTest.h3 TtlTest.base
              TtlTest.ttl30 TtlTest.recB Hwf Httl H1) as (HA & _ & HT).
  destruct (TTL_boundary_is_inclusive TtlTest.b3 TtlTest.h3 TtlTest.base
              TtlTest.ttl30 TtlTest.recC Hwf Httl H2) as (_ & HB & _).
  destruct (HA eq_refl) as (_ & HL & HP).
  destruct (HB eq_refl eq_refl) as (_ & HL' & HP').
  split; [apply HL; reflexivity|]. split; [apply HP; reflexivity|].
  split; [apply HL'|]. split; [apply HP'|].
  apply HT; reflexivity.
Defined.

(** C4, as stated, fails where the seconds of the cutoff wrap around: for
    now = [time.Unix(math.MinInt64, 0)] and a TTL of one second the cutoff
    is the largest [int64]; the record upserted at the cutoff time plus one
    second has the smallest [int64] as its expiration, and it is listed
    and purged. *)
Lemma TTL_boundary_wraps_at_the_largest_cutoff :
  exists b h out b' d,
    UpsertAt NewByteKeyBTree TtlTest.h0 (Some TtlTest.recA)
      (TimeAdd (TimeAdd (UnixTime (- 2 ^ 63) 0) (wrap64 (- Second))) Second)
    = Ok (b, h, true)
    /\ 0 < Second
    /\ cutoffUnix (UnixTime (- 2 ^ 63) 0) Second = 2 ^ 63 - 1
    /\ tsOf h TtlTest.recA
       = Unix (TimeAdd (TimeAdd (UnixTime (- 2 ^ 63) 0) (wrap64 (- Second))) Second)
    /\ tsOf h TtlTest.recA = - 2 ^ 63
    /\ ListExpiredAt b h (UnixTime (- 2 ^ 63) 0) Second 0 = Ok (Some out)
    /\ TtlTest.recA ∈ out
    /\ PurgeExpiredAt b h (UnixTime (- 2 ^ 63) 0) Second 0 = Ok (b', d)
    /\ d = 1
    /\ TtlTest.recA ∉ tree b'.
Proof.
  eexists _, _, _, _, _.
  split; [reflexivity|]. split; [reflexivity|]. split; [reflexivity|].
  split; [reflexivity|]. split; [reflexivity|]. split; [reflexivity|].
  split; [left|]. split; [reflexivity|]. split; [reflexivity|].
  apply not_elem_of_nil.
Qed.

Lemma filter_eligible h now ttl t :
  0 < ttl ->
  List.filter (eligible h now ttl) t
  = List.filter (expiredb h (cutoffUnix now ttl)) t.
Proof.
  intros H. apply ListFacts.filter_ext_elem. intros x _.
  by apply eligible_expiredb.
Qed.

Lemma filter_eligible_nonpositive h now ttl t :
  ttl <= 0 -> List.filter (eligible h now ttl) t = [].
Proof.
  intros H. induction t as [|x t IH]; [done|]. simpl. rewrite IH.
  unfold eligible. by assert ((0 <? ttl) = false) as -> by (apply Z.ltb_ge; lia).
Qed.

Lemma wf_purged b h cutoff m :
  wf b h -> wf {| tree := purged h cutoff m (tree b) |} h.
Proof.
  intros Hwf. pose proof (ttl_wf_sorted b h Hwf) as Hs.
  assert (Hsub : forall x, x ∈ purged h cutoff m (tree b) -> x ∈ tree b).
  { intros x. unfold purged. destruct (0 <? m).
    - apply elem_of_dropFirst.
    - intros H. by apply list_elem_of_In, filter_In in H as [?%list_elem_of_In _]. }
  apply ttl_wf_intro; simpl.
  - unfold purged. destruct (0 <? m); [|by apply BTreeFacts.sorted_filter].
    rewrite <- minus_take_filter by (by eapply BTreeFacts.sorted_NoDup).
    by apply BTreeFacts.sorted_filter.
  - intros l Hl. apply (ttl_wf_allocated b h l Hwf). by apply Hsub.
Qed.

(** C5: when more than [n > 0] records are eligible,
    [PurgeExpiredAt(now, ttl, n)] deletes [n] of them (so at most [n]),
    and a following unbounded call deletes all the remaining eligible
    records and nothing else. *)
Theorem Purge_bounded_then_unbounded b h now ttl n m :
  wf b h -> 0 < n ->
  n < Z.of_nat (length (List.filter (eligible h now ttl) (tree b))) ->
  m <= 0 ->
  exists b1 d1 b2 d2,
    PurgeExpiredAt b h now ttl n = Ok (b1, d1)
    /\ d1 <= n /\ d1 = n
    /\ Size b1 = Size b - n
    /\ PurgeExpiredAt b1 h now ttl m = Ok (b2, d2)
    /\ d2 = Z.of_nat (length (List.filter (eligible h now ttl) (tree b))) - n
    /\ List.filter (eligible h now ttl) (tree b2) = []
    /\ tree b2
       = List.filter (fun x => negb (eligible h now ttl x)) (tree b).
Proof.
  intros Hwf Hn Hcount Hm.
  assert (0 < ttl) as Httl.
  { destruct (Z.lt_ge_cases 0 ttl) as [|Hle]; [done|].
    rewrite filter_eligible_nonpositive in Hcount by lia. simpl in Hcount. lia. }
  rewrite filter_eligible in Hcount |- * by done.
  set (c := cutoffUnix now ttl) in *. set (p := expiredb h c) in *.
  assert (Hn' : (0 <? n) = true) by (by apply Z.ltb_lt).
  assert (Hm' : (0 <? m) = false) by (apply Z.ltb_ge; lia).
  assert (Hp1 : purged h c n (tree b) = dropFirst p (Z.to_nat n) (tree b))
    by (unfold purged; by rewrite Hn').
  assert (Hp2 : forall t, purged h c m t = List.filter (fun y => negb (p y)) t)
    by (intros t; unfold purged; by rewrite Hm').
  assert (Hl1 : forall t, Z.of_nat (length (limited n t))
                          = Z.min n (Z.of_nat (length t)))
    by (intros t; by rewrite length_limited, Hn').
  assert (Hl2 : forall t, limited m t = t)
    by (intros t; unfold limited; by rewrite Hm').
  pose proof (PurgeExpiredAt_spec b h now ttl n Hwf Httl) as H1.
  pose proof (wf_purged b h c n Hwf) as Hwf1.
  pose proof (PurgeExpiredAt_spec _ h now ttl m Hwf1 Httl) as H2.
  fold c p in H1, H2. cbn [tree] in H2.
  rewrite Hp2, Hl2, Hp1, filter_dropFirst, filter_neg_dropFirst in H2.
  rewrite Hp1, Hl1 in H1.
  eexists _, _, _, _. split; [exact H1|].
  split; [lia|]. split; [lia|]. split.
  - unfold Size, BTree.Len. cbn [tree].
    pose proof (length_dropFirst p (Z.to_nat n) (tree b)). lia.
  - split; [exact H2|]. cbn [tree]. split; [|split].
    + rewrite length_drop. lia.
    + rewrite filter_eligible by done. fold c p.
      rewrite ListFacts.filter_filter_and.
      clear. induction (tree b) as [|y t IH]; [done|].
      simpl. by destruct (p y).
    + apply ListFacts.filter_ext_elem. intros x _.
      subst p c. by rewrite eligible_expiredb.
Qed.

Lemma Purge_bounded_then_unbounded_witness :
  exists b1 d1 b2 d2,
    PurgeExpiredAt TtlTest.b3 TtlTest.h3 TtlTest.later TtlTest.ttl30 2 = Ok (b1, d1)
    /\ d1 = 2
    /\ PurgeExpiredAt b1 TtlTest.h3 TtlTest.later TtlTest.ttl30 0 = Ok (b2, d2)
    /\ d2 = 1
    /\ tree b2 = [].
Proof.
  destruct (Purge_bounded_then_unbounded TtlTest.b3 TtlTest.h3 TtlTest.later
              TtlTest.ttl30 2 0)
    as (b1 & d1 & b2 & d2 & H1 & _ & Hd1 & _ & H2 & Hd2 & _ & Ht);
    [reflexivity | reflexivity | reflexivity | discriminate |].
  exists b1, d1, b2, d2. split; [exact H1|]. split; [exact Hd1|].
  split; [exact H2|]. split; [exact Hd2|]. exact Ht.
Defined.

(** C6: with [ttl <= 0], for every index, [now] and limit,
    [PurgeExpiredAt] returns 0 and the index it was given, and
    [ListExpiredAt] returns the nil slice; neither touches the heap. *)
Theorem nonpositive_ttl_is_noop b h now ttl limit :
  ttl <= 0 ->
  PurgeExpiredAt b h now ttl limit = Ok (b, 0)
  /\ ListExpiredAt b h now ttl limit = Ok None.
Proof.
  intros H. unfold PurgeExpiredAt, ListExpiredAt.
  by apply Z.leb_le in H as ->.
Qed.

Lemma nonpositive_ttl_is_noop_witness :
  (PurgeExpiredAt TtlTest.b3 TtlTest.h3 TtlTest.later (-1) 0
   = Ok (TtlTest.b3, 0)
   /\ ListExpiredAt TtlTest.b3 TtlTest.h3 TtlTest.later (-1) 0 = Ok None)
  /\ (PurgeExpiredAt TtlTest.b3 TtlTest.h3 TtlTest.later 0 10
      = Ok (TtlTest.b3, 0)
      /\ ListExpiredAt TtlTest.b3 TtlTest.h3 TtlTest.later 0 10 = Ok None).
Proof.
  split.
  - apply (nonpositive_ttl_is_noop TtlTest.b3 TtlTest.h3 TtlTest.later (-1) 0).
    discriminate.
  - apply (nonpositive_ttl_is_noop TtlTest.b3 TtlTest.h3 TtlTest.later 0 10).
    discriminate.
Defined.

(** *** [UpsertAt] and the lookups *)

Lemma insertable_deref h l :
  insertable h l = true ->
  exists it, items h !! l = Some it /\ deref h l = Ok it
             /\ ((slice_len (Key it) =? 0)%nat = false).
Proof.
  unfold insertable, deref. destruct (items h !! l) as [it|]; [|done].
  intros H. exists it. by apply negb_true_iff in H.
Qed.

Lemma insertable_setExpiration h l ts p :
  insertable (setExpiration h l ts) p = insertable h p.
Proof.
  unfold insertable. destruct (decide (p = l)) as [->|Hne].
  - unfold setExpiration. simpl. rewrite list_lookup_alter_eq.
    destruct (items h !! l) as [it|]; [|done]. simpl.
    by rewrite Key_SetExpirationTime.
  - by rewrite items_setExpiration_ne.
Qed.

Lemma UpsertAt_spec b h l ts :
  insertable h l = true ->
  UpsertAt b h (Some l) ts
  = Ok ({| tree := fst (BTree.ReplaceOrInsert (keyOf h) l (tree b)) |},
        setExpiration h l ts,
        match BTree.Get (keyOf h) l (tree b) with
        | None => true
        | Some _ => false
        end).
Proof.
  intros Hi. destruct (insertable_deref h l Hi) as (it & _ & Hd & Hlen).
  unfold UpsertAt. rewrite Hd. cbn [bind]. rewrite Hlen.
  rewrite (BTreeFacts.ReplaceOrInsert_key_ext (keyOf h))
    by (intros; apply keyOf_setExpiration).
  rewrite <- BTreeFacts.ReplaceOrInsert_snd.
  by destruct (BTree.ReplaceOrInsert (keyOf h) l (tree b)).
Qed.

Lemma GetNodeItem_spec b h p :
  insertable h p = true ->
  GetNodeItem b h (Some p)
  = Ok (match BTree.Get (keyOf h) p (tree b) with
        | Some res => (Some res, true)
        | None => (None, false)
        end).
Proof.
  intros Hi. destruct (insertable_deref h p Hi) as (it & _ & Hd & Hlen).
  unfold GetNodeItem. rewrite Hd. cbn [bind]. by rewrite Hlen.
Qed.

Lemma Get_setExpiration h l ts x t :
  BTree.Get (keyOf (setExpiration h l ts)) x t = BTree.Get (keyOf h) x t.
Proof. apply BTreeFacts.Get_key_ext; intros; apply keyOf_setExpiration. Qed.

Lemma wf_setExpiration b h l ts : wf b h -> wf b (setExpiration h l ts).
Proof.
  unfold wf, wfb. rewrite !andb_true_iff. intros [Hs Ha]. split.
  - rewrite (BTreeFacts.Forall_sorted_key_ext (keyOf h)); [done|].
    intros. apply keyOf_setExpiration.
  - rewrite forallb_forall in Ha |- *. intros x Hx.
    rewrite allocated_setExpiration. by apply Ha.
Qed.

Lemma wf_UpsertAt b h l ts b' h' isNew :
  wf b h -> insertable h l = true ->
  UpsertAt b h (Some l) ts = Ok (b', h', isNew) -> wf b' h'.
Proof.
  intros Hwf Hi. rewrite UpsertAt_spec by done. intros [= <- <- _].
  pose proof (wf_setExpiration b h l ts Hwf) as Hwf'.
  pose proof (ttl_wf_sorted _ _ Hwf') as Hs'.
  apply ttl_wf_intro; cbn [tree].
  - rewrite <- (BTreeFacts.ReplaceOrInsert_key_ext (keyOf h)
                 (keyOf (setExpiration h l ts)))
      by (intros; apply keyOf_setExpiration).
    by apply BTreeFacts.ReplaceOrInsert_sorted.
  - intros x Hx. rewrite allocated_setExpiration.
    apply BTreeFacts.elem_of_ReplaceOrInsert in Hx; [|by apply ttl_wf_sorted].
    destruct Hx as [->|[Hx _]]; [by apply insertable_allocated|].
    by apply (ttl_wf_allocated b).
Qed.

(** C3, as the spec states it, fails: after [UpsertAt(first, 100)] the
    handle [GetNodeItem] returns is [first]; a later [UpsertAt] with
    another record object of the same key makes that object the indexed
    record, so the handle no longer aliases it, and the handle keeps its
    old expiration. *)
Lemma Upsert_replaces_the_record_object :
  exists b1 h1 b2 h2,
    UpsertAt NewByteKeyBTree TtlTest.hk (Some TtlTest.first) (UnixTime 100 0)
    = Ok (b1, h1, true)
    /\ GetNodeItem b1 h1 (Some TtlTest.lookup) = Ok (Some TtlTest.first, true)
    /\ UpsertAt b1 h1 (Some TtlTest.second) (UnixTime 200 0)
       = Ok (b2, h2, false)
    /\ GetNodeItem b2 h2 (Some TtlTest.lookup)
       = Ok (Some TtlTest.second, true)
    /\ TtlTest.second <> TtlTest.first
    /\ tsOf h2 TtlTest.first = 100
    /\ GetLastWriteUnix b2 h2 (Some TtlTest.lookup) = Ok (200, true).
Proof. eexists _, _, _, _. repeat split. discriminate. Qed.

(** C3, amended: [UpsertAt] makes the record object it is given the
    indexed record of its key and sets that object's expiration, touching
    no other record; it reports a new key exactly when none was indexed.
    A handle obtained before the call is the indexed record afterwards
    only if it is the object that was passed: another object is dropped
    from the index with its expiration unchanged, while upserting the
    indexed object itself leaves the tree as it was. *)
Theorem UpsertAt_installs_the_callers_record b h l ts :
  wf b h -> insertable h l = true ->
  exists b' h' isNew,
    UpsertAt b h (Some l) ts = Ok (b', h', isNew)
    /\ isNew = match BTree.Get (keyOf h) l (tree b) with
               | None => true
               | Some _ => false
               end
    /\ (forall probe, insertable h probe = true ->
           keyOf h probe = keyOf h l ->
           GetNodeItem b' h' (Some probe) = Ok (Some l, true))
    /\ tsOf h' l = Unix ts
    /\ arrays h' = arrays h
    /\ (forall l0, l0 <> l -> items h' !! l0 = items h !! l0)
    /\ (forall handle,
           GetNodeItem b h (Some l) = Ok (Some handle, true) -> handle <> l ->
           (handle ∉ tree b') /\ tsOf h' handle = tsOf h handle)
    /\ (l ∈ tree b -> tree b' = tree b)
    /\ wf b' h'.
Proof.
  intros Hwf Hi. pose proof (UpsertAt_spec b h l ts Hi) as Hspec.
  pose proof (ttl_wf_sorted b h Hwf) as Hs.
  eexists _, _, _. split; [exact Hspec|]. split; [done|].
  split; [|split; [|split; [done|split; [|split; [|split]]]]].
  - intros probe Hp Hk.
    rewrite GetNodeItem_spec by (by rewrite insertable_setExpiration).
    cbn [tree]. rewrite Get_setExpiration.
    rewrite (BTreeFacts.Get_key (keyOf h) probe l) by done.
    by rewrite BTreeFacts.Get_ReplaceOrInsert_eq.
  - apply tsOf_setExpiration_eq. by apply insertable_allocated.
  - intros l0 Hne. by apply items_setExpiration_ne.
  - intros handle HG Hne. rewrite GetNodeItem_spec in HG by done.
    destruct (BTree.Get (keyOf h) l (tree b)) as [res|] eqn:E; [|done].
    injection HG as ->. apply BTreeFacts.Get_Some in E as [Hin Hk].
    split; [|by apply tsOf_setExpiration_ne].
    cbn [tree]. intros Hin'.
    apply BTreeFacts.elem_of_ReplaceOrInsert in Hin'; [|done].
    destruct Hin' as [?|[_ ?]]; done.
  - intros Hl. cbn [tree]. by rewrite BTreeFacts.ReplaceOrInsert_same.
  - by eapply wf_UpsertAt.
Qed.

Lemma UpsertAt_installs_the_callers_record_witness :
  exists b' h' isNew,
    UpsertAt {| tree := [TtlTest.first] |} TtlTest.hk (Some TtlTest.second)
      (UnixTime 200 0) = Ok (b', h', isNew)
    /\ isNew = false
    /\ GetNodeItem b' h' (Some TtlTest.first) = Ok (Some TtlTest.second, true)
    /\ tsOf h' TtlTest.second = 200.
Proof.
  destruct (UpsertAt_installs_the_callers_record {| tree := [TtlTest.first] |}
              TtlTest.hk TtlTest.second (UnixTime 200 0))
    as (b' & h' & isNew & HU & HN & HG & Hts & _); [reflexivity|reflexivity|].
  exists b', h', isNew. split; [exact HU|]. split; [exact HN|].
  split; [|exact Hts]. apply HG; reflexivity.
Defined.

(** *** Nil records in the batch operations *)

Lemma upsertLoop_nil rest at_ pre : forall t h added,
  Forall (fun i => exists l, i = Some l /\ allocated h l = true) pre ->
  upsertLoop t h (pre ++ None :: rest) at_ added = Panic NilPointerDereference.
Proof.
  induction pre as [|i pre IH]; intros t h added Hpre; [done|].
  apply Forall_cons in Hpre as [(l & -> & Hl) Hpre].
  cbn [app upsertLoop]. unfold allocated in Hl. apply Nat.ltb_lt in Hl.
  destruct (lookup_lt_is_Some_2 _ _ Hl) as [it Hit].
  unfold deref. rewrite Hit. cbn [bind].
  destruct (slice_len (Key it) =? 0)%nat; [by apply IH|].
  destruct (BTree.ReplaceOrInsert _ l t) as [t' prev]. apply IH.
  eapply Forall_impl; [exact Hpre|]. intros i (l' & -> & Hl').
  exists l'. by rewrite allocated_setExpiration.
Qed.

Lemma deleteLoop_nil h rest pre : forall t deleted,
  Forall (fun i => exists l, i = Some l /\ allocated h l = true) pre ->
  deleteLoop t h (pre ++ None :: rest) deleted = Panic NilPointerDereference.
Proof.
  induction pre as [|i pre IH]; intros t deleted Hpre; [done|].
  apply Forall_cons in Hpre as [(l & -> & Hl) Hpre].
  cbn [app deleteLoop]. unfold allocated in Hl. apply Nat.ltb_lt in Hl.
  destruct (lookup_lt_is_Some_2 _ _ Hl) as [it Hit].
  unfold deref. rewrite Hit. cbn [bind].
  destruct (slice_len (Key it) =? 0)%nat; [by apply IH|].
  destruct (BTree.Delete _ l t) as [t' d]. by apply IH.
Qed.

(** C9 fails on the code: a nil record anywhere in the list makes
    [UpsertManyAt] and [DeleteMany] panic on [item.Key()], whereas the
    single-record [UpsertAt] and [Delete] test for nil and return. *)
Theorem batch_operations_panic_on_nil_record b h pre rest at_ :
  Forall (fun i => exists l, i = Some l /\ allocated h l = true) pre ->
  UpsertManyAt b h (pre ++ None :: rest) at_ = Panic NilPointerDereference
  /\ DeleteMany b h (pre ++ None :: rest) = Panic NilPointerDereference
  /\ UpsertAt b h None at_ = Ok (b, h, false)
  /\ Delete b h None = Ok (b, false).
Proof.
  intros Hpre. unfold UpsertManyAt, DeleteMany.
  rewrite upsertLoop_nil, deleteLoop_nil by done.
  by destruct pre.
Qed.

Lemma batch_operations_panic_on_nil_record_witness :
  UpsertManyAt NewByteKeyBTree TtlTest.h0 [Some TtlTest.recA; None; Some TtlTest.recB]
    (UnixTime 5000 0) = Panic NilPointerDereference
  /\ DeleteMany TtlTest.b3 TtlTest.h3 [Some TtlTest.recA; None; Some TtlTest.recB]
     = Panic NilPointerDereference.
Proof.
  split.
  - apply (batch_operations_panic_on_nil_record NewByteKeyBTree TtlTest.h0
             [Some TtlTest.recA] [Some TtlTest.recB] (UnixTime 5000 0)).
    constructor; [|constructor]. exists TtlTest.recA. split; reflexivity.
  - apply (batch_operations_panic_on_nil_record TtlTest.b3 TtlTest.h3
             [Some TtlTest.recA] [Some TtlTest.recB] 0).
    constructor; [|constructor]. exists TtlTest.recA. split; reflexivity.
Defined.

(** *** The invariant of the index is kept *)

Lemma wf_NewByteKeyBTree h : wf NewByteKeyBTree h.
Proof. reflexivity. Qed.

Lemma wf_PurgeExpiredAt b h now ttl m b' d :
  wf b h -> PurgeExpiredAt b h now ttl m = Ok (b', d) -> wf b' h.
Proof.
  intros Hwf. destruct (Z.lt_ge_cases 0 ttl) as [Hpos|Hle].
  - rewrite PurgeExpiredAt_spec by done. intros [= <- _]. by apply wf_purged.
  - unfold PurgeExpiredAt. assert ((ttl <=? 0) = true) as -> by (apply Z.leb_le; lia).
    by intros [= <- _].
Qed.

Lemma wf_Delete_record b h item b' d :
  wf b h -> Delete b h item = Ok (b', d) -> wf b' h.
Proof.
  intros Hwf. unfold Delete. destruct item as [l|]; [|by intros [= <- _]].
  destruct (deref h l) as [it|]; [|done]. cbn [bind].
  destruct (slice_len (Key it) =? 0)%nat; [by intros [= <- _]|].
  pose proof (ttl_wf_sorted b h Hwf) as Hs.
  pose proof (BTreeFacts.Delete_sorted (keyOf h) l (tree b) Hs) as Hs'.
  pose proof (BTreeFacts.elem_of_Delete (keyOf h) l (tree b)) as Hel.
  destruct (BTree.Delete (keyOf h) l (tree b)) as [t' dd]. simpl in *.
  intros [= <- _]. apply ttl_wf_intro; [done|]. simpl.
  intros x Hx. apply (ttl_wf_allocated b h x Hwf). by apply Hel in Hx as [? _].
Qed.

(** *** [ForEach]: the callback only reaches fresh arrays *)

Lemma frame_refl h : frame h h.
Proof. by repeat split. Qed.

Lemma slice_store_frame h0 (arrs arrs' : list (list byte)) s i byt :
  freshSlice h0 s ->
  slice_store arrs s i byt = Ok arrs' ->
  length arrs' = length arrs
  /\ forall a, (a < length (arrays h0))%nat -> arrs' !! a = arrs !! a.
Proof.
  destruct s as [|a0 off n]; [done|]. simpl. intros Hfresh.
  destruct (i <? n)%nat; [|done]. intros [= <-]. split.
  - apply length_alter.
  - intros a Ha. apply list_lookup_alter_ne. lia.
Qed.

Lemma doWrites_frame h0 seen ws : forall (arrs arrs' : list (list byte)),
  Forall (freshSlice h0) seen ->
  doWrites seen arrs ws = Ok arrs' ->
  length arrs' = length arrs
  /\ forall a, (a < length (arrays h0))%nat -> arrs' !! a = arrs !! a.
Proof.
  induction ws as [|w ws IH]; intros arrs arrs' Hseen; simpl.
  - by intros [= <-].
  - unfold doWrite. destruct (seen !! w_call w) as [s|] eqn:Es; [|done].
    destruct (slice_store arrs s (w_index w) (w_byte w)) as [arrs1|] eqn:E1;
      [|done].
    cbn [bind]. intros H2.
    assert (freshSlice h0 s) as Hs.
    { rewrite Forall_forall in Hseen. apply Hseen. by eapply list_elem_of_lookup_2. }
    destruct (slice_store_frame h0 _ _ _ _ _ Hs E1) as [Hl1 Hp1].
    destruct (IH _ _ Hseen H2) as [Hl2 Hp2]. split; [congruence|].
    intros a Ha. rewrite Hp2, Hp1; done.
Qed.

Lemma cloneBytes_frame h0 h src h1 keyCopy :
  frame h0 h -> cloneBytes h src = (h1, keyCopy) ->
  frame h0 h1 /\ freshSlice h0 keyCopy.
Proof.
  intros (Hi & Hl & Hp). unfold cloneBytes.
  destruct (slice_len src =? 0)%nat.
  - intros [= <- <-]. by repeat split.
  - intros [= <- <-]. split; [|simpl; lia]. split; [done|]. split.
    + simpl. rewrite length_app. simpl. lia.
    + intros a Ha. simpl. rewrite lookup_app_l by lia. by apply Hp.
Qed.

Lemma forEachVisit_frame {S : Type} (cb : callback S) h0 x h sigma seen
    h' sigma' seen' keep :
  frame h0 h -> Forall (freshSlice h0) seen ->
  forEachVisit cb x (h, sigma, seen) = Ok (h', sigma', seen', keep) ->
  frame h0 h' /\ Forall (freshSlice h0) seen'.
Proof.
  intros Hf Hseen. unfold forEachVisit.
  destruct (deref h x) as [it|]; [|done]. cbn [bind].
  destruct (cloneBytes h (Key it)) as [h1 keyCopy] eqn:Ec.
  destruct (cloneBytes_frame _ _ _ _ _ Hf Ec) as [(Hi1 & Hl1 & Hp1) Hfresh].
  destruct (cb sigma keyCopy _ _) as [[sg ws] kg].
  assert (Forall (freshSlice h0) (seen ++ [keyCopy])) as Hseen'
    by (apply Forall_app; split; [done|by constructor]).
  destruct (doWrites (seen ++ [keyCopy]) (arrays h1) ws) as [arrs'|] eqn:Ew;
    [|done].
  cbn [bind]. intros [= <- <- <- <-].
  destruct (doWrites_frame h0 _ _ _ _ Hseen' Ew) as [Hl2 Hp2].
  split; [|done]. split; [done|]. split; simpl.
  - lia.
  - intros a Ha. rewrite Hp2 by done. by apply Hp1.
Qed.

Lemma Ascend_forEachVisit_frame {S : Type} (cb : callback S) h0 t :
  forall h sigma seen h' sigma' seen',
    frame h0 h -> Forall (freshSlice h0) seen ->
    BTree.Ascend (forEachVisit cb) t (h, sigma, seen) = Ok (h', sigma', seen') ->
    frame h0 h'.
Proof.
  induction t as [|x t IH]; intros h sigma seen h' sigma' seen' Hf Hseen.
  - simpl. by intros [= <- <- <-].
  - rewrite BTreeFacts.Ascend_cons.
    destruct (forEachVisit cb x (h, sigma, seen)) as [[[[h1 s1] seen1] keep]|] eqn:Ev;
      [|done].
    cbn [bind]. destruct (forEachVisit_frame cb h0 _ _ _ _ _ _ _ _ Hf Hseen Ev)
      as [Hf1 Hseen1].
    destruct keep.
    + by apply IH.
    + by intros [= <- <- <-].
Qed.

Lemma ForEach_frame {S : Type} b h (cb : callback S) sigma h' sigma' e :
  ForEach b h (Some cb) sigma = Ok (h', sigma', e) -> frame h h'.
Proof.
  unfold ForEach.
  destruct (BTree.Ascend (forEachVisit cb) (tree b) (h, sigma, []))
    as [[[h1 s1] seen1]|] eqn:Ea; [|done].
  cbn [bind]. intros [= <- <- <-].
  eapply Ascend_forEachVisit_frame; [apply frame_refl|constructor|exact Ea].
Qed.

(** Within the frame, every record reads the same key and timestamp. *)
Lemma keyOf_frame h0 h l :
  heap_ok h0 = true -> frame h0 h -> keyOf h l = keyOf h0 l.
Proof.
  intros Hok (Hi & _ & Hp). unfold keyOf. rewrite Hi.
  destruct (items h0 !! l) as [it|] eqn:E; [|done].
  unfold heap_ok in Hok. rewrite forallb_forall in Hok.
  assert (slice_ok (arrays h0) (Key it) = true) as Hs.
  { apply Hok, list_elem_of_In. by eapply list_elem_of_lookup_2. }
  destruct (Key it) as [|a off n]; [done|]. simpl in *.
  destruct (arrays h0 !! a) as [arr|] eqn:Ea; [|done].
  rewrite Hp by (by eapply lookup_lt_Some). by rewrite Ea.
Qed.

Lemma tsOf_frame h0 h l : frame h0 h -> tsOf h l = tsOf h0 l.
Proof. intros (Hi & _). unfold tsOf. by rewrite Hi. Qed.

Lemma deref_frame h0 h l : frame h0 h -> deref h l = deref h0 l.
Proof. intros (Hi & _). unfold deref. by rewrite Hi. Qed.

Lemma Get_frame h0 h x t :
  heap_ok h0 = true -> frame h0 h ->
  BTree.Get (keyOf h) x t = BTree.Get (keyOf h0) x t.
Proof. intros. apply BTreeFacts.Get_key_ext; intros; by apply keyOf_frame. Qed.

Lemma lookups_frame b h0 h probe :
  heap_ok h0 = true -> frame h0 h ->
  Has b h probe = Has b h0 probe
  /\ GetNodeItem b h probe = GetNodeItem b h0 probe
  /\ GetLastWriteUnix b h probe = GetLastWriteUnix b h0 probe.
Proof.
  intros Hok Hf. unfold Has, GetNodeItem, GetLastWriteUnix.
  destruct probe as [l|]; [|done].
  rewrite (deref_frame h0 h l Hf), (Get_frame h0 h l (tree b) Hok Hf).
  repeat split.
  destruct (tree b) as [|x t] eqn:Et; [done|].
  destruct (deref h0 l); [|done]. cbn [bind].
  destruct (BTree.Get (keyOf h0) l (x :: t)); [|done].
  by rewrite (tsOf_frame h0 h).
Qed.

Lemma presented_frame b h0 h :
  heap_ok h0 = true -> frame h0 h -> presented b h = presented b h0.
Proof.
  intros Hok Hf. unfold presented. apply map_ext. intros l.
  by rewrite (keyOf_frame h0 h), (tsOf_frame h0 h).
Qed.

Lemma wf_frame b h0 h : heap_ok h0 = true -> frame h0 h -> wf b h0 -> wf b h.
Proof.
  intros Hok Hf. unfold wf, wfb. rewrite !andb_true_iff. intros [Hs Ha]. split.
  - rewrite (BTreeFacts.Forall_sorted_key_ext (keyOf h0)); [done|].
    intros. by apply keyOf_frame.
  - rewrite forallb_forall in Ha |- *. intros x Hx.
    unfold allocated. destruct Hf as (-> & _). by apply Ha.
Qed.

(** *** What a traversal presents *)

Lemma cloneBytes_bytes h src h1 keyCopy :
  cloneBytes h src = (h1, keyCopy) ->
  slice_bytes (arrays h1) keyCopy = slice_bytes (arrays h) src.
Proof.
  unfold cloneBytes. destruct (slice_len src =? 0)%nat eqn:E.
  - intros [= <- <-]. apply Nat.eqb_eq in E.
    destruct src as [|a off n]; [done|]. simpl in *. subst n. by rewrite take_0.
  - destruct src as [|a off n]; [done|]. intros [= <- <-].
    cbn [slice_bytes slice_len arrays]. rewrite list_lookup_middle by done.
    cbn [default from_option id]. rewrite drop_0, take_take. by rewrite Nat.min_id.
Qed.

Lemma Ascend_collect h0 t : forall h sigma seen,
  heap_ok h0 = true -> frame h0 h ->
  (forall l, l ∈ t -> allocated h0 l = true) ->
  exists h' seen',
    BTree.Ascend (forEachVisit collect) t (h, sigma, seen)
    = Ok (h', sigma ++ map (fun l => (keyOf h0 l, tsOf h0 l)) t, seen').
Proof.
  induction t as [|x t IH]; intros h sigma seen Hok Hf Hall.
  - simpl. rewrite app_nil_r. eauto.
  - rewrite BTreeFacts.Ascend_cons. unfold forEachVisit at 1.
    assert (allocated h0 x = true) as Hx by (apply Hall; by left).
    unfold allocated in Hx. apply Nat.ltb_lt in Hx.
    destruct (lookup_lt_is_Some_2 _ _ Hx) as [it Hit].
    assert (items h !! x = Some it) as Hit' by (destruct Hf as (-> & _); done).
    unfold deref. rewrite Hit'. cbn [bind].
    destruct (cloneBytes h (Key it)) as [h1 keyCopy] eqn:Ec.
    destruct (cloneBytes_frame _ _ _ _ _ Hf Ec) as [Hf1 _].
    unfold collect at 1. cbn [doWrites bind].
    rewrite (cloneBytes_bytes _ _ _ _ Ec).
    assert (slice_bytes (arrays h) (Key it) = keyOf h0 x) as ->.
    { rewrite <- (keyOf_frame h0 h x Hok Hf). unfold keyOf. by rewrite Hit'. }
    assert (GetExpirationTime it = tsOf h0 x) as ->
      by (unfold tsOf; by rewrite Hit).
    edestruct (IH {| arrays := arrays h1; items := items h1 |}
                  (sigma ++ [(keyOf h0 x, tsOf h0 x)]) (seen ++ [keyCopy]) Hok)
      as (h' & seen' & ->).
    + by destruct h1.
    + intros l Hl. apply Hall. by right.
    + cbn [map]. rewrite <- app_assoc. eauto.
Qed.

(** A traversal with the recording callback shows exactly [presented]. *)
Lemma ForEach_collect b h :
  heap_ok h = true -> wf b h ->
  exists h', ForEach b h (Some collect) [] = Ok (h', presented b h, None).
Proof.
  intros Hok Hwf. unfold ForEach.
  destruct (Ascend_collect h (tree b) h [] [] Hok (frame_refl h)) as (h' & seen' & ->).
  - intros l Hl. by apply (ttl_wf_allocated b).
  - cbn [bind]. eauto.
Qed.

(** C8: whatever a [ForEach] callback writes through the key slices it
    receives, the records and every backing array that existed before the
    call are unchanged, so every record still reads the same key and
    timestamp; a later traversal presents the same sequence and [Has],
    [GetNodeItem] and [GetLastWriteUnix] answer the same, as before the
    call and as after a run with any other callback, one that writes
    nothing included. *)
Theorem ForEach_key_copies_are_defensive {S : Type} b h (cb : callback S)
    sigma h' sigma' e :
  heap_ok h = true ->
  ForEach b h (Some cb) sigma = Ok (h', sigma', e) ->
  items h' = items h
  /\ (forall a, (a < length (arrays h))%nat -> arrays h' !! a = arrays h !! a)
  /\ (forall l, keyOf h' l = keyOf h l /\ tsOf h' l = tsOf h l)
  /\ presented b h' = presented b h
  /\ (forall probe,
        Has b h' probe = Has b h probe
        /\ GetNodeItem b h' probe = GetNodeItem b h probe
        /\ GetLastWriteUnix b h' probe = GetLastWriteUnix b h probe)
  /\ (forall (S0 : Type) (cb0 : callback S0) sigma0 h0' sigma0' e0,
        ForEach b h (Some cb0) sigma0 = Ok (h0', sigma0', e0) ->
        presented b h' = presented b h0'
        /\ forall probe,
             Has b h' probe = Has b h0' probe
             /\ GetNodeItem b h' probe = GetNodeItem b h0' probe
             /\ GetLastWriteUnix b h' probe = GetLastWriteUnix b h0' probe)
  /\ (wf b h -> wf b h').
Proof.
  intros Hok Hrun. pose proof (ForEach_frame _ _ _ _ _ _ _ Hrun) as Hf.
  split; [by destruct Hf|]. split; [by destruct Hf as (_ & _ & ?)|].
  split; [intros l; split; [by apply keyOf_frame|by apply tsOf_frame]|].
  split; [by apply presented_frame|].
  split; [intros probe; by apply lookups_frame|].
  split; [|by apply wf_frame].
  intros S0 cb0 sigma0 h0' sigma0' e0 Hrun0.
  pose proof (ForEach_frame _ _ _ _ _ _ _ Hrun0) as Hf0.
  split.
  - by rewrite (presented_frame b h h'), (presented_frame b h h0').
  - intros probe.
    destruct (lookups_frame b h h' probe Hok Hf) as (-> & -> & ->).
    destruct (lookups_frame b h h0' probe Hok Hf0) as (-> & -> & ->).
    done.
Qed.

Lemma ForEach_key_copies_are_defensive_witness :
  exists h',
    ForEach TtlTest.b3 TtlTest.h3 (Some TtlTest.scribble) []
    = Ok (h', [[x61]; [x62]; [x63]], None)
    /\ arrays h' = [[x61]; [x62]; [x63]; [x7a]; [x7a]; [x7a]]
    /\ presented TtlTest.b3 h' = presented TtlTest.b3 TtlTest.h3
    /\ Has TtlTest.b3 h' (Some TtlTest.recA) = Ok true.
Proof.
  eexists. split; [reflexivity|]. split; [reflexivity|].
  destruct (ForEach_key_copies_are_defensive TtlTest.b3 TtlTest.h3
              TtlTest.scribble [] _ _ _ eq_refl eq_refl)
    as (_ & _ & _ & Hp & Hl & _).
  split; [exact Hp|].
  destruct (Hl (Some TtlTest.recA)) as (-> & _). reflexivity.
Defined.

End TtlFacts.

(** ** The append-log store: further properties *)

Module StorageProps.
Import Storage StorageInv StorageFacts.

(** *** Slots are never shared *)

Lemma separate_Add s index v : wf s -> separate s -> separate (Add s index v).
Proof.
  intros Hwf Hsep. unfold Add.
  destruct (BTree.Get k (probe index) (tree s)) eqn:HG; [done|].
  intros e1 e2 H1 H2 Hp. cbn [tree] in H1, H2.
  apply BTreeFacts.elem_of_ReplaceOrInsert in H1; [|by apply wf_sorted].
  apply BTreeFacts.elem_of_ReplaceOrInsert in H2; [|by apply wf_sorted].
  destruct H1 as [->|[H1 _]]; destruct H2 as [->|[H2 _]].
  - done.
  - pose proof (wf_pos s e2 Hwf H2). simpl in Hp. lia.
  - pose proof (wf_pos s e1 Hwf H1). simpl in Hp. lia.
  - by apply Hsep.
Qed.

Lemma separate_Delete s index s' fl :
  wf s -> separate s -> Delete s index = Ok (s', fl) -> separate s'.
Proof.
  intros Hwf Hsep.
  destruct (BTree.Get k (probe index) (tree s)) as [e|] eqn:HG.
  - destruct (Delete_present s index e Hwf HG) as [fl' ->]. intros [= <- _].
    intros e1 e2 H1 H2. cbn [tree] in H1, H2.
    apply BTreeFacts.elem_of_Delete in H1 as [H1 _]; [|by apply wf_sorted].
    apply BTreeFacts.elem_of_Delete in H2 as [H2 _]; [|by apply wf_sorted].
    by apply Hsep.
  - rewrite Delete_missing_key by done. by intros [= <- _].
Qed.

Lemma renumber_pos n es i e :
  renumber n es !! i = Some e -> pos e = (n + i)%nat.
Proof.
  rewrite renumber_lookup. destruct (es !! i); [|done]. by intros [= <-].
Qed.

Lemma separate_CompactIncremental s s' :
  wf s -> CompactIncremental s = Ok s' -> separate s'.
Proof.
  intros Hwf. rewrite CompactIncremental_spec by done. intros [= <-].
  intros e1 e2 H1 H2 Hp. cbn [tree rebuild snd] in H1, H2.
  apply list_elem_of_lookup in H1 as [i1 H1].
  apply list_elem_of_lookup in H2 as [i2 H2].
  pose proof (renumber_pos _ _ _ _ H1). pose proof (renumber_pos _ _ _ _ H2).
  assert (i1 = i2) as -> by lia. congruence.
Qed.

Lemma step_separate s o s' :
  wf s -> separate s -> step s o = Ok s' -> separate s'.
Proof.
  intros Hwf Hsep. destruct o as [index v|index|]; simpl.
  - intros [= <-]. by apply separate_Add.
  - destruct (Delete s index) as [[sd fl]|] eqn:HD; [|done]. simpl.
    intros [= <-]. by eapply separate_Delete.
  - by apply separate_CompactIncremental.
Qed.

Lemma run_sound os : forall s s',
  wf s -> separate s -> run s os = Ok s' -> wf s' /\ separate s'.
Proof.
  induction os as [|o os IH]; intros s s' Hwf Hsep Hrun.
  - simpl in Hrun. by injection Hrun as <-.
  - cbn [run] in Hrun. destruct (step s o) as [s1|] eqn:Hstep; [|done].
    cbn [bind] in Hrun. apply (IH s1 s'); [| |done].
    + by eapply step_wf.
    + by eapply step_separate.
Qed.

Lemma reachable_sound s : reachable s -> wf s /\ separate s.
Proof.
  intros (d & c & th & b & os & Hrun).
  apply (run_sound os _ s (wf_New d c th b)); [|done].
  intros e1 e2 H. by apply elem_of_nil in H.
Qed.

(** *** [Get] of the other keys *)

Lemma Get_Add_other s index v other :
  wf s -> other <> index -> Get (Add s index v) other = Get s other.
Proof.
  intros Hwf Hne. unfold Add.
  destruct (BTree.Get k (probe index) (tree s)) eqn:HG; [done|].
  unfold Get. cbn [tree storage].
  rewrite BTreeFacts.Get_ReplaceOrInsert_ne by (by apply wf_sorted || done).
  destruct (BTree.Get k (probe other) (tree s)) as [e|] eqn:HO; [|done].
  apply BTreeFacts.Get_Some in HO as [Hin _].
  by rewrite lookup_app_l by (by apply wf_pos).
Qed.

Lemma Get_Delete_other s index s' fl other :
  wf s -> separate s -> other <> index ->
  Delete s index = Ok (s', fl) -> Get s' other = Get s other.
Proof.
  intros Hwf Hsep Hne.
  destruct (BTree.Get k (probe index) (tree s)) as [e|] eqn:HG.
  - destruct (Delete_present s index e Hwf HG) as [fl' ->]. intros [= <- _].
    unfold Get. cbn [tree storage].
    rewrite BTreeFacts.Get_Delete_ne by (by apply wf_sorted || done).
    destruct (BTree.Get k (probe other) (tree s)) as [e'|] eqn:HO; [|done].
    destruct (BTreeFacts.Get_Some k _ _ _ HG) as [Hin Hk].
    destruct (BTreeFacts.Get_Some k _ _ _ HO) as [Hin' Hk'].
    rewrite list_lookup_insert_ne; [done|].
    intros Hp. apply Hne. simpl in Hk, Hk'.
    rewrite <- Hk, <- Hk'. by rewrite (Hsep e e' Hin Hin' Hp).
  - rewrite Delete_missing_key by done. by intros [= <- _].
Qed.


(** *** The tombstone counter *)

Lemma wrap64_succ a : wrap64 (wrap64 a + 1) = wrap64 (a + 1).
Proof.
  unfold wrap64. f_equal.
  replace ((a + 2 ^ 63) mod 2 ^ 64 - 2 ^ 63 + 1 + 2 ^ 63)
    with ((a + 2 ^ 63) mod 2 ^ 64 + 1) by lia.
  rewrite Z.add_mod_idemp_l by lia. f_equal. lia.
Qed.

Lemma wrap64_small a : - 2 ^ 63 <= a < 2 ^ 63 -> wrap64 a = a.
Proof. intros H. unfold wrap64. rewrite Z.mod_small; lia. Qed.

Lemma length_rebuild (st : list value) es :
  length (fst (rebuild st es)) = length (snd (rebuild st es)).
Proof. unfold rebuild. simpl. by rewrite length_map, length_renumber. Qed.

Lemma step_counted s o s' : wf s -> counted s -> step s o = Ok s' -> counted s'.
Proof.
  intros Hwf [Hle Ht]. destruct o as [index v|index|]; simpl.
  - intros [= <-]. destruct (BTree.Get k (probe index) (tree s)) as [e|] eqn:HG.
    + by rewrite (Add_present s index v e HG).
    + unfold counted. rewrite (Len_Add_fresh s index v HG).
      unfold Add. rewrite HG. cbn [storage tombstones]. rewrite length_app. simpl.
      split; [lia|]. rewrite Ht. f_equal. lia.
  - destruct (Delete s index) as [[sd fl]|] eqn:HD; [|done]. simpl.
    intros [= <-]. destruct (BTree.Get k (probe index) (tree s)) as [e|] eqn:HG.
    + pose proof (Len_Delete_present s index e sd fl Hwf HG HD) as HL.
      destruct (Delete_present s index e Hwf HG) as [fl' HD'].
      rewrite HD' in HD. injection HD as <- _. unfold counted. rewrite HL.
      cbn [storage tombstones]. rewrite length_insert. split; [lia|].
      rewrite Ht, wrap64_succ. f_equal. lia.
    + rewrite Delete_missing_key in HD by done. by injection HD as <- _.
  - rewrite CompactIncremental_spec by done. intros [= <-].
    unfold counted, Len, BTree.Len, rebuild. cbn [tree storage tombstones fst snd].
    rewrite length_map, length_renumber. split; [lia|]. by rewrite Z.sub_diag.
Qed.

Lemma run_counted os : forall s s',
  wf s -> counted s -> run s os = Ok s' -> counted s'.
Proof.
  induction os as [|o os IH]; intros s s' Hwf Hc Hrun.
  - simpl in Hrun. by injection Hrun as <-.
  - cbn [run] in Hrun. destruct (step s o) as [s1|] eqn:Hstep; [|done].
    cbn [bind] in Hrun. apply (IH s1 s'); [| |done].
    + by eapply step_wf.
    + by eapply step_counted.
Qed.

(** *** What a compaction leaves *)

Lemma renumber_id n es :
  (forall i e, es !! i = Some e -> pos e = (n + i)%nat) -> renumber n es = es.
Proof.
  revert n. induction es as [|e es IH]; intros n H; [done|]. simpl.
  rewrite IH.
  - pose proof (H 0%nat e eq_refl) as Hp. destruct e as [ke pe]. simpl in *.
    f_equal. f_equal. lia.
  - intros i x Hx. rewrite (H (S i) x Hx). lia.
Qed.

Lemma filter_all {A} (f : A -> bool) l :
  (forall x, x ∈ l -> f x = true) -> List.filter f l = l.
Proof.
  induction l as [|x l IH]; intros H; [done|]. simpl.
  rewrite (H x) by (by left). f_equal. apply IH. intros y Hy. apply H. by right.
Qed.

Lemma live_renumber (st : list value) ls e' :
  (forall e, e ∈ ls -> live st e = true) ->
  e' ∈ renumber 0 ls -> live (map (slot st) ls) e' = true.
Proof.
  intros Hl H. apply list_elem_of_lookup in H as [i Hi].
  rewrite renumber_lookup in Hi.
  destruct (ls !! i) as [e|] eqn:He; [|done].
  injection Hi as <-.
  pose proof (Hl e (list_elem_of_lookup_2 _ _ _ He)) as Hle.
  unfold live, slot in Hle |- *. cbn [pos].
  by rewrite list_lookup_fmap, He.
Qed.

Lemma slot_renumber (st : list value) ls :
  map (slot (map (slot st) ls)) (renumber 0 ls) = map (slot st) ls.
Proof.
  apply list_eq. intros i.
  rewrite !list_lookup_fmap, renumber_lookup.
  destruct (ls !! i) as [e|] eqn:He; [|done].
  simpl. unfold slot at 1. cbn [pos]. by rewrite list_lookup_fmap, He.
Qed.

Lemma length_filter_le {A} (f : A -> bool) l :
  (length (List.filter f l) <= length l)%nat.
Proof. induction l as [|x l IH]; simpl; [lia|]. destruct (f x); simpl; lia. Qed.

Lemma Get_total s index : wf s -> exists v found, Get s index = Ok (v, found).
Proof.
  intros Hwf. destruct (BTree.Get k (probe index) (tree s)) as [e|] eqn:HG.
  - rewrite (Get_wf s index e Hwf HG). eauto.
  - unfold Get. rewrite HG. eauto.
Qed.

Lemma reachable_three batch :
  reachable (StorageTest.three batch).
Proof.
  exists 16, 10, StorageTest.threshold30, batch,
    [OpAdd StorageTest.k1 StorageTest.foo; OpAdd StorageTest.k2 StorageTest.bar;
     OpAdd StorageTest.k3 StorageTest.baz].
  reflexivity.
Defined.


(** *** Properties of the store *)

(** X1: [Add] of a key the store does not hold appends the value to the
    backing sequence: [Get] then returns that value (a nil value too) with
    [true], [Len] grows by one, the tombstone counter stays, and [Get]
    answers as before for every other key. *)
Theorem Add_of_a_new_key_is_found s index v :
  reachable s -> Get s index = Ok (None, false) ->
  Get (Add s index v) index = Ok (v, true)
  /\ Len (Add s index v) = Len s + 1
  /\ storage (Add s index v) = storage s ++ [v]
  /\ tombstones (Add s index v) = tombstones s
  /\ forall other, other <> index -> Get (Add s index v) other = Get s other.
Proof.
  intros Hr HGet. destruct (reachable_sound s Hr) as [Hwf _].
  destruct (Get_absent _ _ _ HGet) as [HN _].
  split; [by apply Get_Add_fresh|]. split; [by apply Len_Add_fresh|].
  split; [unfold Add; by rewrite HN|]. split; [unfold Add; by rewrite HN|].
  intros other Hne. by apply Get_Add_other.
Qed.

Lemma Add_of_a_new_key_is_found_witness :
  Get (Add (StorageTest.three 100) [x04; x00; x00; x00; x00; x00; x00; x00] None)
      [x04; x00; x00; x00; x00; x00; x00; x00] = Ok (None, true)
  /\ Len (Add (StorageTest.three 100) [x04; x00; x00; x00; x00; x00; x00; x00] None)
     = Len (StorageTest.three 100) + 1.
Proof.
  destruct (Add_of_a_new_key_is_found (StorageTest.three 100)
              [x04; x00; x00; x00; x00; x00; x00; x00] None
              (reachable_three 100) eq_refl) as (H1 & H2 & _).
  exact (conj H1 H2).
Defined.



(** X3: in every store built by the constructor and a run of [Add],
    [Delete] and [CompactIncremental], the index never has more entries
    than the backing sequence has slots, and the tombstone counter is the
    number of slots no entry points at (as an [int64]; exactly that number
    while the sequence is shorter than 2^63). *)
Theorem tombstones_count_the_unindexed_slots s :
  reachable s ->
  Len s <= Z.of_nat (length (storage s))
  /\ tombstones s = wrap64 (Z.of_nat (length (storage s)) - Len s)
  /\ (Z.of_nat (length (storage s)) < 2 ^ 63 ->
      tombstones s = Z.of_nat (length (storage s)) - Len s).
Proof.
  intros (d & c & th & b & os & Hrun).
  assert (counted s) as [Hle Ht].
  { apply (run_counted os _ s (wf_New d c th b)); [|done]. by split. }
  split; [done|]. split; [done|]. intros Hsmall. rewrite Ht.
  apply wrap64_small. unfold Len, BTree.Len in *. lia.
Qed.

Lemma tombstones_count_the_unindexed_slots_witness :
  Len (StorageTest.three 100) <= Z.of_nat (length (storage (StorageTest.three 100)))
  /\ tombstones (StorageTest.three 100)
     = wrap64 (Z.of_nat (length (storage (StorageTest.three 100)))
               - Len (StorageTest.three 100))
  /\ (Z.of_nat (length (storage (StorageTest.three 100))) < 2 ^ 63 ->
      tombstones (StorageTest.three 100)
      = Z.of_nat (length (storage (StorageTest.three 100)))
        - Len (StorageTest.three 100)).
Proof.
  exact (tombstones_count_the_unindexed_slots (StorageTest.three 100)
           (reachable_three 100)).
Defined.

(** X4: no run of [Add], [Delete] and [CompactIncremental] from a new
    store panics, whatever the keys, values, threshold and batch size, and
    in the store it produces [Get] of any key returns without indexing the
    backing sequence out of range. *)
Theorem operations_never_panic d c th b os :
  exists s,
    run (NewBTreeIndexedStorage d c th b) os = Ok s
    /\ forall index, exists v found, Get s index = Ok (v, found).
Proof.
  destruct (run_wf os _ (wf_New d c th b)) as (s & Hrun & Hwf).
  exists s. split; [done|]. intros index. by apply Get_total.
Qed.

(** X5: when no indexed entry has a nil value and the scan covers the
    whole index (batch size not positive, or at least [Len]), a compaction
    cannot be observed through the API: [Len] and the answer of [Get] for
    every key are unchanged; the tombstone counter is reset and the
    backing sequence has exactly [Len] slots. *)
Theorem complete_compaction_is_invisible s :
  reachable s ->
  forallb (live (storage s)) (tree s) = true ->
  batchSize s <= 0 \/ Len s <= batchSize s ->
  exists s',
    CompactIncremental s = Ok s'
    /\ Len s' = Len s
    /\ (forall index, Get s' index = Get s index)
    /\ tombstones s' = 0
    /\ Z.of_nat (length (storage s')) = Len s.
Proof.
  intros Hr Hlive Hb. destruct (reachable_sound s Hr) as [Hwf _].
  rewrite forallb_forall in Hlive.
  destruct (CompactIncremental_complete_scan_is_invisible s Hwf) as
    (s' & Hc & HL & HG & Ht); [|done|].
  { intros e He. apply Hlive. by apply list_elem_of_In. }
  exists s'. split; [done|]. split; [done|]. split; [done|]. split; [done|].
  rewrite <- HL. rewrite CompactIncremental_spec in Hc by done. injection Hc as <-.
  unfold Len, BTree.Len, rebuild. cbn [tree storage fst snd].
  by rewrite length_map, length_renumber.
Qed.

Lemma complete_compaction_is_invisible_witness :
  exists s',
    CompactIncremental (StorageTest.three 100) = Ok s'
    /\ Len s' = Len (StorageTest.three 100)
    /\ (forall index, Get s' index = Get (StorageTest.three 100) index)
    /\ tombstones s' = 0
    /\ Z.of_nat (length (storage s')) = Len (StorageTest.three 100).
Proof.
  apply (complete_compaction_is_invisible (StorageTest.three 100)
           (reachable_three 100)).
  - reflexivity.
  - right. vm_compute. discriminate.
Defined.

(** X6: what [CompactIncremental] returns is dense: the backing sequence
    has exactly [Len] slots, none of them nil, the i-th entry in key order
    points at slot i, and the tombstone counter is zero.  Compacting it
    again returns the same store. *)
Theorem CompactIncremental_is_idempotent s s' :
  reachable s -> CompactIncremental s = Ok s' ->
  Z.of_nat (length (storage s')) = Len s'
  /\ tombstones s' = 0
  /\ (forall i e, tree s' !! i = Some e -> pos e = i)
  /\ (forall i, storage s' !! i <> Some None)
  /\ CompactIncremental s' = Ok s'.
Proof.
  intros Hr Hc. destruct (reachable_sound s Hr) as [Hwf _].
  pose proof (wf_CompactIncremental s s' Hwf Hc) as Hwf'.
  pose proof (CompactIncremental_spec s' Hwf') as Hspec'.
  rewrite CompactIncremental_spec in Hc by done. injection Hc as <-.
  unfold rebuild in *. cbn [tree storage tombstones batchSize threshold degree fst snd] in *.
  set (ls := List.filter (live (storage s)) (scanned (batchSize s) (tree s))) in *.
  assert (Hlive : forall e, e ∈ ls -> live (storage s) e = true).
  { intros e He. by apply list_elem_of_In, filter_In in He as [_ ?]. }
  assert (Hpos : forall i e, renumber 0 ls !! i = Some e -> pos e = i).
  { intros i e He. by rewrite (renumber_pos _ _ _ _ He). }
  split; [unfold Len, BTree.Len; cbn [tree]; by rewrite length_map, length_renumber|].
  split; [done|]. split; [exact Hpos|]. split.
  - intros i Hi. rewrite list_lookup_fmap in Hi.
    destruct (ls !! i) as [e|] eqn:He; [|done].
    pose proof (Hlive e (list_elem_of_lookup_2 _ _ _ He)) as Hl.
    simpl in Hi. injection Hi as Hi. unfold live in Hl. by rewrite Hi in Hl.
  - rewrite Hspec'. f_equal.
    assert (Hsc : scanned (batchSize s) (renumber 0 ls) = renumber 0 ls).
    { unfold scanned. destruct (0 <? batchSize s) eqn:Hb; [|done].
      apply take_ge. rewrite length_renumber.
      etrans; [apply length_filter_le|].
      unfold scanned. rewrite Hb. apply Z.ltb_lt in Hb.
      rewrite length_take. lia. }
    rewrite Hsc.
    rewrite (filter_all _ _ (fun e' => live_renumber (storage s) ls e' Hlive)).
    rewrite slot_renumber. rewrite renumber_id; [done|].
    intros i e He. by rewrite (Hpos i e He).
Qed.

Lemma CompactIncremental_is_idempotent_witness :
  exists s',
    CompactIncremental (StorageTest.three 2) = Ok s'
    /\ Z.of_nat (length (storage s')) = Len s'
    /\ CompactIncremental s' = Ok s'.
Proof.
  eexists. split; [reflexivity|].
  destruct (CompactIncremental_is_idempotent (StorageTest.three 2) _
              (reachable_three 2) eq_refl) as (H1 & _ & _ & _ & H2).
  exact (conj H1 H2).
Defined.

(** X7: a compaction never invents or alters a value: whatever [Get]
    finds afterwards it found before, with the same value, which is not
    nil.  In particular a key that was deleted stays deleted, also when the
    scan stops early. *)
Theorem CompactIncremental_keeps_found_values s s' index v :
  reachable s -> CompactIncremental s = Ok s' ->
  Get s' index = Ok (v, true) ->
  Get s index = Ok (v, true) /\ v <> None.
Proof.
  intros Hr Hc HGet. destruct (reachable_sound s Hr) as [Hwf _].
  pose proof (wf_CompactIncremental s s' Hwf Hc) as Hwf'.
  destruct (Get_found _ _ _ HGet) as (e' & He' & _).
  destruct (BTreeFacts.Get_Some k _ _ _ He') as [Hin' Hk']. simpl in Hk'.
  pose proof Hc as Hc'.
  rewrite CompactIncremental_spec in Hc' by done. injection Hc' as <-.
  cbn [tree] in Hin'.
  destruct (elem_of_rebuild _ _ _ Hin') as [(e & He & Hl & Hk) _].
  pose proof (Get_rebuild_present s _ e Hwf Hc He Hl) as HG'.
  rewrite <- Hk, Hk' in HG'. rewrite HG' in HGet. injection HGet as <-.
  split.
  - apply scanned_sub in He. rewrite <- Hk', Hk.
    apply Get_wf; [done|]. apply BTreeFacts.Get_elem; [by apply wf_sorted|done|done].
  - unfold live in Hl. by destruct (slot (storage s) e).
Qed.

Lemma CompactIncremental_keeps_found_values_witness :
  exists s',
    CompactIncremental (StorageTest.three 2) = Ok s'
    /\ Get (StorageTest.three 2) StorageTest.k1 = Ok (StorageTest.foo, true)
    /\ StorageTest.foo <> None.
Proof.
  eexists. split; [reflexivity|].
  exact (CompactIncremental_keeps_found_values (StorageTest.three 2) _
           StorageTest.k1 StorageTest.foo (reachable_three 2) eq_refl eq_refl).
Defined.



(** *** Runs with compactions in between *)

Lemma run_app os1 os2 s :
  run s (os1 ++ os2) = bind (run s os1) (fun s1 => run s1 os2).
Proof.
  revert s. induction os1 as [|o os1 IH]; intros s; [done|].
  cbn [app run]. destruct (step s o) as [s1|]; [|done]. cbn [bind]. apply IH.
Qed.

Lemma clientOps_app_inv os : forall a b,
  clientOps os = a ++ b ->
  exists os1 os2, os = os1 ++ os2 /\ clientOps os1 = a /\ clientOps os2 = b.
Proof.
  induction os as [|o os IH]; intros a b H.
  - symmetry in H. apply app_eq_nil in H as [-> ->]. by exists [], [].
  - destruct o as [index v|index|].
    + cbn [clientOps List.filter] in H. fold (clientOps os) in H.
      destruct a as [|o' a].
      * exists [], (OpAdd index v :: os). simpl in H. by rewrite <- H.
      * injection H as <- H. destruct (IH a b H) as (os1 & os2 & -> & <- & <-).
        by exists (OpAdd index v :: os1), os2.
    + cbn [clientOps List.filter] in H. fold (clientOps os) in H.
      destruct a as [|o' a].
      * exists [], (OpDelete index :: os). simpl in H. by rewrite <- H.
      * injection H as <- H. destruct (IH a b H) as (os1 & os2 & -> & <- & <-).
        by exists (OpDelete index :: os1), os2.
    + cbn [clientOps List.filter] in H. fold (clientOps os) in H.
      destruct (IH a b H) as (os1 & os2 & -> & <- & <-).
      by exists (OpCompact :: os1), os2.
Qed.

Lemma dense_CompactIncremental s s' :
  wf s -> CompactIncremental s = Ok s' -> dense s'.
Proof.
  intros Hwf Hc. split; [|by apply (separate_CompactIncremental s)].
  rewrite CompactIncremental_spec in Hc by done. injection Hc as <-.
  unfold rebuild. cbn [tree storage fst snd]. intros e He.
  apply (live_renumber (storage s) _ e); [|done].
  intros x Hx. by apply list_elem_of_In, filter_In in Hx as [_ ?].
Qed.

(** A compaction whose scan reaches the end changes nothing that [Get]
    and [Len] show. *)
Lemma complete_scan_step s m :
  wf s -> dense s -> holds s m ->
  batchSize s <= 0 \/ Len s <= batchSize s ->
  exists s',
    CompactIncremental s = Ok s'
    /\ wf s' /\ dense s' /\ holds s' m
    /\ Len s' = Len s /\ batchSize s' = batchSize s.
Proof.
  intros Hwf [Hlive Hinj] [Hin Hout] Hb.
  destruct (CompactIncremental_complete_scan_is_invisible s Hwf Hlive Hb)
    as (s' & Hc & HL & HG & _).
  exists s'. split; [done|]. split; [by eapply wf_CompactIncremental|].
  split; [by eapply dense_CompactIncremental|].
  split; [split; intros; rewrite HG; auto|]. split; [done|].
  rewrite CompactIncremental_spec in Hc by done. by injection Hc as <-.
Qed.

Lemma add_step s m index v :
  wf s -> dense s -> holds s m -> index ∉ map fst m -> v <> None ->
  wf (Add s index v) /\ dense (Add s index v)
  /\ holds (Add s index v) (m ++ [(index, v)])
  /\ Len (Add s index v) = Len s + 1
  /\ batchSize (Add s index v) = batchSize s.
Proof.
  intros Hwf Hd [Hin Hout] Hfresh Hv.
  destruct (Get_absent _ _ _ (Hout index Hfresh)) as [HN _].
  split; [by apply wf_Add|]. split; [by apply dense_Add|].
  split; [|split; [by apply Len_Add_fresh|by apply batchSize_Add]].
  split.
  - intros kv Hkv. apply elem_of_app in Hkv as [Hkv|Hkv].
    + rewrite Get_Add_other; [by apply Hin|done|].
      intros E. apply Hfresh. rewrite <- E. apply list_elem_of_fmap. by exists kv.
    + apply list_elem_of_singleton in Hkv as ->. by apply Get_Add_fresh.
  - intros idx Hidx. rewrite fmap_app, not_elem_of_app in Hidx.
    destruct Hidx as [Hm Hi]. rewrite Get_Add_other; [by apply Hout|done|].
    intros ->. apply Hi. by left.
Qed.

Lemma NoDup_keys_filter (p : key * value -> bool) m :
  NoDup (map fst m) -> NoDup (map fst (List.filter p m)).
Proof.
  induction m as [|kv m IH]; [done|]. cbn [map]. intros H.
  apply NoDup_cons in H as [Hk H]. cbn [List.filter].
  destruct (p kv); [|by apply IH]. cbn [map]. apply NoDup_cons. split; [|by apply IH].
  intros Hin. apply Hk. apply list_elem_of_fmap in Hin as (kv' & -> & Hin).
  apply list_elem_of_In, filter_In in Hin as [Hin _].
  apply list_elem_of_fmap. exists kv'. by rewrite list_elem_of_In.
Qed.

Lemma elem_of_without index (m : list (key * value)) kv :
  kv ∈ List.filter (fun kv => negb (Bytes.eqb (fst kv) index)) m
  <-> kv ∈ m /\ fst kv <> index.
Proof.
  rewrite list_elem_of_In, filter_In, <- list_elem_of_In, negb_true_iff.
  split; intros [H1 H2]; (split; [done|]).
  - intros E. apply BytesFacts.eqb_spec in E. congruence.
  - destruct (Bytes.eqb (fst kv) index) eqn:E; [|done].
    apply BytesFacts.eqb_spec in E. done.
Qed.

Lemma delete_step s m index :
  wf s -> dense s -> holds s m ->
  exists s' fl,
    Delete s index = Ok (s', fl)
    /\ wf s' /\ dense s'
    /\ holds s' (List.filter (fun kv => negb (Bytes.eqb (fst kv) index)) m)
    /\ (index ∈ map fst m -> Len s' = Len s - 1)
    /\ batchSize s' = batchSize s.
Proof.
  intros Hwf Hd [Hin Hout].
  assert (exists s' fl, Delete s index = Ok (s', fl) /\ batchSize s' = batchSize s)
    as (s' & fl & HD & Hbs).
  { destruct (BTree.Get k (probe index) (tree s)) as [e|] eqn:HG.
    - destruct (Delete_present s index e Hwf HG) as [fl ->]. eauto.
    - rewrite Delete_missing_key by done. eauto. }
  exists s', fl. split; [done|]. split; [by eapply wf_Delete|].
  split; [by eapply dense_Delete|]. split; [|split; [|done]].
  - split.
    + intros kv Hkv. apply elem_of_without in Hkv as [Hkv Hne].
      rewrite (Get_Delete_other s index s' fl (fst kv) Hwf (proj2 Hd) Hne HD).
      by apply Hin.
    + intros idx Hidx.
      destruct (List.list_eq_dec Byte.byte_eq_dec idx index) as [->|Hne].
      * by eapply Get_Delete.
      * rewrite (Get_Delete_other s index s' fl idx Hwf (proj2 Hd) Hne HD).
        apply Hout. intros Hi. apply Hidx.
        apply list_elem_of_fmap in Hi as (kv & -> & Hkv).
        apply list_elem_of_fmap. exists kv. split; [done|].
        by apply elem_of_without.
  - intros Hi. apply list_elem_of_fmap in Hi as (kv & -> & Hkv).
    destruct (Get_found _ _ _ (Hin kv Hkv)) as (e & He & _).
    by eapply Len_Delete_present.
Qed.

Lemma run_adds os : forall kvs s m,
  clientOps os = map (fun kv => OpAdd (fst kv) (snd kv)) kvs ->
  wf s -> dense s -> holds s m ->
  NoDup (map fst (m ++ kvs)) -> (forall kv, kv ∈ kvs -> snd kv <> None) ->
  batchSize s <= 0 \/ Len s + Z.of_nat (length kvs) <= batchSize s ->
  exists s',
    run s os = Ok s'
    /\ wf s' /\ dense s' /\ holds s' (m ++ kvs)
    /\ Len s' = Len s + Z.of_nat (length kvs)
    /\ batchSize s' = batchSize s.
Proof.
  induction os as [|o os IH]; intros kvs s m Hc Hwf Hd Hh Hnd Hv Hb.
  - destruct kvs; [|done]. exists s. rewrite app_nil_r. simpl.
    split; [done|]. split; [done|]. split; [done|]. split; [done|]. split; [lia|done].
  - destruct o as [index v|index|];
      cbn [clientOps List.filter] in Hc; fold (clientOps os) in Hc.
    + destruct kvs as [|[k0 v0] kvs]; [done|]. cbn [map fst snd] in Hc.
      injection Hc as -> -> Hc.
      assert (k0 ∉ map fst m) as Hfresh.
      { rewrite fmap_app in Hnd. apply NoDup_app in Hnd as (_ & Hdis & _).
        intros Hi. apply (Hdis k0 Hi). by left. }
      destruct (add_step s m k0 v0 Hwf Hd Hh Hfresh)
        as (Hwf1 & Hd1 & Hh1 & HL1 & Hb1);
        [apply (Hv (k0, v0)); by left|].
      destruct (IH kvs (Add s k0 v0) (m ++ [(k0, v0)]) Hc Hwf1 Hd1 Hh1)
        as (s' & Hr & Hwf' & Hd' & Hh' & HL' & Hb').
      { by rewrite <- app_assoc. }
      { intros kv Hkv. apply Hv. by right. }
      { rewrite Hb1, HL1. cbn [length] in Hb. lia. }
      exists s'. rewrite <- app_assoc in Hh'. cbn [run step bind length].
      split; [done|]. split; [done|]. split; [done|]. split; [done|].
      split; [lia|congruence].
    + by destruct kvs.
    + destruct (complete_scan_step s m Hwf Hd Hh)
        as (s1 & Hc1 & Hwf1 & Hd1 & Hh1 & HL1 & Hb1); [lia|].
      destruct (IH kvs s1 m Hc Hwf1 Hd1 Hh1 Hnd Hv)
        as (s' & Hr & Hwf' & Hd' & Hh' & HL' & Hb'); [rewrite Hb1, HL1; lia|].
      exists s'. cbn [run step]. rewrite Hc1. cbn [bind].
      split; [done|]. split; [done|]. split; [done|]. split; [done|].
      split; [lia|congruence].
Qed.

Lemma run_deletes os : forall dels s m,
  clientOps os = map OpDelete dels ->
  wf s -> dense s -> holds s m ->
  NoDup (map fst m) -> NoDup dels -> (forall idx, idx ∈ dels -> idx ∈ map fst m) ->
  batchSize s <= 0 \/ Len s <= batchSize s ->
  exists s',
    run s os = Ok s'
    /\ wf s' /\ dense s'
    /\ (forall kv, kv ∈ m -> fst kv ∉ dels -> Get s' (fst kv) = Ok (snd kv, true))
    /\ (forall idx, idx ∈ dels \/ idx ∉ map fst m -> Get s' idx = Ok (None, false))
    /\ Len s' = Len s - Z.of_nat (length dels)
    /\ batchSize s' = batchSize s.
Proof.
  induction os as [|o os IH]; intros dels s m Hc Hwf Hd Hh Hnd Hndd Hsub Hb.
  - destruct dels; [|done]. exists s. simpl.
    split; [done|]. split; [done|]. split; [done|].
    split; [intros kv Hkv _; by apply Hh|].
    split; [|split; [lia|done]].
    intros idx [Hi|Hi]; [by apply elem_of_nil in Hi|by apply Hh].
  - destruct o as [index v|index|];
      cbn [clientOps List.filter] in Hc; fold (clientOps os) in Hc.
    + by destruct dels.
    + destruct dels as [|k0 dels]; [done|]. cbn [map] in Hc.
      injection Hc as -> Hc. apply NoDup_cons in Hndd as [Hk0 Hndd].
      destruct (delete_step s m k0 Hwf Hd Hh)
        as (s1 & fl & HD & Hwf1 & Hd1 & Hh1 & HL1 & Hb1).
      specialize (HL1 (Hsub k0 (list_elem_of_here _ _))).
      set (m1 := List.filter (fun kv => negb (Bytes.eqb (fst kv) k0)) m) in *.
      assert (Hkeys1 : forall idx, idx ∈ map fst m1 <-> idx ∈ map fst m /\ idx <> k0).
      { intros idx. rewrite !list_elem_of_fmap. split.
        - intros (kv & -> & Hkv). apply elem_of_without in Hkv as [Hkv Hne].
          split; [by exists kv|done].
        - intros [(kv & -> & Hkv) Hne]. exists kv. split; [done|].
          by apply elem_of_without. }
      destruct (IH dels s1 m1 Hc Hwf1 Hd1 Hh1)
        as (s' & Hr & Hwf' & Hd' & Hin' & Hout' & HL' & Hb').
      { by apply NoDup_keys_filter. }
      { done. }
      { intros idx Hi. apply Hkeys1. split; [apply Hsub; by right|].
        intros ->. done. }
      { rewrite Hb1, HL1. lia. }
      exists s'. cbn [run step]. rewrite HD. cbn [bind fst length].
      split; [done|]. split; [done|]. split; [done|].
      split; [|split; [|split; [lia|congruence]]].
      * intros kv Hkv Hne. rewrite not_elem_of_cons in Hne. destruct Hne as [Hne Hnd'].
        apply Hin'; [|done]. by apply elem_of_without.
      * intros idx Hi. apply Hout'.
        destruct Hi as [Hi|Hi].
        -- apply elem_of_cons in Hi as [->|Hi]; [|by left].
           right. rewrite Hkeys1. by intros [_ ?].
        -- right. rewrite Hkeys1. by intros [? _].
    + destruct (complete_scan_step s m Hwf Hd Hh Hb)
        as (s1 & Hc1 & Hwf1 & Hd1 & Hh1 & HL1 & Hb1).
      destruct (IH dels s1 m Hc Hwf1 Hd1 Hh1 Hnd Hndd Hsub)
        as (s' & Hr & Hwf' & Hd' & Hin' & Hout' & HL' & Hb'); [rewrite Hb1, HL1; lia|].
      exists s'. cbn [run step]. rewrite Hc1. cbn [bind].
      split; [done|]. split; [done|]. split; [done|]. split; [done|].
      split; [done|]. split; [lia|congruence].
Qed.

(** X9: the round trip of the store's test, for any input and any
    schedule of the compactions: after [Add] of N distinct keys with non-nil
    values to a new store and [Delete] of M distinct keys among them, with
    [CompactIncremental] run any number of times in between, [Len] is
    N - M, every deleted key is not found and every other key is found with
    the value it was added with, when the batch size lets every scan reach
    the end (not positive, or at least N); and so it is after one more
    [CompactIncremental]. *)
Theorem round_trip_with_a_complete_scan d c th b kvs dels os :
  NoDup (map fst kvs) -> (forall kv, kv ∈ kvs -> snd kv <> None) ->
  NoDup dels -> (forall idx, idx ∈ dels -> idx ∈ map fst kvs) ->
  b <= 0 \/ Z.of_nat (length kvs) <= b ->
  clientOps os = map (fun kv => OpAdd (fst kv) (snd kv)) kvs ++ map OpDelete dels ->
  exists s s',
    run (NewBTreeIndexedStorage d c th b) os = Ok s
    /\ Len s = Z.of_nat (length kvs) - Z.of_nat (length dels)
    /\ CompactIncremental s = Ok s'
    /\ Len s' = Z.of_nat (length kvs) - Z.of_nat (length dels)
    /\ (forall idx, idx ∈ dels ->
          Get s idx = Ok (None, false) /\ Get s' idx = Ok (None, false))
    /\ (forall kv, kv ∈ kvs -> fst kv ∉ dels ->
          Get s (fst kv) = Ok (snd kv, true)
          /\ Get s' (fst kv) = Ok (snd kv, true)).
Proof.
  intros Hnd Hv Hndd Hsub Hb Hc.
  destruct (clientOps_app_inv os _ _ Hc) as (os1 & os2 & -> & Hc1 & Hc2).
  set (s0 := NewBTreeIndexedStorage d c th b).
  assert (Hh0 : holds s0 []) by (split; [intros kv Hkv; by apply elem_of_nil in Hkv|done]).
  destruct (run_adds os1 kvs s0 [] Hc1 (wf_New d c th b) (dense_New d c th b) Hh0)
    as (s1 & Hr1 & Hwf1 & Hd1 & Hh1 & HL1 & Hb1); [done|done|change (batchSize s0) with b; change (Len s0) with 0; lia|].
  change (Len s0) with 0 in HL1. change (batchSize s0) with b in Hb1.
  cbn [app] in Hh1.
  destruct (run_deletes os2 dels s1 kvs Hc2 Hwf1 Hd1 Hh1 Hnd Hndd Hsub)
    as (s2 & Hr2 & Hwf2 & Hd2 & Hin2 & Hout2 & HL2 & Hb2); [rewrite Hb1, HL1; lia|].
  assert (Hbound : batchSize s2 <= 0 \/ Len s2 <= batchSize s2)
    by (rewrite Hb2, Hb1, HL2, HL1; lia).
  destruct (CompactIncremental_complete_scan_is_invisible s2 Hwf2 (proj1 Hd2) Hbound)
    as (s3 & Hc3 & HL3 & HG3 & _).
  exists s2, s3. rewrite run_app, Hr1. cbn [bind].
  split; [done|]. split; [lia|]. split; [done|]. split; [lia|].
  split.
  - intros idx Hi. rewrite HG3. split; apply Hout2; by left.
  - intros kv Hkv Hne. rewrite HG3. split; by apply Hin2.
Qed.

Lemma round_trip_with_a_complete_scan_witness :
  exists s s',
    run (NewBTreeIndexedStorage 16 10 StorageTest.threshold30 100)
      [OpAdd StorageTest.k1 StorageTest.foo; OpAdd StorageTest.k2 StorageTest.bar;
       OpAdd StorageTest.k3 StorageTest.baz; OpDelete StorageTest.k2; OpCompact]
    = Ok s
    /\ Len s = 2
    /\ CompactIncremental s = Ok s'
    /\ Len s' = 2
    /\ Get s' StorageTest.k2 = Ok (None, false)
    /\ Get s' StorageTest.k3 = Ok (StorageTest.baz, true).
Proof.
  destruct (round_trip_with_a_complete_scan 16 10 StorageTest.threshold30 100
              [(StorageTest.k1, StorageTest.foo); (StorageTest.k2, StorageTest.bar);
               (StorageTest.k3, StorageTest.baz)] [StorageTest.k2]
              [OpAdd StorageTest.k1 StorageTest.foo; OpAdd StorageTest.k2 StorageTest.bar;
               OpAdd StorageTest.k3 StorageTest.baz; OpDelete StorageTest.k2; OpCompact])
    as (s & s' & Hr & HL & Hc & HL' & Hdel & Hkept).
  - simpl.
    repeat (apply NoDup_cons_2;
            [rewrite ?not_elem_of_cons; repeat split;
             try (intros E; vm_compute in E; discriminate E); apply not_elem_of_nil|]).
    apply NoDup_nil_2.
  - intros kv Hkv. repeat (apply elem_of_cons in Hkv as [->|Hkv]; [discriminate|]).
    by apply elem_of_nil in Hkv.
  - apply NoDup_cons_2; [apply not_elem_of_nil|apply NoDup_nil_2].
  - intros idx Hidx. apply list_elem_of_singleton in Hidx as ->.
    right. left.
  - right. simpl. lia.
  - reflexivity.
  - exists s, s'. split; [exact Hr|]. split; [exact HL|]. split; [exact Hc|].
    split; [exact HL'|]. split.
    + apply (Hdel StorageTest.k2). left.
    + apply (Hkept (StorageTest.k3, StorageTest.baz)).
      * right. right. left.
      * intros Hin. apply list_elem_of_singleton in Hin.
        vm_compute in Hin. discriminate Hin.
Defined.

End StorageProps.

(** ** The TTL index: further properties *)

Module TtlProps.
Import TtlObservers.
Import TtlBTree TtlFacts.

(** *** Lookups *)

Lemma Has_spec b h p :
  insertable h p = true ->
  Has b h (Some p)
  = Ok (match BTree.Get (keyOf h) p (tree b) with Some _ => true | None => false end).
Proof.
  intros Hp. destruct (insertable_deref h p Hp) as (it & _ & Hd & Hk).
  unfold Has. rewrite Hd. cbn [bind]. by rewrite Hk.
Qed.

Lemma GetLastWriteUnix_spec b h p :
  insertable h p = true ->
  GetLastWriteUnix b h (Some p)
  = Ok (match BTree.Get (keyOf h) p (tree b) with
        | Some res => (tsOf h res, true)
        | None => (0, false)
        end).
Proof.
  intros Hp. destruct (insertable_deref h p Hp) as (it & _ & Hd & Hk).
  unfold GetLastWriteUnix. destruct (tree b) as [|y r] eqn:Ht; [done|].
  by rewrite Hd.
Qed.

Lemma Delete_spec b h l :
  insertable h l = true ->
  Delete b h (Some l)
  = Ok ({| tree := fst (BTree.Delete (keyOf h) l (tree b)) |},
        match BTree.Get (keyOf h) l (tree b) with Some _ => true | None => false end).
Proof.
  intros Hl. destruct (insertable_deref h l Hl) as (it & _ & Hd & Hk).
  unfold Delete. rewrite Hd. cbn [bind]. rewrite Hk.
  pose proof (BTreeFacts.Delete_snd (keyOf h) l (tree b)) as Hs.
  destruct (BTree.Delete (keyOf h) l (tree b)) as [t' d]. simpl in *. by rewrite Hs.
Qed.

Lemma Get_upsert_other h l ts p t :
  BTree.sorted (keyOf h) t -> keyOf h p <> keyOf h l ->
  BTree.Get (keyOf (setExpiration h l ts)) p
    (fst (BTree.ReplaceOrInsert (keyOf h) l t))
  = BTree.Get (keyOf h) p t.
Proof.
  intros Hs Hne. rewrite Get_setExpiration.
  by apply BTreeFacts.Get_ReplaceOrInsert_ne.
Qed.

(** X10: [UpsertAt] of a record with a non-empty key is seen by the
    lookups: [Has] answers [true] and [GetLastWriteUnix] the Unix seconds of
    the given time.  The returned flag is [true] exactly when the key was
    not indexed before, and [Size] grows by one in that case only.  Keys
    other than the record's are answered as before by [Has], [GetNodeItem]
    and [GetLastWriteUnix]. *)
Theorem UpsertAt_is_seen_by_the_lookups b h l ts :
  wf b h -> insertable h l = true ->
  exists b' h' isNew,
    UpsertAt b h (Some l) ts = Ok (b', h', isNew)
    /\ Has b' h' (Some l) = Ok true
    /\ GetLastWriteUnix b' h' (Some l) = Ok (Unix ts, true)
    /\ Has b h (Some l) = Ok (negb isNew)
    /\ Size b' = Size b + (if isNew then 1 else 0)
    /\ forall p, insertable h p = true -> keyOf h p <> keyOf h l ->
         Has b' h' (Some p) = Has b h (Some p)
         /\ GetNodeItem b' h' (Some p) = GetNodeItem b h (Some p)
         /\ GetLastWriteUnix b' h' (Some p) = GetLastWriteUnix b h (Some p).
Proof.
  intros Hwf Hl. pose proof (ttl_wf_sorted b h Hwf) as Hs.
  rewrite (UpsertAt_spec b h l ts Hl). eexists _, _, _. split; [done|].
  set (h' := setExpiration h l ts).
  set (b' := {| tree := fst (BTree.ReplaceOrInsert (keyOf h) l (tree b)) |}).
  assert (Hl' : insertable h' l = true) by (by unfold h'; rewrite insertable_setExpiration).
  assert (HG : BTree.Get (keyOf h') l (tree b') = Some l).
  { unfold h', b'. cbn [tree]. rewrite Get_setExpiration.
    apply BTreeFacts.Get_ReplaceOrInsert_eq. }
  split; [by rewrite (Has_spec b' h' l Hl'), HG|].
  split.
  { rewrite (GetLastWriteUnix_spec b' h' l Hl'), HG. unfold h'.
    by rewrite tsOf_setExpiration_eq by (by apply insertable_allocated). }
  split; [rewrite (Has_spec b h l Hl); by destruct (BTree.Get (keyOf h) l (tree b))|].
  split.
  { unfold Size, BTree.Len, b'. cbn [tree].
    rewrite BTreeFacts.length_ReplaceOrInsert.
    destruct (BTree.Get (keyOf h) l (tree b)); lia. }
  intros p Hp Hne.
  assert (Hp' : insertable h' p = true) by (by unfold h'; rewrite insertable_setExpiration).
  assert (HGp : BTree.Get (keyOf h') p (tree b') = BTree.Get (keyOf h) p (tree b))
    by (by apply Get_upsert_other).
  rewrite (Has_spec b' h' p Hp'), (Has_spec b h p Hp).
  rewrite (GetNodeItem_spec b' h' p Hp'), (GetNodeItem_spec b h p Hp).
  rewrite (GetLastWriteUnix_spec b' h' p Hp'), (GetLastWriteUnix_spec b h p Hp).
  rewrite HGp. split; [done|]. split; [done|].
  destruct (BTree.Get (keyOf h) p (tree b)) as [res|] eqn:HR; [|done].
  apply BTreeFacts.Get_Some in HR as [_ Hk].
  unfold h'. rewrite tsOf_setExpiration_ne; [done|]. intros ->. by apply Hne.
Qed.

Lemma UpsertAt_is_seen_by_the_lookups_witness :
  exists b' h' isNew,
    UpsertAt {| tree := [TtlTest.first] |} TtlTest.hk (Some TtlTest.second)
      (UnixTime 200 0) = Ok (b', h', isNew)
    /\ Has b' h' (Some TtlTest.second) = Ok true
    /\ GetLastWriteUnix b' h' (Some TtlTest.second) = Ok (Unix (UnixTime 200 0), true)
    /\ Has {| tree := [TtlTest.first] |} TtlTest.hk (Some TtlTest.second)
       = Ok (negb isNew)
    /\ Size b' = Size {| tree := [TtlTest.first] |} + (if isNew then 1 else 0).
Proof.
  destruct (UpsertAt_is_seen_by_the_lookups {| tree := [TtlTest.first] |} TtlTest.hk
              TtlTest.second (UnixTime 200 0) eq_refl eq_refl)
    as (b' & h' & isNew & H1 & H2 & H3 & H4 & H5 & _).
  exists b', h', isNew. exact (conj H1 (conj H2 (conj H3 (conj H4 H5)))).
Defined.

(** X11: [Delete] of a record with a non-empty key returns whether the
    key was indexed; afterwards [Has] answers [false] for it, [Size] has
    dropped by one if it was indexed and not at all otherwise, and a second
    [Delete] returns [false] and changes nothing.  Keys other than the
    record's are answered as before by the lookups. *)
Theorem Delete_record_removes_only_its_key b h l :
  wf b h -> insertable h l = true ->
  exists b' d,
    Delete b h (Some l) = Ok (b', d)
    /\ Has b h (Some l) = Ok d
    /\ Has b' h (Some l) = Ok false
    /\ Size b' = Size b - (if d then 1 else 0)
    /\ wf b' h
    /\ Delete b' h (Some l) = Ok (b', false)
    /\ forall p, insertable h p = true -> keyOf h p <> keyOf h l ->
         Has b' h (Some p) = Has b h (Some p)
         /\ GetNodeItem b' h (Some p) = GetNodeItem b h (Some p)
         /\ GetLastWriteUnix b' h (Some p) = GetLastWriteUnix b h (Some p).
Proof.
  intros Hwf Hl. pose proof (ttl_wf_sorted b h Hwf) as Hs.
  pose proof (Delete_spec b h l Hl) as HD. rewrite HD.
  eexists _, _. split; [done|].
  set (b' := {| tree := fst (BTree.Delete (keyOf h) l (tree b)) |}) in *.
  assert (HG : BTree.Get (keyOf h) l (tree b') = None)
    by (by apply BTreeFacts.Get_Delete_eq).
  split; [by rewrite (Has_spec b h l Hl)|].
  split; [by rewrite (Has_spec b' h l Hl), HG|].
  split.
  { unfold Size, BTree.Len, b'. cbn [tree].
    destruct (BTree.Get (keyOf h) l (tree b)) as [y|] eqn:E.
    - rewrite (BTreeFacts.length_Delete_Some _ _ _ _ E). lia.
    - rewrite BTreeFacts.Delete_absent by done. lia. }
  split; [by eapply wf_Delete_record|].
  split.
  { rewrite (Delete_spec b' h l Hl), HG.
    by rewrite BTreeFacts.Delete_absent by done. }
  intros p Hp Hne.
  rewrite (Has_spec b' h p Hp), (Has_spec b h p Hp).
  rewrite (GetNodeItem_spec b' h p Hp), (GetNodeItem_spec b h p Hp).
  rewrite (GetLastWriteUnix_spec b' h p Hp), (GetLastWriteUnix_spec b h p Hp).
  unfold b'. cbn [tree]. by rewrite BTreeFacts.Get_Delete_ne.
Qed.


Lemma Delete_record_removes_only_its_key_witness :
  exists b' d,
    Delete TtlTest.b3 TtlTest.h3 (Some TtlTest.recB) = Ok (b', d)
    /\ Has TtlTest.b3 TtlTest.h3 (Some TtlTest.recB) = Ok d
    /\ Has b' TtlTest.h3 (Some TtlTest.recB) = Ok false
    /\ Size b' = Size TtlTest.b3 - (if d then 1 else 0).
Proof.
  destruct (Delete_record_removes_only_its_key TtlTest.b3 TtlTest.h3 TtlTest.recB
              eq_refl eq_refl)
    as (b' & d & H1 & H2 & H3 & H4 & _).
  exists b', d. exact (conj H1 (conj H2 (conj H3 H4))).
Defined.

(** *** The batch operations *)

Lemma allocated_deref h l :
  allocated h l = true -> exists it, items h !! l = Some it /\ deref h l = Ok it.
Proof.
  unfold allocated, deref. intros H. apply Nat.ltb_lt in H.
  destruct (lookup_lt_is_Some_2 _ _ H) as [it Hit]. exists it. by rewrite Hit.
Qed.

Lemma upsertLoop_spec at_ ls : forall t h added,
  wf {| tree := t |} h ->
  Forall (fun l => allocated h l = true) ls ->
  exists t' h',
    upsertLoop t h (map Some ls) at_ added
    = Ok (t', h', added + (Z.of_nat (length t') - Z.of_nat (length t)))
    /\ wf {| tree := t' |} h'
    /\ (forall x, keyOf h' x = keyOf h x)
    /\ (forall x, insertable h' x = insertable h x)
    /\ (forall x res, BTree.Get (keyOf h) x t = Some res ->
          exists res', BTree.Get (keyOf h) x t' = Some res'
                       /\ (tsOf h res = Unix at_ -> tsOf h' res' = Unix at_))
    /\ (forall l, l ∈ ls -> insertable h l = true ->
          exists res, BTree.Get (keyOf h) l t' = Some res
                      /\ tsOf h' res = Unix at_)
    /\ (forall x, (forall l, l ∈ ls -> insertable h l = true ->
                             keyOf h l <> keyOf h x) ->
          BTree.Get (keyOf h) x t' = BTree.Get (keyOf h) x t)
    /\ (forall y, (y ∈ ls -> insertable h y = false) -> tsOf h' y = tsOf h y).
Proof.
  induction ls as [|l ls IH]; intros t h added Hwf Hall.
  - exists t, h. simpl. split; [f_equal; f_equal; lia|].
    split; [done|]. split; [done|]. split; [done|].
    split; [intros x res Hx; by exists res|].
    split; [intros l Hl; by apply elem_of_nil in Hl|]. by split.
  - apply Forall_cons in Hall as [Hl Hall].
    destruct (allocated_deref h l Hl) as (it & Hit & Hd).
    cbn [map upsertLoop]. rewrite Hd. cbn [bind].
    destruct (slice_len (Key it) =? 0)%nat eqn:Hk.
    + assert (Hni : insertable h l = false) by (unfold insertable; by rewrite Hit, Hk).
      destruct (IH t h added Hwf Hall) as (t' & h' & HL & Hwf' & HK & HI & HP & HB & HU & HT).
      exists t', h'. split; [done|]. split; [done|]. split; [done|]. split; [done|].
      split; [done|]. split; [|split].
      * intros l0 Hl0 Hi0. apply elem_of_cons in Hl0 as [->|Hl0]; [congruence|].
        by apply HB.
      * intros x Hx. apply HU. intros l0 Hl0. apply Hx. by right.
      * intros y Hy. apply HT. intros Hin. apply Hy. by right.
    + assert (Hi : insertable h l = true) by (unfold insertable; by rewrite Hit, Hk).
      pose proof (ttl_wf_sorted _ _ Hwf) as Hs. cbn [tree] in Hs.
      set (h1 := setExpiration h l at_).
      rewrite (BTreeFacts.ReplaceOrInsert_key_ext (keyOf h) (keyOf h1))
        by (intros; apply keyOf_setExpiration).
      pose proof (BTreeFacts.ReplaceOrInsert_snd (keyOf h) l t) as Hsnd.
      pose proof (BTreeFacts.length_ReplaceOrInsert (keyOf h) l t) as Hlen.
      pose proof (BTreeFacts.Get_ReplaceOrInsert_eq (keyOf h) l t) as Hgeq.
      pose proof (fun x => BTreeFacts.Get_ReplaceOrInsert_ne (keyOf h) l x t Hs) as Hgne.
      pose proof (UpsertAt_spec {| tree := t |} h l at_ Hi) as HUp.
      cbn [tree] in HUp.
      pose proof (wf_UpsertAt _ _ _ _ _ _ _ Hwf Hi HUp) as Hwf1. fold h1 in Hwf1.
      destruct (BTree.ReplaceOrInsert (keyOf h) l t) as [t1 prev].
      cbn [fst snd] in *. subst prev.
      assert (Hall1 : Forall (fun l0 => allocated h1 l0 = true) ls).
      { eapply Forall_impl; [exact Hall|]. intros y Hy.
        unfold h1. by rewrite allocated_setExpiration. }
      destruct (IH t1 h1
                  (match BTree.Get (keyOf h) l t with
                   | None => added + 1 | Some _ => added end) Hwf1 Hall1)
        as (t' & h' & HL & Hwf' & HK & HI & HP & HB & HU & HT).
      assert (HKe : forall x u, BTree.Get (keyOf h1) x u = BTree.Get (keyOf h) x u)
        by (intros; apply Get_setExpiration).
      exists t', h'. split.
      { rewrite HL. f_equal. f_equal.
        destruct (BTree.Get (keyOf h) l t); lia. }
      split; [done|].
      split; [intros x; rewrite HK; apply keyOf_setExpiration|].
      split; [intros x; rewrite HI; apply insertable_setExpiration|].
      assert (Hself : BTree.Get (keyOf h1) l t1 = Some l /\ tsOf h1 l = Unix at_).
      { split; [|by apply tsOf_setExpiration_eq].
        by rewrite HKe. }
      split; [|split; [|split]].
      * intros x res Hx.
        destruct (List.list_eq_dec Byte.byte_eq_dec (keyOf h x) (keyOf h l)) as [E|E].
        -- destruct Hself as [Hg Ht].
           rewrite (BTreeFacts.Get_key (keyOf h1) l x) in Hg
             by (unfold h1; by rewrite !keyOf_setExpiration).
           destruct (HP x l Hg) as (res' & Hr' & Hs'). exists res'.
           rewrite <- HKe. split; [done|]. intros _. by apply Hs'.
        -- assert (BTree.Get (keyOf h1) x t1 = Some res) as Hg.
           { rewrite HKe. rewrite <- Hx. by apply Hgne. }
           destruct (HP x res Hg) as (res' & Hr' & Hs'). exists res'.
           rewrite <- HKe. split; [done|]. intros Hst. apply Hs'.
           destruct (decide (res = l)) as [->|Hne]; [by apply Hself|].
           unfold h1. by rewrite tsOf_setExpiration_ne.
      * intros l0 Hl0 Hi0. apply elem_of_cons in Hl0 as [->|Hl0].
        -- destruct Hself as [Hg Ht]. destruct (HP l l Hg) as (res' & Hr' & Hs').
           exists res'. rewrite <- HKe. split; [done|]. by apply Hs'.
        -- destruct (HB l0 Hl0) as (res & Hr & Hst).
           { unfold h1. by rewrite insertable_setExpiration. }
           exists res. by rewrite <- HKe.
      * intros x Hx. rewrite <- !HKe. rewrite HU.
        -- rewrite !HKe. apply Hgne.
           intros E. apply (Hx l); [by left|done|done].
        -- intros l0 Hl0 Hi0. unfold h1. rewrite !keyOf_setExpiration.
           apply Hx; [by right|]. unfold h1 in Hi0.
           by rewrite insertable_setExpiration in Hi0.
      * intros y Hy. rewrite HT.
        -- unfold h1. apply tsOf_setExpiration_ne. intros ->.
           rewrite Hy in Hi by (by left). done.
        -- intros Hin. unfold h1. rewrite insertable_setExpiration.
           apply Hy. by right.
Qed.


(** X12: [UpsertManyAt] on a list without nil records returns the number
    of keys that were new, which is the growth of [Size] (a key that occurs
    twice in the list, or is indexed already, counts once or not at all).
    Every listed record with a non-empty key is then indexed with the Unix
    seconds of the given time; no key is lost; keys outside the list are
    answered as before by the lookups. *)
Theorem UpsertManyAt_counts_the_new_keys b h ls at_ :
  wf b h -> Forall (fun l => allocated h l = true) ls ->
  exists b' h' added,
    UpsertManyAt b h (map Some ls) at_ = Ok (b', h', added)
    /\ added = Size b' - Size b
    /\ wf b' h'
    /\ (forall l, l ∈ ls -> insertable h l = true ->
          Has b' h' (Some l) = Ok true
          /\ GetLastWriteUnix b' h' (Some l) = Ok (Unix at_, true))
    /\ (forall p, insertable h p = true ->
          Has b h (Some p) = Ok true -> Has b' h' (Some p) = Ok true)
    /\ (forall p, insertable h p = true ->
          (forall l, l ∈ ls -> insertable h l = true -> keyOf h l <> keyOf h p) ->
          Has b' h' (Some p) = Has b h (Some p)
          /\ GetNodeItem b' h' (Some p) = GetNodeItem b h (Some p)
          /\ GetLastWriteUnix b' h' (Some p) = GetLastWriteUnix b h (Some p)).
Proof.
  intros Hwf Hall. destruct b as [t].
  destruct (upsertLoop_spec at_ ls t h 0 Hwf Hall)
    as (t' & h' & HL & Hwf' & HK & HI & HP & HB & HU & HT).
  exists {| tree := t' |}, h', (Z.of_nat (length t') - Z.of_nat (length t)).
  assert (HKe : forall x u, BTree.Get (keyOf h') x u = BTree.Get (keyOf h) x u).
  { intros. apply BTreeFacts.Get_key_ext; intros; apply HK. }
  split.
  { unfold UpsertManyAt. cbn [tree]. destruct ls as [|l ls'].
    - simpl in HL. injection HL as <- <-. do 2 f_equal. lia.
    - change (map Some (l :: ls')) with (Some l :: map Some ls') in *.
      by rewrite HL. }
  split; [done|]. split; [done|]. split; [|split].
  - intros l Hl Hi. destruct (HB l Hl Hi) as (res & Hr & Hst).
    assert (Hi' : insertable h' l = true) by (by rewrite HI).
    rewrite (Has_spec _ h' l Hi'), (GetLastWriteUnix_spec _ h' l Hi').
    cbn [tree]. by rewrite HKe, Hr, Hst.
  - intros p Hp. assert (Hp' : insertable h' p = true) by (by rewrite HI).
    rewrite (Has_spec _ h p Hp), (Has_spec _ h' p Hp'). cbn [tree]. rewrite HKe.
    destruct (BTree.Get (keyOf h) p t) as [res|] eqn:E; [|done]. intros _.
    destruct (HP p res E) as (res' & -> & _). done.
  - intros p Hp Hne. assert (Hp' : insertable h' p = true) by (by rewrite HI).
    rewrite (Has_spec _ h p Hp), (Has_spec _ h' p Hp').
    rewrite (GetNodeItem_spec _ h p Hp), (GetNodeItem_spec _ h' p Hp').
    rewrite (GetLastWriteUnix_spec _ h p Hp), (GetLastWriteUnix_spec _ h' p Hp').
    cbn [tree]. rewrite HKe, (HU p Hne). split; [done|]. split; [done|].
    destruct (BTree.Get (keyOf h) p t) as [res|] eqn:E; [|done].
    apply BTreeFacts.Get_Some in E as [_ Hk].
    rewrite HT; [done|]. intros Hin.
    destruct (insertable h res) eqn:Hir; [|done].
    exfalso. by apply (Hne res Hin Hir).
Qed.

Lemma UpsertManyAt_counts_the_new_keys_witness :
  exists b' h' added,
    UpsertManyAt {| tree := [TtlTest.first] |} TtlTest.hk
      (map Some [TtlTest.second; TtlTest.lookup]) (UnixTime 200 0)
    = Ok (b', h', added)
    /\ added = Size b' - Size {| tree := [TtlTest.first] |}
    /\ wf b' h'.
Proof.
  destruct (UpsertManyAt_counts_the_new_keys {| tree := [TtlTest.first] |} TtlTest.hk
              [TtlTest.second; TtlTest.lookup] (UnixTime 200 0) eq_refl)
    as (b' & h' & added & H1 & H2 & H3 & _).
  - repeat constructor.
  - exists b', h', added. exact (conj H1 (conj H2 H3)).
Defined.

Lemma deleteLoop_spec h ls : forall t deleted,
  BTree.sorted (keyOf h) t ->
  Forall (fun l => allocated h l = true) ls ->
  exists t',
    deleteLoop t h (map Some ls) deleted
    = Ok (t', deleted + (Z.of_nat (length t) - Z.of_nat (length t')))
    /\ BTree.sorted (keyOf h) t'
    /\ forall y, y ∈ t' <->
         y ∈ t /\ forall l, l ∈ ls -> insertable h l = true ->
                            keyOf h y <> keyOf h l.
Proof.
  induction ls as [|l ls IH]; intros t deleted Hs Hall.
  - exists t. simpl. split; [do 2 f_equal; lia|]. split; [done|].
    intros y. split; [|by intros [? _]]. intros Hy. split; [done|].
    intros l Hl. by apply elem_of_nil in Hl.
  - apply Forall_cons in Hall as [Hl Hall].
    destruct (allocated_deref h l Hl) as (it & Hit & Hd).
    cbn [map deleteLoop]. rewrite Hd. cbn [bind].
    destruct (slice_len (Key it) =? 0)%nat eqn:Hk.
    + assert (Hni : insertable h l = false) by (unfold insertable; by rewrite Hit, Hk).
      destruct (IH t deleted Hs Hall) as (t' & HL & Hs' & Hin).
      exists t'. split; [done|]. split; [done|]. intros y. rewrite Hin.
      split; intros [Hy Hk']; (split; [done|]).
      * intros l0 Hl0 Hi0. apply elem_of_cons in Hl0 as [->|Hl0]; [congruence|].
        by apply Hk'.
      * intros l0 Hl0. apply Hk'. by right.
    + assert (Hi : insertable h l = true) by (unfold insertable; by rewrite Hit, Hk).
      pose proof (BTreeFacts.Delete_snd (keyOf h) l t) as Hsnd.
      pose proof (BTreeFacts.Delete_sorted (keyOf h) l t Hs) as Hs1.
      pose proof (fun y => BTreeFacts.elem_of_Delete (keyOf h) l t y Hs) as Hin1.
      assert (Hlen : Z.of_nat (length t)
                     = Z.of_nat (length (fst (BTree.Delete (keyOf h) l t)))
                       + match BTree.Get (keyOf h) l t with Some _ => 1 | None => 0 end).
      { destruct (BTree.Get (keyOf h) l t) as [y|] eqn:E.
        - rewrite (BTreeFacts.length_Delete_Some _ _ _ _ E). lia.
        - rewrite BTreeFacts.Delete_absent by done. lia. }
      destruct (BTree.Delete (keyOf h) l t) as [t1 d]. cbn [fst snd] in *. subst d.
      destruct (IH t1 (match BTree.Get (keyOf h) l t with
                       | Some _ => deleted + 1 | None => deleted end) Hs1 Hall)
        as (t' & HL & Hs' & Hin).
      exists t'. split.
      { rewrite HL. do 2 f_equal. destruct (BTree.Get (keyOf h) l t); lia. }
      split; [done|]. intros y. rewrite Hin, Hin1.
      split.
      * intros [[Hy Hne] Hk']. split; [done|]. intros l0 Hl0 Hi0.
        apply elem_of_cons in Hl0 as [->|Hl0]; [done|]. by apply Hk'.
      * intros [Hy Hk']. split; [split; [done|]|].
        -- apply Hk'; [by left|done].
        -- intros l0 Hl0. apply Hk'. by right.
Qed.

Lemma deleteLoop_absent h ls : forall t deleted,
  Forall (fun l => allocated h l = true) ls ->
  (forall l, l ∈ ls -> insertable h l = true -> BTree.Get (keyOf h) l t = None) ->
  deleteLoop t h (map Some ls) deleted = Ok (t, deleted).
Proof.
  induction ls as [|l ls IH]; intros t deleted Hall Habs; [done|].
  apply Forall_cons in Hall as [Hl Hall].
  destruct (allocated_deref h l Hl) as (it & Hit & Hd).
  cbn [map deleteLoop]. rewrite Hd. cbn [bind].
  assert (Hrest : forall l0, l0 ∈ ls -> insertable h l0 = true ->
                             BTree.Get (keyOf h) l0 t = None)
    by (intros l0 Hl0; apply Habs; by right).
  destruct (slice_len (Key it) =? 0)%nat eqn:Hk; [by apply IH|].
  assert (Hi : insertable h l = true) by (unfold insertable; by rewrite Hit, Hk).
  pose proof (Habs l (list_elem_of_here _ _) Hi) as HN.
  pose proof (BTreeFacts.Delete_snd (keyOf h) l t) as Hsnd.
  pose proof (BTreeFacts.Delete_absent (keyOf h) l t HN) as Hfst.
  destruct (BTree.Delete (keyOf h) l t) as [t1 d]. cbn [fst snd] in *.
  rewrite Hsnd, HN, Hfst. by apply IH.
Qed.

(** X13: [DeleteMany] on a list without nil records returns the number
    of keys it removed, which is the drop of [Size].  Afterwards [Has]
    answers [false] for every listed record, keys outside the list are
    answered as before by the lookups, and a second [DeleteMany] of the same
    list returns 0 and changes nothing. *)
Theorem DeleteMany_counts_the_removed_keys b h ls :
  wf b h -> Forall (fun l => allocated h l = true) ls ->
  exists b' deleted,
    DeleteMany b h (map Some ls) = Ok (b', deleted)
    /\ deleted = Size b - Size b'
    /\ wf b' h
    /\ (forall l, l ∈ ls -> Has b' h (Some l) = Ok false)
    /\ (forall p, insertable h p = true ->
          (forall l, l ∈ ls -> insertable h l = true -> keyOf h l <> keyOf h p) ->
          Has b' h (Some p) = Has b h (Some p)
          /\ GetNodeItem b' h (Some p) = GetNodeItem b h (Some p)
          /\ GetLastWriteUnix b' h (Some p) = GetLastWriteUnix b h (Some p))
    /\ DeleteMany b' h (map Some ls) = Ok (b', 0).
Proof.
  intros Hwf Hall. pose proof (ttl_wf_sorted b h Hwf) as Hs. destruct b as [t].
  cbn [tree] in Hs.
  destruct (deleteLoop_spec h ls t 0 Hs Hall) as (t' & HL & Hs' & Hin).
  exists {| tree := t' |}, (Z.of_nat (length t) - Z.of_nat (length t')).
  assert (Habs : forall l, l ∈ ls -> insertable h l = true ->
                           BTree.Get (keyOf h) l t' = None).
  { intros l Hl Hi. apply BTreeFacts.Get_None_intro. intros y Hy.
    apply Hin in Hy as [_ Hy]. by apply Hy. }
  split.
  { unfold DeleteMany. cbn [tree]. destruct ls as [|l ls'].
    - simpl in HL. injection HL as <-. do 2 f_equal. lia.
    - change (map Some (l :: ls')) with (Some l :: map Some ls') in *.
      rewrite HL. cbn [bind fst snd]. done. }
  split; [done|]. split.
  { apply ttl_wf_intro; [done|]. intros l Hl. apply Hin in Hl as [Hl _].
    by apply (ttl_wf_allocated _ _ _ Hwf). }
  split.
  { intros l Hl. rewrite Forall_forall in Hall.
    destruct (allocated_deref h l (Hall l Hl)) as (it & Hit & Hd).
    destruct (insertable h l) eqn:Hi.
    - rewrite (Has_spec _ h l Hi). cbn [tree]. by rewrite Habs.
    - unfold Has. rewrite Hd. cbn [bind]. unfold insertable in Hi.
      rewrite Hit in Hi. by destruct (slice_len (Key it) =? 0)%nat. }
  split.
  { intros p Hp Hne.
    assert (BTree.Get (keyOf h) p t' = BTree.Get (keyOf h) p t) as HG.
    { destruct (BTree.Get (keyOf h) p t) as [res|] eqn:E.
      - destruct (BTreeFacts.Get_Some _ _ _ _ E) as [Hr Hk].
        apply BTreeFacts.Get_elem; [done| |done]. apply Hin. split; [done|].
        intros l Hl Hi. rewrite Hk. intros E'. by apply (Hne l Hl Hi).
      - apply BTreeFacts.Get_None_intro. intros y Hy. apply Hin in Hy as [Hy _].
        by apply (BTreeFacts.Get_None _ _ _ Hs E). }
    rewrite !(Has_spec _ h p Hp), !(GetNodeItem_spec _ h p Hp),
      !(GetLastWriteUnix_spec _ h p Hp). cbn [tree]. by rewrite HG. }
  pose proof (deleteLoop_absent h ls t' 0 Hall Habs) as HA.
  unfold DeleteMany. destruct ls as [|l ls']; [simpl in HL; by injection HL as <-|].
  change (map Some (l :: ls')) with (Some l :: map Some ls') in *.
  cbn [tree]. by rewrite HA.
Qed.


Lemma DeleteMany_counts_the_removed_keys_witness :
  exists b' deleted,
    DeleteMany TtlTest.b3 TtlTest.h3 (map Some [TtlTest.recA; TtlTest.recC])
    = Ok (b', deleted)
    /\ deleted = Size TtlTest.b3 - Size b'
    /\ wf b' TtlTest.h3.
Proof.
  destruct (DeleteMany_counts_the_removed_keys TtlTest.b3 TtlTest.h3
              [TtlTest.recA; TtlTest.recC] eq_refl)
    as (b' & deleted & H1 & H2 & H3 & _).
  - repeat constructor.
  - exists b', deleted. exact (conj H1 (conj H2 H3)).
Defined.

(** *** [ForEach] *)

Lemma Ascend_reader {S : Type} (f : S -> list byte -> Z -> S * bool) h0 t :
  forall h sigma seen,
  heap_ok h0 = true -> frame h0 h ->
  (forall l, l ∈ t -> allocated h0 l = true) ->
  exists h' seen',
    BTree.Ascend (forEachVisit (reader f)) t (h, sigma, seen)
    = Ok (h', shown f sigma (map (fun l => (keyOf h0 l, tsOf h0 l)) t), seen')
    /\ frame h0 h'.
Proof.
  induction t as [|x t IH]; intros h sigma seen Hok Hf Hall.
  - simpl. eauto.
  - rewrite BTreeFacts.Ascend_cons. unfold forEachVisit at 1.
    assert (allocated h0 x = true) as Hx by (apply Hall; by left).
    unfold allocated in Hx. apply Nat.ltb_lt in Hx.
    destruct (lookup_lt_is_Some_2 _ _ Hx) as [it Hit].
    assert (items h !! x = Some it) as Hit' by (destruct Hf as (-> & _); done).
    unfold deref. rewrite Hit'. cbn [bind].
    destruct (cloneBytes h (Key it)) as [h1 keyCopy] eqn:Ec.
    destruct (cloneBytes_frame _ _ _ _ _ Hf Ec) as [Hf1 _].
    unfold reader at 1.
    rewrite (cloneBytes_bytes _ _ _ _ Ec).
    assert (slice_bytes (arrays h) (Key it) = keyOf h0 x) as ->.
    { rewrite <- (keyOf_frame h0 h x Hok Hf). unfold keyOf. by rewrite Hit'. }
    assert (GetExpirationTime it = tsOf h0 x) as ->
      by (unfold tsOf; by rewrite Hit).
    cbn [map shown].
    destruct (f sigma (keyOf h0 x) (tsOf h0 x)) as [sigma' keep].
    cbn [doWrites bind].
    assert (Hf1' : frame h0 {| arrays := arrays h1; items := items h1 |})
      by (by destruct h1).
    destruct keep; [|eauto].
    apply (IH _ sigma' (seen ++ [keyCopy]) Hok Hf1').
    intros l Hl. apply Hall. by right.
Qed.

Lemma sorted_presented b h :
  wf b h -> BTree.sorted fst (presented b h).
Proof.
  intros Hwf. pose proof (ttl_wf_sorted b h Hwf) as Hs. unfold presented.
  revert Hs. generalize (tree b). intros t.
  induction t as [|x t IH]; intros Hs; [apply BTreeFacts.sorted_nil|].
  apply BTreeFacts.sorted_cons_inv in Hs as [Hs Hall]. cbn [map].
  apply BTreeFacts.sorted_cons; [by apply IH|].
  apply Forall_fmap. eapply Forall_impl; [exact Hall|]. by intros y Hy.
Qed.

(** X14: [ForEach] presents the indexed keys in strictly ascending byte
    order, each with its timestamp, to a callback that only reads, and
    stops after the first call that answers [false]: the callback ends in
    the state it reaches on that prefix.  It returns no error and changes
    no record.  With a nil callback it returns the error and calls
    nothing. *)
Theorem ForEach_shows_the_keys_in_ascending_order {S : Type} b h
    (f : S -> list byte -> Z -> S * bool) sigma :
  heap_ok h = true -> wf b h ->
  BTree.sorted fst (presented b h)
  /\ (exists h',
        ForEach b h (Some (reader f)) sigma
        = Ok (h', shown f sigma (presented b h), None)
        /\ items h' = items h)
  /\ ForEach b h (None : option (callback S)) sigma = Ok (h, sigma, Some NilCallback).
Proof.
  intros Hok Hwf. split; [by apply sorted_presented|]. split; [|done].
  unfold ForEach.
  destruct (Ascend_reader f h (tree b) h sigma [] Hok (frame_refl h))
    as (h' & seen' & -> & Hf).
  - intros l Hl. by apply (ttl_wf_allocated b).
  - cbn [bind]. exists h'. split; [done|]. by destruct Hf as (-> & _).
Qed.

Lemma ForEach_shows_the_keys_in_ascending_order_witness :
  BTree.sorted fst (presented TtlTest.b3 TtlTest.h3)
  /\ exists h',
       ForEach TtlTest.b3 TtlTest.h3
         (Some (reader (fun (n : Z) (_ : list byte) (ts : Z) => (n + 1, ts <? 19970))))
         0
       = Ok (h', 2, None)
       /\ items h' = items TtlTest.h3.
Proof.
  destruct (ForEach_shows_the_keys_in_ascending_order TtlTest.b3 TtlTest.h3
              (fun (n : Z) (_ : list byte) (ts : Z) => (n + 1, ts <? 19970)) 0
              eq_refl eq_refl)
    as (H1 & H2 & _).
  exact (conj H1 H2).
Defined.

(** *** Expiry *)

Lemma limited_nil m : limited m [] = [].
Proof. unfold limited. destruct (0 <? m); [by rewrite take_nil|done]. Qed.

Lemma expired_elem h cutoff (t : list loc) x :
  x ∈ List.filter (expiredb h cutoff) t <-> x ∈ t /\ expiredb h cutoff x = true.
Proof. by rewrite list_elem_of_In, filter_In, <- list_elem_of_In. Qed.

(** X15: for a positive TTL, [ListExpiredAt] returns indexed records
    that are all eligible, in strictly ascending key order, at most
    [maxCount] of them when that is positive.  An eligible record is left
    out only when the positive limit was reached, and then every returned
    record has a smaller key: the result is the first eligible records in
    key order. *)
Theorem ListExpiredAt_returns_the_first_expired_keys b h now ttl m :
  wf b h -> 0 < ttl ->
  exists out,
    ListExpiredAt b h now ttl m = Ok (Some out)
    /\ BTree.sorted (keyOf h) out
    /\ (forall x, x ∈ out -> x ∈ tree b /\ eligible h now ttl x = true)
    /\ (0 < m -> Z.of_nat (length out) <= m)
    /\ (forall y, y ∈ tree b -> eligible h now ttl y = true -> y ∉ out ->
          0 < m /\ Z.of_nat (length out) = m
          /\ forall x, x ∈ out -> BTree.Less (keyOf h) x y = true).
Proof.
  intros Hwf Httl. pose proof (ttl_wf_sorted b h Hwf) as Hs.
  rewrite (ListExpiredAt_spec b h now ttl m Httl). eexists. split; [done|].
  set (F := List.filter (expiredb h (cutoffUnix now ttl)) (tree b)).
  assert (HsF : BTree.sorted (keyOf h) F) by (by apply BTreeFacts.sorted_filter).
  split; [|split; [|split]].
  - unfold limited. destruct (0 <? m); [by apply BTreeFacts.sorted_take|done].
  - intros x Hx. apply limited_sub in Hx. apply expired_elem in Hx as [Hx He].
    split; [done|]. by rewrite eligible_expiredb.
  - intros Hm. rewrite length_limited. apply Z.ltb_lt in Hm as ->. lia.
  - intros y Hy He Hout. rewrite eligible_expiredb in He by done.
    assert (HyF : y ∈ F) by (by apply expired_elem).
    unfold limited in *. destruct (0 <? m) eqn:Hm; [|done].
    apply Z.ltb_lt in Hm. split; [done|].
    rewrite <- (take_drop (Z.to_nat m) F) in HyF, HsF.
    apply elem_of_app in HyF as [HyF|HyF]; [done|].
    apply BTreeFacts.sorted_app_inv in HsF as (_ & _ & Hlt).
    split; [|intros x Hx; by apply Hlt].
    rewrite length_take.
    assert (length (drop (Z.to_nat m) F) <> 0%nat) as Hd
      by (destruct (drop (Z.to_nat m) F); [by apply elem_of_nil in HyF|done]).
    rewrite length_drop in Hd. lia.
Qed.

Lemma ListExpiredAt_returns_the_first_expired_keys_witness :
  exists out,
    ListExpiredAt TtlTest.b3 TtlTest.h3 TtlTest.later TtlTest.ttl30 2 = Ok (Some out)
    /\ BTree.sorted (keyOf TtlTest.h3) out
    /\ (forall x, x ∈ out ->
          x ∈ tree TtlTest.b3 /\ eligible TtlTest.h3 TtlTest.later TtlTest.ttl30 x = true)
    /\ (0 < 2 -> Z.of_nat (length out) <= 2).
Proof.
  destruct (ListExpiredAt_returns_the_first_expired_keys TtlTest.b3 TtlTest.h3
              TtlTest.later TtlTest.ttl30 2 eq_refl eq_refl)
    as (out & H1 & H2 & H3 & H4 & _).
  exists out. exact (conj H1 (conj H2 (conj H3 H4))).
Defined.

(** X16: for a positive TTL, [PurgeExpiredAt] removes exactly the records
    that [ListExpiredAt] returns for the same arguments: the count it
    returns is their number and the drop of [Size], and the records left
    are those of the index that are not in the list.  After a purge
    without limit a second purge deletes nothing and the list of expired
    records is empty. *)
Theorem PurgeExpiredAt_removes_what_ListExpiredAt_lists b h now ttl m :
  wf b h -> 0 < ttl ->
  exists out b' d,
    ListExpiredAt b h now ttl m = Ok (Some out)
    /\ PurgeExpiredAt b h now ttl m = Ok (b', d)
    /\ d = Z.of_nat (length out)
    /\ Size b' = Size b - d
    /\ (forall x, x ∈ tree b' <-> x ∈ tree b /\ x ∉ out)
    /\ wf b' h
    /\ (m <= 0 -> forall m',
          PurgeExpiredAt b' h now ttl m' = Ok (b', 0)
          /\ ListExpiredAt b' h now ttl m' = Ok (Some [])).
Proof.
  intros Hwf Httl. pose proof (ttl_wf_sorted b h Hwf) as Hs.
  rewrite (ListExpiredAt_spec b h now ttl m Httl).
  rewrite (PurgeExpiredAt_spec b h now ttl m Hwf Httl).
  eexists _, _, _. split; [done|]. split; [done|]. split; [done|].
  set (p := expiredb h (cutoffUnix now ttl)).
  assert (Hmin : List.filter (fun y => negb (memb y (limited m (List.filter p (tree b)))))
                   (tree b) = purged h (cutoffUnix now ttl) m (tree b)).
  { unfold limited, purged. fold p. destruct (0 <? m).
    - apply minus_take_filter. by eapply BTreeFacts.sorted_NoDup.
    - apply minus_filter. }
  split; [|split; [|split]].
  - unfold Size, BTree.Len. cbn [tree]. rewrite length_limited.
    unfold purged. fold p. destruct (0 <? m) eqn:Hm.
    + pose proof (length_dropFirst p (Z.to_nat m) (tree b)). apply Z.ltb_lt in Hm. lia.
    + pose proof (ListFacts.length_filter_split p (tree b)). lia.
  - intros x. cbn [tree]. rewrite <- Hmin.
    rewrite list_elem_of_In, filter_In, <- list_elem_of_In, negb_true_iff, memb_false.
    done.
  - by apply wf_purged.
  - intros Hm m'. assert ((0 <? m) = false) as Hm' by (by apply Z.ltb_ge).
    unfold purged. fold p. rewrite Hm'.
    set (t' := List.filter (fun y => negb (p y)) (tree b)).
    assert (HF : List.filter p t' = []).
    { unfold t'. rewrite ListFacts.filter_filter_and.
      clear. induction (tree b) as [|y t IH]; [done|]. simpl.
      destruct (p y); simpl; exact IH. }
    split.
    + unfold PurgeExpiredAt. apply Z.leb_gt in Httl as ->. rewrite scan_spec.
      cbn [tree bind]. fold p. by rewrite HF, limited_nil.
    + rewrite (ListExpiredAt_spec _ h now ttl m' Httl). cbn [tree]. fold p.
      by rewrite HF, limited_nil.
Qed.

Lemma PurgeExpiredAt_removes_what_ListExpiredAt_lists_witness :
  exists out b' d,
    ListExpiredAt TtlTest.b3 TtlTest.h3 TtlTest.later TtlTest.ttl30 2 = Ok (Some out)
    /\ PurgeExpiredAt TtlTest.b3 TtlTest.h3 TtlTest.later TtlTest.ttl30 2 = Ok (b', d)
    /\ d = Z.of_nat (length out)
    /\ Size b' = Size TtlTest.b3 - d.
Proof.
  destruct (PurgeExpiredAt_removes_what_ListExpiredAt_lists TtlTest.b3 TtlTest.h3
              TtlTest.later TtlTest.ttl30 2 eq_refl eq_refl)
    as (out & b' & d & H1 & H2 & H3 & H4 & _).
  exists out, b', d. exact (conj H1 (conj H2 (conj H3 H4))).
Defined.

Lemma GetNodeItem_found b h p x :
  GetNodeItem b h (Some p) = Ok (Some x, true) ->
  insertable h p = true /\ BTree.Get (keyOf h) p (tree b) = Some x.
Proof.
  unfold GetNodeItem, deref, insertable.
  destruct (items h !! p) as [it|]; [|done]. cbn [bind].
  destruct (slice_len (Key it) =? 0)%nat; [done|].
  destruct (BTree.Get (keyOf h) p (tree b)); [|done]. by intros [= ->].
Qed.

(** X17: a record obtained from [GetNodeItem] is live: calling its
    [SetExpirationTime] changes the indexed record without an upsert.
    [GetNodeItem] still returns the same record, [GetLastWriteUnix] the new
    Unix seconds, and the eligibility of no other record changes.  With a
    new time after the cutoff the record is in no [ListExpiredAt] result
    and survives every [PurgeExpiredAt]; with one at or before the cutoff
    it is listed and purged by the calls without limit. *)
Theorem SetExpirationTime_on_a_handle_moves_the_expiry b h now ttl p x t' :
  wf b h -> 0 < ttl ->
  GetNodeItem b h (Some p) = Ok (Some x, true) ->
  wf b (setExpiration h x t')
  /\ GetNodeItem b (setExpiration h x t') (Some p) = Ok (Some x, true)
  /\ GetLastWriteUnix b (setExpiration h x t') (Some p) = Ok (Unix t', true)
  /\ eligible (setExpiration h x t') now ttl x = (Unix t' <=? cutoffUnix now ttl)
  /\ (forall y, y <> x ->
        eligible (setExpiration h x t') now ttl y = eligible h now ttl y)
  /\ (cutoffUnix now ttl < Unix t' ->
        forall m, exists out b' d,
          ListExpiredAt b (setExpiration h x t') now ttl m = Ok (Some out)
          /\ (x ∉ out)
          /\ PurgeExpiredAt b (setExpiration h x t') now ttl m = Ok (b', d)
          /\ (x ∈ tree b'))
  /\ (Unix t' <= cutoffUnix now ttl ->
        forall m, m <= 0 -> exists out b' d,
          ListExpiredAt b (setExpiration h x t') now ttl m = Ok (Some out)
          /\ (x ∈ out)
          /\ PurgeExpiredAt b (setExpiration h x t') now ttl m = Ok (b', d)
          /\ (x ∉ tree b')).
Proof.
  intros Hwf Httl HG. destruct (GetNodeItem_found b h p x HG) as [Hp HGet].
  destruct (BTreeFacts.Get_Some _ _ _ _ HGet) as [Hx _].
  pose proof (ttl_wf_allocated b h x Hwf Hx) as Hax.
  set (h' := setExpiration h x t').
  assert (Hwf' : wf b h') by (by apply wf_setExpiration).
  assert (Hp' : insertable h' p = true) by (by unfold h'; rewrite insertable_setExpiration).
  assert (Hts : tsOf h' x = Unix t') by (by apply tsOf_setExpiration_eq).
  assert (HGet' : BTree.Get (keyOf h') p (tree b) = Some x)
    by (unfold h'; by rewrite Get_setExpiration).
  assert (Hel : eligible h' now ttl x = (Unix t' <=? cutoffUnix now ttl)).
  { unfold eligible. rewrite Hts. by apply Z.ltb_lt in Httl as ->. }
  split; [done|].
  split; [by rewrite (GetNodeItem_spec b h' p Hp'), HGet'|].
  split; [by rewrite (GetLastWriteUnix_spec b h' p Hp'), HGet', Hts|].
  split; [done|].
  split; [intros y Hy; unfold eligible, h'; by rewrite tsOf_setExpiration_ne|].
  split.
  - intros Hlt m.
    assert (Hnx : expiredb h' (cutoffUnix now ttl) x = false)
      by (unfold expiredb; rewrite Hts; by apply Z.leb_gt).
    rewrite (ListExpiredAt_spec b h' now ttl m Httl).
    rewrite (PurgeExpiredAt_spec b h' now ttl m Hwf' Httl).
    eexists _, _, _. split; [done|]. split; [|split; [done|]].
    + intros Hin. apply limited_sub, expired_elem in Hin as [_ Hin]. congruence.
    + cbn [tree]. by apply elem_of_purged_keep.
  - intros Hle m Hm.
    assert (Hex : expiredb h' (cutoffUnix now ttl) x = true)
      by (unfold expiredb; rewrite Hts; by apply Z.leb_le).
    assert ((0 <? m) = false) as Hm' by (by apply Z.ltb_ge).
    rewrite (ListExpiredAt_spec b h' now ttl m Httl).
    rewrite (PurgeExpiredAt_spec b h' now ttl m Hwf' Httl).
    eexists _, _, _. split; [done|]. split; [|split; [done|]].
    + unfold limited. rewrite Hm'. by apply expired_elem.
    + cbn [tree]. unfold purged. rewrite Hm'.
      rewrite list_elem_of_In, filter_In, Hex. by intros [_ ?].
Qed.

Lemma SetExpirationTime_on_a_handle_moves_the_expiry_witness :
  wf TtlTest.b3 (setExpiration TtlTest.h3 TtlTest.recA TtlTest.later)
  /\ GetLastWriteUnix TtlTest.b3 (setExpiration TtlTest.h3 TtlTest.recA TtlTest.later)
       (Some TtlTest.recA) = Ok (Unix TtlTest.later, true)
  /\ eligible (setExpiration TtlTest.h3 TtlTest.recA TtlTest.later)
       TtlTest.base TtlTest.ttl30 TtlTest.recA
     = (Unix TtlTest.later <=? cutoffUnix TtlTest.base TtlTest.ttl30).
Proof.
  destruct (SetExpirationTime_on_a_handle_moves_the_expiry TtlTest.b3 TtlTest.h3
              TtlTest.base TtlTest.ttl30 TtlTest.recA TtlTest.recA TtlTest.later
              eq_refl eq_refl eq_refl)
    as (H1 & _ & H2 & H3 & _).
  exact (conj H1 (conj H2 H3)).
Defined.

End TtlProps.

(** ** The TTL index over plain keys *)

Module TtlKeysFacts.
Import TtlKeys.

(** *** Memory *)

Lemma slice_bytes_agree (m m' : memory) s :
  (forall a off n, s = Slice a off n -> m' !! a = m !! a) ->
  slice_bytes m' s = slice_bytes m s.
Proof.
  destruct s as [|a off n]; [done|]. intros H. simpl. by rewrite (H a off n).
Qed.

Lemma slice_ok_lt (m : memory) a off n :
  slice_ok m (Slice a off n) = true -> (a < length m)%nat.
Proof.
  simpl. destruct (m !! a) eqn:E; [|done]. intros _. by eapply lookup_lt_Some.
Qed.

Lemma slice_ok_length (m : memory) s :
  slice_ok m s = true -> length (slice_bytes m s) = slice_len s.
Proof.
  destruct s as [|a off n]; [done|]. simpl.
  destruct (m !! a) as [arr|]; [|done]. simpl. intros H. apply Nat.leb_le in H.
  rewrite length_take, length_drop. lia.
Qed.

Lemma slice_ok_agree (m m' : memory) s :
  slice_ok m s = true -> (forall a, (a < length m)%nat -> m' !! a = m !! a) ->
  slice_ok m' s = true /\ slice_bytes m' s = slice_bytes m s.
Proof.
  intros Hok Hag. destruct s as [|a off n]; [done|].
  pose proof (slice_ok_lt _ _ _ _ Hok) as Hlt. simpl in *.
  by rewrite (Hag a Hlt).
Qed.

Lemma app_agree (m ext : memory) a : (a < length m)%nat -> (m ++ ext) !! a = m !! a.
Proof. intros H. by apply lookup_app_l. Qed.

Lemma keys_wf_sorted b m : wf b m -> BTree.sorted (keyOf m) (tree b).
Proof.
  unfold wf, wfb. rewrite andb_true_iff. intros [H _].
  by apply BTreeFacts.sortedb_sorted.
Qed.

Lemma wf_item b m it : wf b m -> it ∈ tree b -> item_ok m it = true.
Proof.
  unfold wf, wfb. rewrite andb_true_iff, forallb_forall. intros [_ H] Hin.
  apply H. by apply list_elem_of_In.
Qed.

Lemma keys_wf_intro b m :
  BTree.sorted (keyOf m) (tree b) ->
  (forall it, it ∈ tree b -> item_ok m it = true) -> wf b m.
Proof.
  intros Hs Hi. unfold wf, wfb. rewrite andb_true_iff, forallb_forall.
  split; [by apply BTreeFacts.sorted_sortedb|].
  intros it Hin. apply Hi. by apply list_elem_of_In.
Qed.

Lemma item_ok_agree (m m' : memory) it :
  item_ok m it = true -> (forall a, (a < length m)%nat -> m' !! a = m !! a) ->
  item_ok m' it = true /\ keyOf m' it = keyOf m it.
Proof.
  unfold item_ok, keyOf. rewrite !andb_true_iff. intros [Hok Hne] Hag.
  destruct (slice_ok_agree m m' _ Hok Hag) as [-> ->]. done.
Qed.

Lemma item_ok_nonempty m it : item_ok m it = true -> keyOf m it <> [].
Proof.
  unfold item_ok, keyOf. rewrite andb_true_iff, negb_true_iff, Nat.eqb_neq.
  intros [Hok Hne] E. apply Hne. rewrite <- (slice_ok_length m _ Hok). by rewrite E.
Qed.

(** Memory that agrees on the arrays allocated so far keeps the index. *)
Lemma wf_agree b (m m' : memory) :
  wf b m -> (forall a, (a < length m)%nat -> m' !! a = m !! a) ->
  wf b m' /\ forall it, it ∈ tree b -> keyOf m' it = keyOf m it.
Proof.
  intros Hwf Hag.
  assert (Hk : forall it, it ∈ tree b -> keyOf m' it = keyOf m it).
  { intros it Hin.
    by destruct (item_ok_agree m m' it (wf_item b m it Hwf Hin) Hag) as [_ ?]. }
  split; [|done]. unfold wf, wfb.
  rewrite (BTreeFacts.Forall_sorted_key_ext (keyOf m) (keyOf m') (tree b) Hk).
  unfold wf, wfb in Hwf. rewrite andb_true_iff in Hwf |- *. destruct Hwf as [Hs Hi].
  split; [done|]. rewrite forallb_forall in Hi |- *. intros it Hin.
  by destruct (item_ok_agree m m' it (Hi it Hin) Hag) as [? _].
Qed.

Lemma cloneBytes_spec (m : memory) src :
  slice_ok m src = true -> slice_len src <> 0%nat ->
  cloneBytes m src
  = (m ++ [slice_bytes m src], Slice (length m) 0 (slice_len src))
  /\ slice_bytes (m ++ [slice_bytes m src]) (Slice (length m) 0 (slice_len src))
     = slice_bytes m src
  /\ slice_ok (m ++ [slice_bytes m src]) (Slice (length m) 0 (slice_len src)) = true.
Proof.
  intros Hok Hne. unfold cloneBytes. apply Nat.eqb_neq in Hne. rewrite Hne.
  split; [done|]. pose proof (slice_ok_length m src Hok) as Hlen.
  cbn [TtlBTree.slice_bytes TtlBTree.slice_ok]. rewrite list_lookup_middle by done.
  cbn [default from_option id]. rewrite drop_0.
  split; [apply take_ge; lia|]. apply Nat.leb_le. lia.
Qed.

(** *** Lookups by content *)

Lemma Get_probe m key x t :
  keyOf m x = slice_bytes m key ->
  BTree.Get (keyOf m) (probe key) t = BTree.Get (keyOf m) x t.
Proof. intros E. by apply BTreeFacts.Get_key. Qed.


Lemma Get_agree (m m' : memory) x t :
  keyOf m' x = keyOf m x -> (forall it, it ∈ t -> keyOf m' it = keyOf m it) ->
  BTree.Get (keyOf m') x t = BTree.Get (keyOf m) x t.
Proof. intros. by apply BTreeFacts.Get_key_ext. Qed.

Lemma foreign_key b a (m m' : memory) it :
  foreign b a = true -> it ∈ tree b ->
  (forall a', a' <> a -> m' !! a' = m !! a') -> keyOf m' it = keyOf m it.
Proof.
  unfold foreign. rewrite forallb_forall. intros Hf Hin Hag.
  pose proof (Hf it (proj1 (list_elem_of_In _ _) Hin)) as H.
  unfold keyOf. apply slice_bytes_agree. intros a' off n E. rewrite E in H.
  apply Hag. apply negb_true_iff, Nat.eqb_neq in H. done.
Qed.

Lemma foreign_intro b a :
  (forall it a' off n, it ∈ tree b -> keyBytes it = Slice a' off n -> a' <> a) ->
  foreign b a = true.
Proof.
  intros H. unfold foreign. rewrite forallb_forall. intros it Hin.
  apply list_elem_of_In in Hin.
  destruct (keyBytes it) as [|a' off n] eqn:E; [done|].
  apply negb_true_iff, Nat.eqb_neq. by eapply H.
Qed.

Lemma foreign_elim b a it a' off n :
  foreign b a = true -> it ∈ tree b -> keyBytes it = Slice a' off n -> a' <> a.
Proof.
  unfold foreign. rewrite forallb_forall. intros Hf Hin E.
  pose proof (Hf it (proj1 (list_elem_of_In _ _) Hin)) as H. rewrite E in H.
  by apply negb_true_iff, Nat.eqb_neq in H.
Qed.

Lemma nonempty_len (m : memory) q :
  slice_bytes m q <> [] -> (slice_len q =? 0)%nat = false.
Proof.
  intros H. apply Nat.eqb_neq. intros E. apply H.
  destruct q as [|a off n]; [done|]. simpl in *. subst n. by rewrite take_0.
Qed.

(** X18: [UpsertAt] stores a private copy of the key.  For a non-empty key
    in a buffer of the caller, the key is indexed with the Unix seconds of
    the given time, the flag returned says whether it was new and [Size]
    grows by one in that case only; no existing array is written and other
    keys are answered as before.  Whatever the caller writes into its buffer
    afterwards, the index still finds the original bytes, under any slice
    that holds them, with the same timestamp. *)
Theorem UpsertAt_stores_a_private_copy_of_the_key b m a off n ts :
  wf b m -> slice_ok m (Slice a off n) = true -> n <> 0%nat ->
  foreign b a = true ->
  exists b' m' isNew,
    UpsertAt b m (Slice a off n) ts = (b', m', isNew)
    /\ wf b' m' /\ foreign b' a = true
    /\ isNew = negb (Has b m (Slice a off n))
    /\ Size b' = Size b + (if isNew then 1 else 0)
    /\ (forall a', (a' < length m)%nat -> m' !! a' = m !! a')
    /\ (forall q, slice_ok m q = true ->
          slice_bytes m q <> slice_bytes m (Slice a off n) ->
          Has b' m' q = Has b m q
          /\ GetLastWriteUnix b' m' q = GetLastWriteUnix b m q)
    /\ (forall m2 q,
          (forall a', a' <> a -> m2 !! a' = m' !! a') ->
          slice_bytes m2 q = slice_bytes m (Slice a off n) ->
          Has b' m2 q = true
          /\ GetLastWriteUnix b' m2 q = (TtlBTree.Unix ts, true)).
Proof.
  intros Hwf Hok Hn Hfor.
  set (key := Slice a off n) in *.
  destruct (cloneBytes_spec m key Hok Hn) as (Hc & Hbytes & Hok').
  set (m' := m ++ [slice_bytes m key]) in *.
  set (item := {| keyBytes := Slice (length m) 0 (slice_len key);
                  timestampUnixSeconds := TtlBTree.Unix ts |}).
  assert (Hag : forall a', (a' < length m)%nat -> m' !! a' = m !! a')
    by (intros; by apply app_agree).
  destruct (wf_agree b m m' Hwf Hag) as [Hwf' Hkeys].
  pose proof (keys_wf_sorted b m' Hwf') as Hs'.
  assert (Hki : keyOf m' item = slice_bytes m key) by exact Hbytes.
  assert (Hlen : length (slice_bytes m key) = n) by (by rewrite (slice_ok_length m key Hok)).
  assert (Hne : slice_bytes m key <> []) by (intros E; rewrite E in Hlen; simpl in Hlen; lia).
  assert (HU : UpsertAt b m key ts
               = ({| tree := fst (BTree.ReplaceOrInsert (keyOf m') item (tree b)) |}, m',
                  match BTree.Get (keyOf m') item (tree b) with
                  | None => true | Some _ => false end)).
  { unfold UpsertAt. rewrite Hc.
    replace (slice_len key =? 0)%nat with false by (symmetry; by apply Nat.eqb_neq).
    pose proof (BTreeFacts.ReplaceOrInsert_snd (keyOf m') item (tree b)) as Hsnd.
    fold m' item.
    destruct (BTree.ReplaceOrInsert (keyOf m') item (tree b)) as [t' prev].
    simpl in *. by subst prev. }
  rewrite HU. eexists _, _, _. split; [done|].
  set (b' := {| tree := fst (BTree.ReplaceOrInsert (keyOf m') item (tree b)) |}).
  assert (Hin' : forall it, it ∈ tree b' <-> it = item
                            \/ (it ∈ tree b /\ keyOf m' it <> keyOf m' item))
    by (intros it; by apply BTreeFacts.elem_of_ReplaceOrInsert).
  assert (Hfor' : foreign b' a = true).
  { apply foreign_intro. intros it a' off' n' Hit E.
    apply Hin' in Hit as [->|[Hit _]].
    - simpl in E. injection E as <- _ _.
      pose proof (slice_ok_lt _ _ _ _ Hok). lia.
    - by eapply foreign_elim. }
  assert (HGp : BTree.Get (keyOf m') item (tree b)
                = BTree.Get (keyOf m) (probe key) (tree b)).
  { rewrite <- (BTreeFacts.Get_key (keyOf m') (probe key) item (tree b))
      by (rewrite Hki; unfold keyOf; simpl; by destruct (slice_ok_agree m m' key Hok Hag)).
    apply Get_agree; [|done].
    unfold keyOf. simpl. by destruct (slice_ok_agree m m' key Hok Hag). }
  split.
  { apply keys_wf_intro.
    - by apply BTreeFacts.ReplaceOrInsert_sorted.
    - intros it Hit. apply Hin' in Hit as [->|[Hit _]].
      + unfold item_ok. cbn [keyBytes item]. rewrite Hok'. simpl.
        apply negb_true_iff, Nat.eqb_neq. done.
      + by apply (wf_item b m'). }
  split; [done|]. split.
  { unfold Has. replace (slice_len key =? 0)%nat with false
      by (symmetry; by apply Nat.eqb_neq).
    rewrite HGp. by destruct (BTree.Get (keyOf m) (probe key) (tree b)). }
  split.
  { unfold Size, BTree.Len, b'. cbn [tree].
    rewrite BTreeFacts.length_ReplaceOrInsert.
    destruct (BTree.Get (keyOf m') item (tree b)); lia. }
  split; [done|]. split.
  - intros q Hq Hneq.
    assert (Hq' : slice_bytes m' q = slice_bytes m q)
      by (by destruct (slice_ok_agree m m' q Hq Hag)).
    assert (HG : BTree.Get (keyOf m') (probe q) (tree b')
                 = BTree.Get (keyOf m) (probe q) (tree b)).
    { unfold b'. cbn [tree]. rewrite BTreeFacts.Get_ReplaceOrInsert_ne.
      - by apply Get_agree.
      - done.
      - rewrite Hki. unfold keyOf. simpl. by rewrite Hq'. }
    unfold Has, GetLastWriteUnix. by rewrite HG.
  - intros m2 q Hag2 Hq.
    assert (Hk2 : forall it, it ∈ tree b' -> keyOf m2 it = keyOf m' it)
      by (intros it Hit; by apply (foreign_key b' a)).
    assert (Hitem : item ∈ tree b') by (apply Hin'; by left).
    assert (HG : BTree.Get (keyOf m2) (probe q) (tree b') = Some item).
    { rewrite (BTreeFacts.Get_key (keyOf m2) (probe q) item)
        by (rewrite (Hk2 item Hitem), Hki; exact Hq).
      rewrite (Get_agree m' m2 item (tree b') (Hk2 item Hitem) Hk2).
      apply BTreeFacts.Get_ReplaceOrInsert_eq. }
    unfold Has, GetLastWriteUnix. rewrite HG.
    rewrite (nonempty_len m2 q) by (by rewrite Hq). done.
Qed.


Lemma UpsertAt_stores_a_private_copy_of_the_key_witness :
  exists b' (m' : memory) isNew,
    UpsertAt TtlKeysTest.b2 TtlKeysTest.m2 (Slice 2 0 1) (TtlBTree.UnixTime 20000 0)
    = (b', m', isNew)
    /\ wf b' m' /\ foreign b' 2 = true
    /\ isNew = negb (Has TtlKeysTest.b2 TtlKeysTest.m2 (Slice 2 0 1))
    /\ Size b' = Size TtlKeysTest.b2 + (if isNew then 1 else 0).
Proof.
  destruct (UpsertAt_stores_a_private_copy_of_the_key TtlKeysTest.b2 TtlKeysTest.m2
              2 0 1 (TtlBTree.UnixTime 20000 0) eq_refl eq_refl
              (fun E => O_S 0 (eq_sym E)) eq_refl)
    as (b' & m' & isNew & H1 & H2 & H3 & H4 & H5 & _).
  exists b', m', isNew. exact (conj H1 (conj H2 (conj H3 (conj H4 H5)))).
Defined.

(** X19: [Delete] removes the item whose key has the bytes of the given
    slice and returns whether there was one; [Has] then answers [false],
    [Size] has dropped by one if the key was indexed and not at all
    otherwise, keys with other bytes are answered as before, and a second
    [Delete] returns [false] and changes nothing.  An empty key is never
    found. *)
Theorem Delete_removes_the_key_by_content b m key :
  wf b m ->
  exists b' d,
    Delete b m key = (b', d)
    /\ d = Has b m key
    /\ Has b' m key = false
    /\ Size b' = Size b - (if d then 1 else 0)
    /\ wf b' m
    /\ (forall a, foreign b a = true -> foreign b' a = true)
    /\ (forall q, slice_bytes m q <> slice_bytes m key ->
          Has b' m q = Has b m q
          /\ GetLastWriteUnix b' m q = GetLastWriteUnix b m q)
    /\ Delete b' m key = (b', false).
Proof.
  intros Hwf. pose proof (keys_wf_sorted b m Hwf) as Hs.
  unfold Delete at 1. unfold Has at 1.
  destruct (slice_len key =? 0)%nat eqn:Hk.
  { exists b, false. unfold Has, Delete. rewrite Hk.
    split; [done|]. split; [done|]. split; [done|]. split; [lia|]. by repeat split. }
  pose proof (BTreeFacts.Delete_snd (keyOf m) (probe key) (tree b)) as Hsnd.
  pose proof (BTreeFacts.Delete_sorted (keyOf m) (probe key) (tree b) Hs) as Hs1.
  pose proof (fun y => BTreeFacts.elem_of_Delete (keyOf m) (probe key) (tree b) y Hs) as Hin1.
  pose proof (BTreeFacts.Get_Delete_eq (keyOf m) (probe key) (tree b) Hs) as HG1.
  pose proof (fun z => BTreeFacts.Get_Delete_ne (keyOf m) (probe key) z (tree b) Hs) as HGne.
  assert (Hlen : Z.of_nat (length (tree b))
                 = Z.of_nat (length (fst (BTree.Delete (keyOf m) (probe key) (tree b))))
                   + match BTree.Get (keyOf m) (probe key) (tree b) with
                     | Some _ => 1 | None => 0 end).
  { destruct (BTree.Get (keyOf m) (probe key) (tree b)) as [y|] eqn:E.
    - rewrite (BTreeFacts.length_Delete_Some _ _ _ _ E). lia.
    - rewrite BTreeFacts.Delete_absent by done. lia. }
  pose proof (BTreeFacts.Delete_absent (keyOf m) (probe key) _ HG1) as Habs.
  pose proof (BTreeFacts.Delete_snd (keyOf m) (probe key)
                (fst (BTree.Delete (keyOf m) (probe key) (tree b)))) as Hsnd2.
  destruct (BTree.Delete (keyOf m) (probe key) (tree b)) as [t1 d]. cbn [fst snd] in *.
  subst d. eexists _, _. split; [done|].
  split; [by destruct (BTree.Get (keyOf m) (probe key) (tree b))|].
  split; [unfold Has; cbn [tree]; by rewrite Hk, HG1|].
  split.
  { unfold Size, BTree.Len. cbn [tree].
    destruct (BTree.Get (keyOf m) (probe key) (tree b)); lia. }
  split.
  { apply keys_wf_intro; [done|]. cbn [tree]. intros it Hit. apply Hin1 in Hit as [Hit _].
    by apply (wf_item b m). }
  split.
  { intros a Hf. apply foreign_intro. cbn [tree]. intros it a' off n Hit E.
    apply Hin1 in Hit as [Hit _]. by eapply foreign_elim. }
  split.
  { intros q Hq. unfold Has, GetLastWriteUnix. cbn [tree].
    by rewrite HGne by (unfold keyOf; simpl; done). }
  unfold Delete. cbn [tree]. rewrite Hk.
  destruct (BTree.Delete (keyOf m) (probe key) t1) as [t2 d2]. cbn [fst snd] in *.
  by rewrite Hsnd2, HG1, Habs.
Qed.

Lemma Delete_removes_the_key_by_content_witness :
  exists b' d,
    Delete TtlKeysTest.b2 TtlKeysTest.m2 TtlKeysTest.buffer = (b', d)
    /\ d = Has TtlKeysTest.b2 TtlKeysTest.m2 TtlKeysTest.buffer
    /\ Has b' TtlKeysTest.m2 TtlKeysTest.buffer = false
    /\ Size b' = Size TtlKeysTest.b2 - (if d then 1 else 0).
Proof.
  destruct (Delete_removes_the_key_by_content TtlKeysTest.b2 TtlKeysTest.m2
              TtlKeysTest.buffer eq_refl)
    as (b' & d & H1 & H2 & H3 & H4 & _).
  exists b', d. exact (conj H1 (conj H2 (conj H3 H4))).
Defined.

(** *** The expiry scan *)

Lemma Forall2_impl_elem {A B : Type} (P Q : A -> B -> Prop) ks l :
  Forall2 P ks l -> (forall s y, y ∈ l -> P s y -> Q s y) -> Forall2 Q ks l.
Proof.
  induction 1 as [|s y ks l HP _ IH]; intros Himp; constructor.
  - apply Himp; [by left|done].
  - apply IH. intros s' y' Hy'. apply Himp. by right.
Qed.

Lemma keys_Ascend_expiredVisit cutoff max t : forall (m : memory) out,
  (max <= 0 \/ Z.of_nat (length out) < max) ->
  (forall it, it ∈ t -> item_ok m it = true) ->
  exists (m' : memory) ks,
    BTree.Ascend (expiredVisit cutoff max) t (m, out) = Ok (m', out ++ ks)
    /\ (forall a, (a < length m)%nat -> m' !! a = m !! a)
    /\ (length m <= length m')%nat
    /\ Forall2 (fun s x => slice_bytes m' s = keyOf m x
                           /\ fresh m s = true
                           /\ slice_ok m' s = true)
         ks
         (if 0 <? max
          then take (Z.to_nat max - length out) (List.filter (expired cutoff) t)
          else List.filter (expired cutoff) t).
Proof.
  induction t as [|x t IH]; intros m out Hmax Hok.
  - exists m, []. simpl. rewrite app_nil_r, take_nil.
    split; [done|]. split; [done|]. split; [done|]. by destruct (0 <? max).
  - rewrite BTreeFacts.Ascend_cons. unfold expiredVisit at 1. cbn [List.filter].
    fold (expired cutoff x).
    assert (Hokt : forall it, it ∈ t -> item_ok m it = true)
      by (intros it Hit; apply Hok; by right).
    destruct (expired cutoff x) eqn:Hx; cbn [bind].
    + pose proof (Hok x (list_elem_of_here _ _)) as Hix.
      unfold item_ok in Hix. apply andb_true_iff in Hix as [Hsx Hnx].
      apply negb_true_iff, Nat.eqb_neq in Hnx.
      destruct (cloneBytes_spec m (keyBytes x) Hsx Hnx) as (Hc & Hb & Hs').
      rewrite Hc. set (m1 := m ++ [slice_bytes m (keyBytes x)]) in *.
      set (k := Slice (length m) 0 (slice_len (keyBytes x))) in *.
      assert (Hag1 : forall a, (a < length m)%nat -> m1 !! a = m !! a)
        by (intros; by apply app_agree).
      assert (Hfk : fresh m k = true) by (simpl; by apply Nat.leb_le).
      assert (Hlen1 : length m1 = S (length m))
        by (unfold m1; rewrite length_app; simpl; lia).
      rewrite length_app. cbn [length].
      destruct ((0 <? max) && (max <=? Z.of_nat (length out + 1))) eqn:Hstop; cbn [bind].
      * apply andb_true_iff in Hstop as [Hpos Hle].
        rewrite Hpos. apply Z.ltb_lt in Hpos. apply Z.leb_le in Hle.
        exists m1, [k]. split; [done|]. split; [done|]. split; [lia|].
        replace (Z.to_nat max - length out)%nat with 1%nat by lia.
        cbn [take]. rewrite take_0. repeat constructor; done.
      * destruct (IH m1 (out ++ [k])) as (m' & ks & HA & Hag & Hle & HF).
        { rewrite length_app. simpl. apply andb_false_iff in Hstop as [Hs|Hs].
          - left. by apply Z.ltb_ge.
          - right. apply Z.leb_gt in Hs. lia. }
        { intros it Hit. by destruct (item_ok_agree m m1 it (Hokt it Hit) Hag1). }
        rewrite HA. exists m', (k :: ks). rewrite <- app_assoc.
        split; [done|].
        split; [intros a Ha; rewrite Hag by lia; by apply Hag1|].
        split; [lia|].
        assert (Hhead : slice_bytes m' k = keyOf m x /\ fresh m k = true
                        /\ slice_ok m' k = true).
        { destruct (slice_ok_agree m1 m' k Hs' Hag) as [-> ->]. done. }
        assert (Htail : forall l,
                  Forall2 (fun s y => slice_bytes m' s = keyOf m1 y
                                      /\ fresh m1 s = true /\ slice_ok m' s = true) ks l ->
                  (forall y, y ∈ l -> y ∈ t) ->
                  Forall2 (fun s y => slice_bytes m' s = keyOf m y
                                      /\ fresh m s = true /\ slice_ok m' s = true) ks l).
        { intros l H Hsub. eapply Forall2_impl_elem; [exact H|].
          intros s y Hy (H1 & H2 & H3). split; [|split; [|done]].
          - rewrite H1.
            by destruct (item_ok_agree m m1 y (Hokt y (Hsub y Hy)) Hag1).
          - destruct s as [|a' o' n']; [done|]. simpl in *.
            apply Nat.leb_le in H2. apply Nat.leb_le. lia. }
        rewrite length_app in HF. simpl in HF.
        destruct (0 <? max) eqn:Hpos.
        -- apply andb_false_iff in Hstop as [Hs|Hs]; [done|].
           apply Z.leb_gt in Hs.
           replace (Z.to_nat max - length out)%nat
             with (S (Z.to_nat max - (length out + 1)))%nat by lia.
           cbn [take]. constructor; [done|]. apply Htail; [done|].
           intros y Hy. apply subseteq_take in Hy.
           by apply list_elem_of_In, filter_In in Hy as [?%list_elem_of_In _].
        -- constructor; [done|]. apply Htail; [done|].
           intros y Hy.
           by apply list_elem_of_In, filter_In in Hy as [?%list_elem_of_In _].
    + apply (IH m out Hmax Hokt).
Qed.

Lemma keys_scan_spec b m cutoff max :
  wf b m ->
  exists (m' : memory) ks,
    BTree.Ascend (expiredVisit cutoff max) (tree b) (m, []) = Ok (m', ks)
    /\ (forall a, (a < length m)%nat -> m' !! a = m !! a)
    /\ Forall2 (fun s x => slice_bytes m' s = keyOf m x
                           /\ fresh m s = true
                           /\ slice_ok m' s = true)
         ks (firstExpired cutoff max (tree b)).
Proof.
  intros Hwf.
  destruct (keys_Ascend_expiredVisit cutoff max (tree b) m []) as (m' & ks & HA & Hag & _ & HF).
  - simpl. lia.
  - intros it Hit. by apply (wf_item b m).
  - exists m', ks. split; [done|]. split; [done|].
    unfold firstExpired. simpl in HF. by rewrite Nat.sub_0_r in HF.
Qed.

Lemma firstExpired_sub cutoff max t x :
  x ∈ firstExpired cutoff max t -> x ∈ t /\ expired cutoff x = true.
Proof.
  unfold firstExpired. intros H.
  assert (x ∈ List.filter (expired cutoff) t) as Hx
    by (destruct (0 <? max); [by apply subseteq_take in H|done]).
  apply list_elem_of_In, filter_In in Hx as [Hx ?]. by apply list_elem_of_In in Hx.
Qed.

Lemma firstExpired_NoDup cutoff max t : NoDup t -> NoDup (firstExpired cutoff max t).
Proof.
  intros H.
  assert (NoDup (List.filter (expired cutoff) t)) as HF
    by (by apply NoDup_ListNoDup, List.NoDup_filter, NoDup_ListNoDup).
  unfold firstExpired. destruct (0 <? max); [|done].
  by apply (sublist_NoDup _ (List.filter (expired cutoff) t) HF), sublist_take.
Qed.


Lemma keys_purgeLoop_spec (m : memory) ks L :
  Forall2 (fun s x => slice_bytes m s = keyOf m x) ks L ->
  forall t deleted,
  BTree.sorted (keyOf m) t -> NoDup L -> (forall x, x ∈ L -> x ∈ t) ->
  exists t',
    purgeLoop t m ks deleted = (t', deleted + Z.of_nat (length L))
    /\ (length t' + length L = length t)%nat
    /\ BTree.sorted (keyOf m) t'
    /\ forall y, y ∈ t' <-> y ∈ t /\ y ∉ L.
Proof.
  induction 1 as [|s x ks L Hsx _ IH]; intros t deleted Hs Hnd Hsub.
  - exists t. simpl. split; [do 2 f_equal; lia|]. split; [lia|]. split; [done|].
    intros y. split; [|by intros [? _]]. intros Hy. split; [done|]. apply not_elem_of_nil.
  - apply NoDup_cons in Hnd as [Hx Hnd].
    assert (Hxt : x ∈ t) by (apply Hsub; by left).
    assert (HG : BTree.Get (keyOf m) (probe s) t = Some x).
    { rewrite (BTreeFacts.Get_key (keyOf m) (probe s) x) by exact Hsx.
      by apply BTreeFacts.Get_self. }
    pose proof (BTreeFacts.Delete_snd (keyOf m) (probe s) t) as Hsnd.
    pose proof (BTreeFacts.Delete_sorted (keyOf m) (probe s) t Hs) as Hs1.
    pose proof (fun y => BTreeFacts.elem_of_Delete (keyOf m) (probe s) t y Hs) as Hin1.
    pose proof (BTreeFacts.length_Delete_Some _ _ _ _ HG) as Hlen.
    cbn [purgeLoop].
    destruct (BTree.Delete (keyOf m) (probe s) t) as [t1 d]. cbn [fst snd] in *.
    rewrite Hsnd, HG.
    assert (Hkey : forall y, y ∈ t -> keyOf m y <> keyOf m (probe s) <-> y <> x).
    { intros y Hy. split.
      - intros Hne ->. by apply Hne.
      - intros Hne E. apply Hne.
        apply (BTreeFacts.sorted_key_inj (keyOf m) t y x Hs Hy Hxt).
        rewrite E. exact Hsx. }
    destruct (IH t1 (deleted + 1) Hs1 Hnd) as (t' & HL & Hlen' & Hs' & Hin').
    { intros y Hy. apply Hin1. split; [apply Hsub; by right|].
      apply Hkey; [apply Hsub; by right|]. intros ->. done. }
    exists t'. split; [rewrite HL; f_equal; cbn [length]; lia|].
    split; [simpl; lia|]. split; [done|].
    intros y. rewrite Hin', Hin1, not_elem_of_cons. split.
    + intros [[Hy Hne] HnL]. split; [done|]. split; [|done]. by apply Hkey.
    + intros [Hy [Hne HnL]]. split; [|done]. split; [done|]. by apply Hkey.
Qed.

(** X20: [ListExpiredAt] returns the nil slice when the TTL is not
    positive or no item is at or before the cutoff.  Otherwise it returns,
    in ascending key order, the bytes of the keys of the first [maxCount]
    such items (all of them when [maxCount] is not positive), each in an
    array allocated by the call: no stored key lies in those arrays, no
    existing array is written and the index is unchanged. *)
Theorem ListExpiredAt_returns_copies_of_the_first_expired_keys b m now ttl max :
  wf b m ->
  exists (m' : memory) r,
    ListExpiredAt b m now ttl max = Ok (m', r)
    /\ (forall a, (a < length m)%nat -> m' !! a = m !! a)
    /\ wf b m'
    /\ match r with
       | None =>
           ttl <= 0
           \/ firstExpired (TtlBTree.cutoffUnix now ttl) max (tree b) = []
       | Some out =>
           0 < ttl
           /\ out <> []
           /\ map (slice_bytes m') out
              = map (keyOf m) (firstExpired (TtlBTree.cutoffUnix now ttl) max (tree b))
           /\ (0 < max -> Z.of_nat (length out) <= max)
           /\ forall s, s ∈ out ->
                exists a off n, s = Slice a off n
                                /\ (length m <= a)%nat /\ foreign b a = true
       end.
Proof.
  intros Hwf. unfold ListExpiredAt.
  destruct (ttl <=? 0) eqn:Httl.
  { exists m, None. split; [done|]. split; [done|]. split; [done|].
    left. by apply Z.leb_le. }
  apply Z.leb_gt in Httl.
  destruct (keys_scan_spec b m (TtlBTree.cutoffUnix now ttl) max Hwf)
    as (m' & ks & -> & Hag & HF).
  cbn [bind].
  set (L := firstExpired (TtlBTree.cutoffUnix now ttl) max (tree b)) in *.
  destruct (wf_agree b m m' Hwf Hag) as [Hwf' _].
  destruct ks as [|k ks].
  { exists m', None. split; [done|]. split; [done|]. split; [done|].
    right. by inversion HF. }
  exists m', (Some (k :: ks)). split; [done|]. split; [done|]. split; [done|].
  split; [lia|]. split; [done|].
  split; [|split].
  - clear -HF. induction HF as [|s x ks' L' (H1 & _) _ IH]; [done|].
    cbn [map]. by rewrite H1, IH.
  - intros Hmax. rewrite (Forall2_length _ _ _ HF). unfold L, firstExpired.
    apply Z.ltb_lt in Hmax as Hmax'. rewrite Hmax'. rewrite length_take. lia.
  - intros s Hs.
    assert (fresh m s = true) as Hfr.
    { clear -HF Hs. induction HF as [|s' x ks' L' (_ & H2 & _) _ IH].
      - by apply elem_of_nil in Hs.
      - apply elem_of_cons in Hs as [->|Hs]; [done|by apply IH]. }
    destruct s as [|a off n]; [done|]. simpl in Hfr. apply Nat.leb_le in Hfr.
    exists a, off, n. split; [done|]. split; [done|].
    apply foreign_intro. intros it a' off' n' Hit E.
    pose proof (wf_item b m it Hwf Hit) as Hi. unfold item_ok in Hi.
    apply andb_true_iff in Hi as [Hi _]. rewrite E in Hi.
    pose proof (slice_ok_lt _ _ _ _ Hi). lia.
Qed.

Lemma ListExpiredAt_returns_copies_of_the_first_expired_keys_witness :
  exists (m' : memory) r,
    ListExpiredAt TtlKeysTest.b2 TtlKeysTest.m2 TtlTest.base TtlTest.ttl30 0
    = Ok (m', r)
    /\ (forall a, (a < length TtlKeysTest.m2)%nat -> m' !! a = TtlKeysTest.m2 !! a)
    /\ wf TtlKeysTest.b2 m'.
Proof.
  destruct (ListExpiredAt_returns_copies_of_the_first_expired_keys TtlKeysTest.b2
              TtlKeysTest.m2 TtlTest.base TtlTest.ttl30 0 eq_refl)
    as (m' & r & H1 & H2 & H3 & _).
  exists m', r. exact (conj H1 (conj H2 H3)).
Defined.

(** X21: for a positive TTL, [PurgeExpiredAt] removes exactly the first
    [maxToDelete] items at or before the cutoff in key order (all of them
    without a limit) and returns their number, which is the drop of [Size].
    An item after the cutoff always stays, and after a purge without limit
    only such items are left. *)
Theorem PurgeExpiredAt_removes_the_first_expired_keys b m now ttl max :
  wf b m -> 0 < ttl ->
  exists b' (m' : memory) d,
    PurgeExpiredAt b m now ttl max = Ok (b', m', d)
    /\ d = Z.of_nat (length (firstExpired (TtlBTree.cutoffUnix now ttl) max (tree b)))
    /\ Size b' = Size b - d
    /\ (forall y, y ∈ tree b' <->
          y ∈ tree b
          /\ y ∉ firstExpired (TtlBTree.cutoffUnix now ttl) max (tree b))
    /\ (forall y, y ∈ tree b ->
          timestampUnixSeconds y > TtlBTree.cutoffUnix now ttl -> y ∈ tree b')
    /\ (max <= 0 -> forall y, y ∈ tree b' ->
          timestampUnixSeconds y > TtlBTree.cutoffUnix now ttl)
    /\ (forall a, (a < length m)%nat -> m' !! a = m !! a)
    /\ wf b' m'
    /\ (forall a, foreign b a = true -> foreign b' a = true).
Proof.
  intros Hwf Httl. unfold PurgeExpiredAt. apply Z.leb_gt in Httl as ->.
  set (cutoff := TtlBTree.cutoffUnix now ttl).
  destruct (keys_scan_spec b m cutoff max Hwf) as (m' & ks & -> & Hag & HF).
  cbn [bind].
  set (L := firstExpired cutoff max (tree b)) in *.
  destruct (wf_agree b m m' Hwf Hag) as [Hwf' Hkeys].
  pose proof (keys_wf_sorted b m' Hwf') as Hs'.
  assert (HL : forall x, x ∈ L -> x ∈ tree b /\ expired cutoff x = true)
    by (intros x; apply firstExpired_sub).
  assert (HF' : Forall2 (fun s x => slice_bytes m' s = keyOf m' x) ks L).
  { eapply Forall2_impl_elem; [exact HF|]. intros s y Hy (H1 & _).
    rewrite H1. symmetry. apply Hkeys. by apply HL. }
  assert (HndL : NoDup L)
    by (by apply firstExpired_NoDup, (BTreeFacts.sorted_NoDup (keyOf m'))).
  destruct (keys_purgeLoop_spec m' ks L HF' (tree b) 0 Hs' HndL)
    as (t' & Hloop & Hlen & Hst & Hin).
  { intros x Hx. by apply HL. }
  assert (Hkeep : forall y, y ∈ tree b -> timestampUnixSeconds y > cutoff -> y ∉ L).
  { intros y Hy Hts HyL. apply HL in HyL as [_ He].
    unfold expired in He. apply Z.leb_le in He. lia. }
  assert (Hgone : max <= 0 -> forall y, y ∈ tree b -> y ∉ L ->
                  timestampUnixSeconds y > cutoff).
  { intros Hmax y Hy HyL. destruct (expired cutoff y) eqn:He.
    - exfalso. apply HyL. unfold L, firstExpired.
      assert ((0 <? max) = false) as -> by (by apply Z.ltb_ge).
      apply list_elem_of_In, filter_In. by rewrite <- list_elem_of_In.
    - unfold expired in He. apply Z.leb_gt in He. lia. }
  clearbody L. destruct ks as [|k ks].
  - inversion HF' as [HL0|]. subst L. simpl in Hloop.
    injection Hloop as <-.
    exists b, m', 0. split; [done|]. split; [done|].
    split; [lia|]. split; [done|]. split; [by intros|].
    split; [intros Hmax y Hy; apply (Hgone Hmax y Hy); apply not_elem_of_nil|].
    by repeat split.
  - rewrite Hloop. eexists _, _, _. split; [done|]. split; [simpl; lia|].
    split; [unfold Size, BTree.Len; cbn [tree]; lia|].
    split; [done|].
    split; [intros y Hy Hts; apply Hin; split; [done|by apply Hkeep]|].
    split; [intros Hmax y Hy; apply Hin in Hy as [Hy HyL]; by apply Hgone|].
    split; [done|]. split.
    + apply keys_wf_intro; [done|]. cbn [tree]. intros it Hit. apply Hin in Hit as [Hit _].
      by apply (wf_item b m').
    + intros a Hf. apply foreign_intro. cbn [tree]. intros it a' off n Hit E.
      apply Hin in Hit as [Hit _]. by eapply foreign_elim.
Qed.


Lemma PurgeExpiredAt_removes_the_first_expired_keys_witness :
  exists b' (m' : memory) d,
    PurgeExpiredAt TtlKeysTest.b2 TtlKeysTest.m2 TtlTest.base TtlTest.ttl30 0
    = Ok (b', m', d)
    /\ d = Z.of_nat (length (firstExpired
                               (TtlBTree.cutoffUnix TtlTest.base TtlTest.ttl30) 0
                               (tree TtlKeysTest.b2)))
    /\ Size b' = Size TtlKeysTest.b2 - d.
Proof.
  destruct (PurgeExpiredAt_removes_the_first_expired_keys TtlKeysTest.b2
              TtlKeysTest.m2 TtlTest.base TtlTest.ttl30 0 eq_refl eq_refl)
    as (b' & m' & d & H1 & H2 & H3 & _).
  exists b', m', d. exact (conj H1 (conj H2 H3)).
Defined.

(** *** The batch operations *)

Lemma upsert_step t (m : memory) key sec :
  wf {| tree := t |} m -> slice_ok m key = true -> slice_len key <> 0%nat ->
  exists (m1 : memory) item t1,
    cloneBytes m key = (m1, keyBytes item)
    /\ timestampUnixSeconds item = sec
    /\ BTree.ReplaceOrInsert (keyOf m1) item t
       = (t1, BTree.Get (keyOf m) (probe key) t)
    /\ wf {| tree := t1 |} m1
    /\ (forall a, (a < length m)%nat -> m1 !! a = m !! a)
    /\ (length m <= length m1)%nat
    /\ (length t1 = match BTree.Get (keyOf m) (probe key) t with
                    | Some _ => length t | None => S (length t) end)
    /\ (forall q, slice_ok m q = true ->
          slice_bytes m q = slice_bytes m key ->
          BTree.Get (keyOf m1) (probe q) t1 = Some item)
    /\ (forall q, slice_ok m q = true ->
          slice_bytes m q <> slice_bytes m key ->
          BTree.Get (keyOf m1) (probe q) t1 = BTree.Get (keyOf m) (probe q) t).
Proof.
  intros Hwf Hok Hn.
  destruct (cloneBytes_spec m key Hok Hn) as (Hc & Hbytes & Hok').
  set (m1 := m ++ [slice_bytes m key]) in *.
  set (item := {| keyBytes := Slice (length m) 0 (slice_len key);
                  timestampUnixSeconds := sec |}).
  assert (Hag : forall a', (a' < length m)%nat -> m1 !! a' = m !! a')
    by (intros; by apply app_agree).
  destruct (wf_agree _ m m1 Hwf Hag) as [Hwf1 Hkeys]. cbn [tree] in Hkeys.
  pose proof (keys_wf_sorted _ m1 Hwf1) as Hs1. cbn [tree] in Hs1.
  assert (Hki : keyOf m1 item = slice_bytes m key) by exact Hbytes.
  assert (Hq1 : forall q, slice_ok m q = true -> keyOf m1 (probe q) = slice_bytes m q).
  { intros q Hq. unfold keyOf. simpl. by destruct (slice_ok_agree m m1 q Hq Hag). }
  assert (HGp : BTree.Get (keyOf m1) item t = BTree.Get (keyOf m) (probe key) t).
  { rewrite <- (BTreeFacts.Get_key (keyOf m1) (probe key) item t)
      by (by rewrite Hki, Hq1).
    apply Get_agree; [by rewrite Hq1|done]. }
  exists m1, item, (fst (BTree.ReplaceOrInsert (keyOf m1) item t)).
  split; [done|]. split; [done|]. split.
  { rewrite <- HGp, <- BTreeFacts.ReplaceOrInsert_snd.
    by destruct (BTree.ReplaceOrInsert (keyOf m1) item t). }
  split.
  { apply keys_wf_intro; cbn [tree].
    - by apply BTreeFacts.ReplaceOrInsert_sorted.
    - intros it Hit. apply BTreeFacts.elem_of_ReplaceOrInsert in Hit; [|done].
      destruct Hit as [->|[Hit _]].
      + unfold item_ok. cbn [keyBytes item]. rewrite Hok'. simpl.
        by apply negb_true_iff, Nat.eqb_neq.
      + by apply (wf_item _ m1 it Hwf1). }
  split; [done|]. split; [unfold m1; rewrite length_app; lia|]. split.
  { rewrite BTreeFacts.length_ReplaceOrInsert. by rewrite HGp. }
  split.
  - intros q Hq E.
    rewrite (BTreeFacts.Get_key (keyOf m1) (probe q) item) by (by rewrite Hki, Hq1).
    apply BTreeFacts.Get_ReplaceOrInsert_eq.
  - intros q Hq Hne. rewrite BTreeFacts.Get_ReplaceOrInsert_ne.
    + apply Get_agree; [by rewrite Hq1|done].
    + done.
    + by rewrite Hki, Hq1.
Qed.

Lemma keys_upsertLoop_spec sec keys : forall t (m : memory) added,
  wf {| tree := t |} m ->
  Forall (fun k => slice_ok m k = true) keys ->
  exists t' (m' : memory),
    upsertLoop t m keys sec added
    = (t', m', added + (Z.of_nat (length t') - Z.of_nat (length t)))
    /\ wf {| tree := t' |} m'
    /\ (forall a, (a < length m)%nat -> m' !! a = m !! a)
    /\ (length m <= length m')%nat
    /\ (forall k, k ∈ keys -> slice_len k <> 0%nat ->
          exists res, BTree.Get (keyOf m') (probe k) t' = Some res
                      /\ timestampUnixSeconds res = sec)
    /\ (forall q res, slice_ok m q = true ->
          BTree.Get (keyOf m) (probe q) t = Some res ->
          exists res', BTree.Get (keyOf m') (probe q) t' = Some res'
                       /\ (timestampUnixSeconds res = sec ->
                           timestampUnixSeconds res' = sec))
    /\ (forall q, slice_ok m q = true ->
          (forall k, k ∈ keys -> slice_len k <> 0%nat ->
                     slice_bytes m k <> slice_bytes m q) ->
          BTree.Get (keyOf m') (probe q) t' = BTree.Get (keyOf m) (probe q) t).
Proof.
  induction keys as [|k keys IH]; intros t m added Hwf Hall.
  - exists t, m. simpl. split; [do 2 f_equal; lia|]. split; [done|]. split; [done|].
    split; [done|].
    split; [intros k Hk; by apply elem_of_nil in Hk|].
    split; [intros q res _ Hq; by exists res|]. done.
  - apply Forall_cons in Hall as [Hk Hall]. cbn [upsertLoop].
    destruct (slice_len k =? 0)%nat eqn:Hlen.
    + apply Nat.eqb_eq in Hlen.
      destruct (IH t m added Hwf Hall)
        as (t' & m' & HL & Hwf' & Hag & Hle & HB & HP & HU).
      exists t', m'. split; [done|]. split; [done|]. split; [done|]. split; [done|].
      split; [|split; [done|]].
      * intros k0 Hk0 Hn0. apply elem_of_cons in Hk0 as [->|Hk0]; [done|].
        by apply HB.
      * intros q Hq Hne. apply HU; [done|]. intros k0 Hk0. apply Hne. by right.
    + apply Nat.eqb_neq in Hlen.
      destruct (upsert_step t m k sec Hwf Hk Hlen)
        as (m1 & item & t1 & Hc & Hts & HR & Hwf1 & Hag1 & Hle1 & Hlen1 & Heq & Hne).
      rewrite Hc. destruct item as [kc ts0]. cbn [keyBytes timestampUnixSeconds] in *.
      subst ts0. rewrite HR.
      assert (Hok1 : forall q, slice_ok m q = true ->
                slice_ok m1 q = true /\ slice_bytes m1 q = slice_bytes m q)
        by (intros q Hq; by apply slice_ok_agree).
      assert (Hall1 : Forall (fun k0 => slice_ok m1 k0 = true) keys).
      { eapply Forall_impl; [exact Hall|]. intros q Hq. by apply Hok1. }
      destruct (IH t1 m1 (match BTree.Get (keyOf m) (probe k) t with
                          | None => added + 1 | Some _ => added end) Hwf1 Hall1)
        as (t' & m' & HL & Hwf' & Hag & Hle & HB & HP & HU).
      exists t', m'. split.
      { rewrite HL. f_equal.
        destruct (BTree.Get (keyOf m) (probe k) t); lia. }
      split; [done|].
      split.
      { intros a Ha. rewrite Hag by lia. by apply Hag1. }
      split; [lia|].
      split; [|split].
      * intros k0 Hk0 Hn0. apply elem_of_cons in Hk0 as [->|Hk0]; [|by apply HB].
        destruct (HP k {| keyBytes := kc; timestampUnixSeconds := sec |})
          as (res' & Hr' & Hs'); [by apply Hok1|by apply Heq|].
        exists res'. split; [done|]. by apply Hs'.
      * intros q res Hq HG.
        destruct (List.list_eq_dec Byte.byte_eq_dec (slice_bytes m q) (slice_bytes m k))
          as [E|E].
        -- destruct (HP q {| keyBytes := kc; timestampUnixSeconds := sec |})
             as (res' & Hr' & Hs'); [by apply Hok1|by apply Heq|].
           exists res'. split; [done|]. intros _. by apply Hs'.
        -- destruct (HP q res) as (res' & Hr' & Hs');
             [by apply Hok1|by rewrite Hne|]. by exists res'.
      * intros q Hq Hnk. rewrite HU.
        -- apply Hne; [done|]. intros E. by apply (Hnk k (list_elem_of_here _ _) Hlen).
        -- by apply Hok1.
        -- intros k0 Hk0 Hn0. rewrite Forall_forall in Hall.
           destruct (Hok1 k0 (Hall k0 Hk0)) as [_ ->].
           destruct (Hok1 q Hq) as [_ ->]. apply Hnk; [by right|done].
Qed.


(** X22: [UpsertManyAt] returns the number of keys that were new, which
    is the growth of [Size]; empty keys are skipped.  Every listed non-empty
    key is then indexed with the Unix seconds of the given time, no indexed
    key is lost, keys with other bytes are answered as before, and no
    existing array is written. *)
Theorem UpsertManyAt_indexes_every_listed_key b m keys at_ :
  wf b m -> Forall (fun k => slice_ok m k = true) keys ->
  exists b' (m' : memory) added,
    UpsertManyAt b m keys at_ = (b', m', added)
    /\ added = Size b' - Size b
    /\ wf b' m'
    /\ (forall a, (a < length m)%nat -> m' !! a = m !! a)
    /\ (forall k, k ∈ keys -> slice_len k <> 0%nat ->
          Has b' m' k = true
          /\ GetLastWriteUnix b' m' k = (TtlBTree.Unix at_, true))
    /\ (forall q, slice_ok m q = true -> Has b m q = true -> Has b' m' q = true)
    /\ (forall q, slice_ok m q = true ->
          (forall k, k ∈ keys -> slice_len k <> 0%nat ->
                     slice_bytes m k <> slice_bytes m q) ->
          Has b' m' q = Has b m q
          /\ GetLastWriteUnix b' m' q = GetLastWriteUnix b m q).
Proof.
  intros Hwf Hall. destruct b as [t].
  destruct (keys_upsertLoop_spec (TtlBTree.Unix at_) keys t m 0 Hwf Hall)
    as (t' & m' & HL & Hwf' & Hag & Hle & HB & HP & HU).
  exists {| tree := t' |}, m', (Z.of_nat (length t') - Z.of_nat (length t)).
  split.
  { unfold UpsertManyAt. cbn [tree]. destruct keys as [|k keys'].
    - simpl in HL. injection HL as <- <-. do 2 f_equal. lia.
    - by rewrite HL. }
  split; [done|]. split; [done|]. split; [done|].
  assert (Hlen : forall q, slice_ok m q = true ->
            slice_len q = slice_len q /\ slice_bytes m' q = slice_bytes m q).
  { intros q Hq. split; [done|]. by destruct (slice_ok_agree m m' q Hq Hag). }
  split; [|split].
  - intros k Hk Hn. destruct (HB k Hk Hn) as (res & Hr & Hts).
    unfold Has, GetLastWriteUnix. cbn [tree]. rewrite Hr, Hts.
    by apply Nat.eqb_neq in Hn as ->.
  - intros q Hq. unfold Has. cbn [tree].
    destruct (slice_len q =? 0)%nat; [done|].
    destruct (BTree.Get (keyOf m) (probe q) t) as [res|] eqn:E; [|done]. intros _.
    by destruct (HP q res Hq E) as (res' & -> & _).
  - intros q Hq Hne. unfold Has, GetLastWriteUnix. cbn [tree]. by rewrite (HU q Hq Hne).
Qed.

Lemma UpsertManyAt_indexes_every_listed_key_witness :
  exists b' (m' : memory) added,
    UpsertManyAt TtlKeysTest.b2 TtlKeysTest.m2 [TtlKeysTest.buffer; NilSlice]
      (TtlBTree.UnixTime 20000 0)
    = (b', m', added)
    /\ added = Size b' - Size TtlKeysTest.b2
    /\ wf b' m'.
Proof.
  destruct (UpsertManyAt_indexes_every_listed_key TtlKeysTest.b2 TtlKeysTest.m2
              [TtlKeysTest.buffer; NilSlice] (TtlBTree.UnixTime 20000 0) eq_refl)
    as (b' & m' & added & H1 & H2 & H3 & _).
  - repeat constructor.
  - exists b', m', added. exact (conj H1 (conj H2 H3)).
Defined.

Lemma keys_deleteLoop_spec (m : memory) keys : forall t deleted,
  BTree.sorted (keyOf m) t ->
  exists t',
    deleteLoop t m keys deleted
    = (t', deleted + (Z.of_nat (length t) - Z.of_nat (length t')))
    /\ BTree.sorted (keyOf m) t'
    /\ forall y, y ∈ t' <->
         y ∈ t /\ forall k, k ∈ keys -> slice_len k <> 0%nat ->
                            keyOf m y <> slice_bytes m k.
Proof.
  induction keys as [|k keys IH]; intros t deleted Hs.
  - exists t. simpl. split; [f_equal; lia|]. split; [done|].
    intros y. split; [|by intros [? _]]. intros Hy. split; [done|].
    intros k Hk. by apply elem_of_nil in Hk.
  - cbn [deleteLoop]. destruct (slice_len k =? 0)%nat eqn:Hk.
    + apply Nat.eqb_eq in Hk.
      destruct (IH t deleted Hs) as (t' & HL & Hs' & Hin).
      exists t'. split; [done|]. split; [done|]. intros y. rewrite Hin.
      split; intros [Hy Hk']; (split; [done|]).
      * intros k0 Hk0 Hn0. apply elem_of_cons in Hk0 as [->|Hk0]; [done|].
        by apply Hk'.
      * intros k0 Hk0. apply Hk'. by right.
    + apply Nat.eqb_neq in Hk.
      pose proof (BTreeFacts.Delete_snd (keyOf m) (probe k) t) as Hsnd.
      pose proof (BTreeFacts.Delete_sorted (keyOf m) (probe k) t Hs) as Hs1.
      pose proof (fun y => BTreeFacts.elem_of_Delete (keyOf m) (probe k) t y Hs) as Hin1.
      assert (Hlen : Z.of_nat (length t)
                     = Z.of_nat (length (fst (BTree.Delete (keyOf m) (probe k) t)))
                       + match BTree.Get (keyOf m) (probe k) t with
                         | Some _ => 1 | None => 0 end).
      { destruct (BTree.Get (keyOf m) (probe k) t) as [y|] eqn:E.
        - rewrite (BTreeFacts.length_Delete_Some _ _ _ _ E). lia.
        - rewrite BTreeFacts.Delete_absent by done. lia. }
      destruct (BTree.Delete (keyOf m) (probe k) t) as [t1 d]. cbn [fst snd] in *.
      subst d.
      destruct (IH t1 (match BTree.Get (keyOf m) (probe k) t with
                       | Some _ => deleted + 1 | None => deleted end) Hs1)
        as (t' & HL & Hs' & Hin).
      exists t'. split.
      { rewrite HL. f_equal. destruct (BTree.Get (keyOf m) (probe k) t); lia. }
      split; [done|]. intros y. rewrite Hin, Hin1. split.
      * intros [[Hy Hne] Hk']. split; [done|]. intros k0 Hk0 Hn0.
        apply elem_of_cons in Hk0 as [->|Hk0]; [done|]. by apply Hk'.
      * intros [Hy Hk']. split; [split; [done|]|].
        -- apply (Hk' k); [by left|done].
        -- intros k0 Hk0. apply Hk'. by right.
Qed.

Lemma keys_deleteLoop_absent (m : memory) keys : forall t deleted,
  (forall k, k ∈ keys -> slice_len k <> 0%nat ->
             BTree.Get (keyOf m) (probe k) t = None) ->
  deleteLoop t m keys deleted = (t, deleted).
Proof.
  induction keys as [|k keys IH]; intros t deleted Habs; [done|].
  cbn [deleteLoop].
  assert (Hrest : forall k0, k0 ∈ keys -> slice_len k0 <> 0%nat ->
                             BTree.Get (keyOf m) (probe k0) t = None)
    by (intros k0 Hk0; apply Habs; by right).
  destruct (slice_len k =? 0)%nat eqn:Hk; [by apply IH|].
  apply Nat.eqb_neq in Hk.
  pose proof (Habs k (list_elem_of_here _ _) Hk) as HN.
  pose proof (BTreeFacts.Delete_snd (keyOf m) (probe k) t) as Hsnd.
  pose proof (BTreeFacts.Delete_absent (keyOf m) (probe k) t HN) as Hfst.
  destruct (BTree.Delete (keyOf m) (probe k) t) as [t1 d]. cbn [fst snd] in *.
  rewrite Hsnd, HN, Hfst. by apply IH.
Qed.

(** X23: [DeleteMany] returns the number of keys it removed, which is the
    drop of [Size]; empty keys are skipped.  Afterwards [Has] answers
    [false] for every listed key, keys with other bytes are answered as
    before, and a second [DeleteMany] of the same list returns 0 and
    changes nothing. *)
Theorem DeleteMany_removes_every_listed_key b m keys :
  wf b m ->
  exists b' deleted,
    DeleteMany b m keys = (b', deleted)
    /\ deleted = Size b - Size b'
    /\ wf b' m
    /\ (forall k, k ∈ keys -> Has b' m k = false)
    /\ (forall q,
          (forall k, k ∈ keys -> slice_len k <> 0%nat ->
                     slice_bytes m k <> slice_bytes m q) ->
          Has b' m q = Has b m q
          /\ GetLastWriteUnix b' m q = GetLastWriteUnix b m q)
    /\ DeleteMany b' m keys = (b', 0).
Proof.
  intros Hwf. pose proof (keys_wf_sorted b m Hwf) as Hs. destruct b as [t].
  cbn [tree] in Hs.
  destruct (keys_deleteLoop_spec m keys t 0 Hs) as (t' & HL & Hs' & Hin).
  exists {| tree := t' |}, (Z.of_nat (length t) - Z.of_nat (length t')).
  assert (Habs : forall k, k ∈ keys -> slice_len k <> 0%nat ->
                           BTree.Get (keyOf m) (probe k) t' = None).
  { intros k Hk Hn. apply BTreeFacts.Get_None_intro. intros y Hy.
    apply Hin in Hy as [_ Hy]. by apply Hy. }
  pose proof (keys_deleteLoop_absent m keys t' 0 Habs) as HA.
  split.
  { unfold DeleteMany. cbn [tree]. destruct keys as [|k keys'].
    - simpl in HL. injection HL as <-. f_equal. lia.
    - by rewrite HL. }
  split; [done|]. split.
  { apply keys_wf_intro; [done|]. cbn [tree]. intros it Hit. apply Hin in Hit as [Hit _].
    by apply (wf_item _ m it Hwf). }
  split.
  { intros k Hk. unfold Has. cbn [tree].
    destruct (slice_len k =? 0)%nat eqn:Hn; [done|].
    apply Nat.eqb_neq in Hn. by rewrite Habs. }
  split.
  { intros q Hne.
    assert (BTree.Get (keyOf m) (probe q) t' = BTree.Get (keyOf m) (probe q) t) as HG.
    { destruct (BTree.Get (keyOf m) (probe q) t) as [res|] eqn:E.
      - destruct (BTreeFacts.Get_Some _ _ _ _ E) as [Hr Hk].
        apply BTreeFacts.Get_elem; [done| |done]. apply Hin. split; [done|].
        intros k Hk0 Hn0. rewrite Hk. intros E'. by apply (Hne k Hk0 Hn0).
      - apply BTreeFacts.Get_None_intro. intros y Hy. apply Hin in Hy as [Hy _].
        by apply (BTreeFacts.Get_None _ _ _ Hs E). }
    unfold Has, GetLastWriteUnix. cbn [tree]. by rewrite HG. }
  unfold DeleteMany. cbn [tree]. destruct keys as [|k keys']; [|by rewrite HA].
  simpl in HL. by injection HL as <-.
Qed.

Lemma DeleteMany_removes_every_listed_key_witness :
  exists b' deleted,
    DeleteMany TtlKeysTest.b2 TtlKeysTest.m2 [TtlKeysTest.buffer; NilSlice]
    = (b', deleted)
    /\ deleted = Size TtlKeysTest.b2 - Size b'
    /\ wf b' TtlKeysTest.m2.
Proof.
  destruct (DeleteMany_removes_every_listed_key TtlKeysTest.b2 TtlKeysTest.m2
              [TtlKeysTest.buffer; NilSlice] eq_refl)
    as (b' & deleted & H1 & H2 & H3 & _).
  exists b', deleted. exact (conj H1 (conj H2 H3)).
Defined.

(** *** [ForEach] *)

Lemma forEachVisit_agree {S : Type} (cb : TtlBTree.callback S) (m0 : memory) x
    (m : memory) sigma seen (m' : memory) sigma' seen' keep :
  (forall a, (a < length m0)%nat -> m !! a = m0 !! a) ->
  (length m0 <= length m)%nat ->
  Forall (TtlBTree.freshSlice {| TtlBTree.arrays := m0; TtlBTree.items := [] |}) seen ->
  forEachVisit cb x (m, sigma, seen) = Ok (m', sigma', seen', keep) ->
  (forall a, (a < length m0)%nat -> m' !! a = m0 !! a)
  /\ (length m0 <= length m')%nat
  /\ Forall (TtlBTree.freshSlice {| TtlBTree.arrays := m0; TtlBTree.items := [] |}) seen'.
Proof.
  intros Hag Hle Hseen. unfold forEachVisit.
  destruct (cloneBytes m (keyBytes x)) as [m1 keyCopy] eqn:Ec.
  assert ((forall a, (a < length m)%nat -> m1 !! a = m !! a)
          /\ (length m <= length m1)%nat
          /\ TtlBTree.freshSlice {| TtlBTree.arrays := m0; TtlBTree.items := [] |} keyCopy)
    as (Hag1 & Hle1 & Hfresh).
  { unfold cloneBytes in Ec. destruct (slice_len (keyBytes x) =? 0)%nat.
    - injection Ec as <- <-. done.
    - injection Ec as <- <-. split; [intros; by apply app_agree|].
      split; [rewrite length_app; lia|]. simpl. lia. }
  destruct (cb sigma keyCopy _ _) as [[sg ws] kg].
  assert (Forall (TtlBTree.freshSlice {| TtlBTree.arrays := m0; TtlBTree.items := [] |})
            (seen ++ [keyCopy])) as Hseen'
    by (apply Forall_app; split; [done|by constructor]).
  destruct (TtlBTree.doWrites (seen ++ [keyCopy]) m1 ws) as [m2|] eqn:Ew; [|done].
  cbn [bind]. intros [= <- <- <- <-].
  destruct (TtlFacts.doWrites_frame _ _ _ _ _ Hseen' Ew) as [Hl2 Hp2].
  cbn [TtlBTree.arrays] in Hp2.
  split; [|split; [lia|done]].
  intros a Ha. rewrite Hp2 by done. rewrite Hag1 by lia. by apply Hag.
Qed.

Lemma Ascend_forEachVisit_agree {S : Type} (cb : TtlBTree.callback S) (m0 : memory) t :
  forall (m : memory) sigma seen (m' : memory) sigma' seen',
  (forall a, (a < length m0)%nat -> m !! a = m0 !! a) ->
  (length m0 <= length m)%nat ->
  Forall (TtlBTree.freshSlice {| TtlBTree.arrays := m0; TtlBTree.items := [] |}) seen ->
  BTree.Ascend (forEachVisit cb) t (m, sigma, seen) = Ok (m', sigma', seen') ->
  forall a, (a < length m0)%nat -> m' !! a = m0 !! a.
Proof.
  induction t as [|x t IH]; intros m sigma seen m' sigma' seen' Hag Hle Hseen.
  - simpl. by intros [= <- <- <-].
  - rewrite BTreeFacts.Ascend_cons.
    destruct (forEachVisit cb x (m, sigma, seen)) as [[[[m1 s1] seen1] keep]|] eqn:Ev;
      [|done].
    cbn [bind].
    destruct (forEachVisit_agree cb m0 x m sigma seen m1 s1 seen1 keep Hag Hle Hseen Ev)
      as (Hag1 & Hle1 & Hseen1).
    destruct keep.
    + by apply IH.
    + by intros [= <- <- <-].
Qed.

Lemma Ascend_reader_keys {S : Type} (f : S -> list byte -> Z -> S * bool)
    (m0 : memory) t :
  forall (m : memory) sigma seen,
  (forall a, (a < length m0)%nat -> m !! a = m0 !! a) ->
  (length m0 <= length m)%nat ->
  (forall it, it ∈ t -> item_ok m0 it = true) ->
  exists (m' : memory) seen',
    BTree.Ascend (forEachVisit (TtlObservers.reader f)) t (m, sigma, seen)
    = Ok (m', TtlObservers.shown f sigma
                (map (fun it => (keyOf m0 it, timestampUnixSeconds it)) t), seen').
Proof.
  induction t as [|x t IH]; intros m sigma seen Hag Hle Hok.
  - simpl. eauto.
  - rewrite BTreeFacts.Ascend_cons. unfold forEachVisit at 1.
    pose proof (Hok x (list_elem_of_here _ _)) as Hx.
    assert (Hagm : forall a, (a < length m0)%nat -> m !! a = m0 !! a) by done.
    destruct (item_ok_agree m0 m x Hx Hagm) as [Hxm Hkm].
    unfold item_ok in Hxm. apply andb_true_iff in Hxm as [Hsx Hnx].
    apply negb_true_iff, Nat.eqb_neq in Hnx.
    destruct (cloneBytes_spec m (keyBytes x) Hsx Hnx) as (-> & Hb & _).
    rewrite Hb. fold (keyOf m x). rewrite Hkm.
    unfold TtlObservers.reader at 1. cbn [map TtlObservers.shown].
    destruct (f sigma (keyOf m0 x) (timestampUnixSeconds x)) as [sigma' keep].
    cbn [TtlBTree.doWrites bind].
    destruct keep; [|eauto].
    apply IH.
    + intros a Ha. rewrite app_agree by lia. by apply Hag.
    + rewrite length_app. lia.
    + intros it Hit. apply Hok. by right.
Qed.

Lemma sorted_presented_keys b m :
  wf b m -> BTree.sorted fst (presented b m).
Proof.
  intros Hwf. pose proof (keys_wf_sorted b m Hwf) as Hs. unfold presented.
  revert Hs. generalize (tree b). intros t.
  induction t as [|x t IH]; intros Hs; [apply BTreeFacts.sorted_nil|].
  apply BTreeFacts.sorted_cons_inv in Hs as [Hs Hall]. cbn [map].
  apply BTreeFacts.sorted_cons; [by apply IH|].
  apply Forall_fmap. eapply Forall_impl; [exact Hall|]. by intros y Hy.
Qed.

(** X24: [ForEach] presents the keys in strictly ascending byte order,
    each with its timestamp, and stops after the first call that answers
    [false].  The callback receives copies: whatever it writes through the
    slices it is given, no array that existed before the call changes, the
    index presents the same sequence afterwards and answers [Has] and
    [GetLastWriteUnix] as before.  A nil callback gives the error. *)
Theorem ForEach_presents_copies_in_key_order b m :
  wf b m ->
  BTree.sorted fst (presented b m)
  /\ (forall (S : Type) (f : S -> list byte -> Z -> S * bool) sigma,
        exists (m' : memory),
          ForEach b m (Some (TtlObservers.reader f)) sigma
          = Ok (m', TtlObservers.shown f sigma (presented b m), None))
  /\ (forall (S : Type) (cb : TtlBTree.callback S) sigma (m' : memory) sigma' e,
        ForEach b m (Some cb) sigma = Ok (m', sigma', e) ->
        (forall a, (a < length m)%nat -> m' !! a = m !! a)
        /\ wf b m'
        /\ presented b m' = presented b m
        /\ forall q, slice_ok m q = true ->
             Has b m' q = Has b m q
             /\ GetLastWriteUnix b m' q = GetLastWriteUnix b m q)
  /\ (forall (S : Type) (sigma : S),
        ForEach b m (None : option (TtlBTree.callback S)) sigma
        = Ok (m, sigma, Some TtlBTree.NilCallback)).
Proof.
  intros Hwf. split; [by apply sorted_presented_keys|]. split; [|split; [|done]].
  - intros S f sigma. unfold ForEach.
    destruct (Ascend_reader_keys f m (tree b) m sigma []) as (m' & seen' & ->);
      [done|done|intros it Hit; by apply (wf_item b m)|].
    cbn [bind]. by exists m'.
  - intros S cb sigma m' sigma' e. unfold ForEach.
    destruct (BTree.Ascend (forEachVisit cb) (tree b) (m, sigma, []))
      as [[[m1 s1] seen1]|] eqn:EA; [|done].
    cbn [bind]. intros [= <- <- <-].
    pose proof (Ascend_forEachVisit_agree cb m (tree b) m sigma [] m1 s1 seen1
                  (fun _ _ => eq_refl) (le_n _) (Forall_nil_2 _) EA) as Hag.
    destruct (wf_agree b m m1 Hwf Hag) as [Hwf' Hkeys].
    split; [done|]. split; [done|]. split.
    + unfold presented. apply map_ext_in. intros it Hit.
      by rewrite (Hkeys it) by (by apply list_elem_of_In).
    + intros q Hq.
      assert (BTree.Get (keyOf m1) (probe q) (tree b)
              = BTree.Get (keyOf m) (probe q) (tree b)) as HG.
      { apply Get_agree; [|done]. unfold keyOf. simpl.
        by destruct (slice_ok_agree m m1 q Hq Hag). }
      unfold Has, GetLastWriteUnix. by rewrite HG.
Qed.

Lemma ForEach_presents_copies_in_key_order_witness :
  BTree.sorted fst (presented TtlKeysTest.b2 TtlKeysTest.m2)
  /\ exists (m' : memory),
       ForEach TtlKeysTest.b2 TtlKeysTest.m2
         (Some (TtlObservers.reader
                  (fun (n : Z) (_ : list byte) (ts : Z) => (n + ts, true)))) 0
       = Ok (m', 39940, None).
Proof.
  destruct (ForEach_presents_copies_in_key_order TtlKeysTest.b2 TtlKeysTest.m2 eq_refl)
    as (H1 & H2 & _).
  exact (conj H1 (H2 Z (fun (n : Z) (_ : list byte) (ts : Z) => (n + ts, true)) 0)).
Defined.

End TtlKeysFacts.
